(** * CCM, the Core Contact Manager: a shallow embedding of [ccm.py]

    The development follows the source file top to bottom: the Python
    built-ins and the gRPC client the script calls into (taken as
    interfaces), [ContactState], [CoreContact] with [from_string],
    [CoreContactPlan] with [load] and its temporal queries, [find_link],
    and the [while True] event loop, one iteration at a time.  Time values
    and node identifiers are Python [int]s, hence [Z].  Plan text is taken
    to be ASCII.  What the script prints is modelled as far as the loop
    goes; of the prints of the parser only the one that can raise is. *)

From Stdlib Require Import List ZArith Bool Ascii String Lia Arith.
Import ListNotations.
Open Scope string_scope.
Open Scope list_scope.
Open Scope Z_scope.

Set Implicit Arguments.


(* ================================================================== *)
(** * Part I: definitions                                              *)
(* ================================================================== *)

(** ** What the script takes from outside *)

(** [int(s)] and [float(s)] on plan tokens either return a value or
    raise [ValueError]; [None] stands for the raise.  Two library calls
    convert an [int] to a machine number and raise [OverflowError] when it
    is out of range: ['%f' % n] makes a [float] of [n], and
    [time.sleep(n)] a C time value; [fits_float n] and [sleep_fits n] tell
    whether the conversion succeeds.  The facts the development needs:
    the one-letter token [a] is not an integer literal, and [0] converts
    to a C time value. *)
Class PyBuiltins := {
  float : Type;
  py_float : string -> option float;
  py_int : string -> option Z;
  fits_float : Z -> bool;
  sleep_fits : Z -> bool;
  py_int_a : py_int "a" = None;
  sleep_fits_0 : sleep_fits 0 = true
}.

(** ** Python string methods used by the parser *)

Module PyStr.

(** [str.isspace] on one ASCII character: TAB, LF, VT, FF, CR, the four
    separators FS GS RS US, and the space. *)
Definition isspace (c : ascii) : bool :=
  let n := nat_of_ascii c in
  (((9 <=? n) && (n <=? 13)) || ((28 <=? n) && (n <=? 32)))%nat.

Fixpoint lstrip (s : string) : string :=
  match s with
  | EmptyString => EmptyString
  | String c s' => if isspace c then lstrip s' else s
  end.

Fixpoint rstrip (s : string) : string :=
  match s with
  | EmptyString => EmptyString
  | String c s' =>
      match rstrip s' with
      | EmptyString => if isspace c then EmptyString else String c EmptyString
      | r => String c r
      end
  end.

(** [s.strip()] *)
Definition strip (s : string) : string := rstrip (lstrip s).

(** Characters of the word being read are accumulated in reverse. *)
Fixpoint rev_string (acc s : string) : string :=
  match s with
  | EmptyString => acc
  | String c s' => rev_string (String c acc) s'
  end.

Definition flush (cur : string) : list string :=
  match cur with
  | EmptyString => []
  | _ => [rev_string EmptyString cur]
  end.

Fixpoint split_from (cur s : string) : list string :=
  match s with
  | EmptyString => flush cur
  | String c s' =>
      if isspace c then flush cur ++ split_from EmptyString s'
      else split_from (String c cur) s'
  end.

(** [s.split()]: the maximal runs of non-whitespace characters. *)
Definition split (s : string) : list string := split_from EmptyString s.

(** [s.startswith(p)] *)
Definition startswith (p s : string) : bool := String.prefix p s.

(** [s[n:]] *)
Fixpoint drop (n : nat) (s : string) : string :=
  match n, s with
  | O, _ => s
  | S n', String _ s' => drop n' s'
  | S _, EmptyString => EmptyString
  end.

End PyStr.

(** ** [class ContactState(Enum)] *)

Inductive ContactState := PRE | LIVE | POST.

Definition ContactState_eqb (a b : ContactState) : bool :=
  match a, b with
  | PRE, PRE | LIVE, LIVE | POST, POST => true
  | _, _ => false
  end.

(** ** [class CoreContact]

    The class defines neither [__eq__] nor [__hash__], so as a dictionary
    key a contact is compared by object identity.  [oid] is that identity:
    every call of the constructor yields an object with an [oid] no live
    object has. *)
Record CoreContact `{PyBuiltins} := mkCoreContact {
  oid : nat;
  timespan : Z * Z;
  nodes : Z * Z;
  bw : Z;
  loss : float;
  delay : Z;
  jitter : Z
}.
Arguments mkCoreContact {_} oid timespan nodes bw loss delay jitter.

(** The exceptions the script can die of. *)
Inductive PyExn :=
| ValueError_line (line : string)   (* "Invalid CoreContact line: %s" *)
| ValueError_int (token : string)   (* raised by int() *)
| ValueError_float (token : string) (* raised by float() *)
| ValueError_sleep                  (* time.sleep of a negative length *)
| OverflowError_float               (* '%f' of an int no float holds *)
| OverflowError_sleep               (* time.sleep of a length too large *)
| RpcError.                         (* raised inside core.edit_link *)

Inductive Res (A : Type) :=
| Ok (a : A)
| Raise (e : PyExn).
Arguments Ok {A} a.
Arguments Raise {A} e.

Definition bind {A B} (r : Res A) (k : A -> Res B) : Res B :=
  match r with
  | Ok a => k a
  | Raise e => Raise e
  end.

Notation "x <- r ;; k" := (bind r (fun x => k))
  (at level 61, r at next level, right associativity).

Section Parsing.
Context `{PyBuiltins}.

Definition field (fields : list string) (i : nat) : string :=
  nth i fields "".

Definition int_field (tok : string) : Res Z :=
  match py_int tok with
  | Some z => Ok z
  | None => Raise (ValueError_int tok)
  end.

Definition float_field (tok : string) : Res float :=
  match py_float tok with
  | Some f => Ok f
  | None => Raise (ValueError_float tok)
  end.

(** The text [from_string] splits into fields: the stripped line, less
    a leading ['a contact']. *)
Definition contact_text (line : string) : string :=
  let line := PyStr.strip line in
  if PyStr.startswith "a contact" line
  then PyStr.strip (PyStr.drop 9 line)
  else line.

(** [CoreContact.from_string]; [fresh] is the identity of the object
    the constructor call creates.  (Its [print] of the fields and their
    number cannot raise and is left out.) *)
Definition from_string (fresh : nat) (line : string) : Res CoreContact :=
  let line := contact_text line in
  let fields := PyStr.split line in
  if negb (Nat.eqb (List.length fields) 8) then Raise (ValueError_line line)
  else
    t0 <- int_field (field fields 0) ;;
    t1 <- int_field (field fields 1) ;;
    n0 <- int_field (field fields 2) ;;
    n1 <- int_field (field fields 3) ;;
    bw <- int_field (field fields 4) ;;
    loss <- float_field (field fields 5) ;;
    delay <- int_field (field fields 6) ;;
    jitter <- int_field (field fields 7) ;;
    Ok (mkCoreContact fresh (t0, t1) (n0, n1) bw loss delay jitter).

(** [CoreContact.__str__], as far as it can raise; the text it builds is
    not modelled.  The format has [%r] for the two tuples, [%d] for [bw]
    and [%f] for [loss], [delay] and [jitter].  [from_string] made [delay]
    and [jitter] [int]s, and [%f] of an [int] converts it to a [float]
    first. *)
Definition CoreContact_str (c : CoreContact) : Res unit :=
  if fits_float (delay c) && fits_float (jitter c) then Ok tt
  else Raise OverflowError_float.

(** ** The [contacts] dictionary

    A Python [dict] keeps its items in insertion order; keys are
    compared by identity. *)
Definition Dict := list (CoreContact * ContactState).

Definition same_obj (a b : CoreContact) : bool := Nat.eqb (oid a) (oid b).

(** [d[k]]; [None] is [KeyError]. *)
Fixpoint dict_get (k : CoreContact) (d : Dict) : option ContactState :=
  match d with
  | [] => None
  | (k', v) :: d' => if same_obj k k' then Some v else dict_get k d'
  end.

(** [d[k] = v]: an existing key keeps its place, a new one goes last. *)
Fixpoint dict_set (k : CoreContact) (v : ContactState) (d : Dict) : Dict :=
  match d with
  | [] => [(k, v)]
  | (k', v') :: d' =>
      if same_obj k k' then (k', v) :: d' else (k', v') :: dict_set k v d'
  end.

Definition keys (d : Dict) : list CoreContact := map fst d.

(** ** [class CoreContactPlan] *)
Record CoreContactPlan := mkPlan {
  loop : bool;
  contacts : Dict
}.

(** The state of [load] while it reads lines: [self.loop], the local
    [contacts], and the number of contact objects created so far. *)
Record Loading := mkLoading {
  ld_loop : bool;
  ld_contacts : Dict;
  ld_created : nat
}.

(** The body of [for line in f]. *)
Definition load_line (st : Loading) (line : string) : Res Loading :=
  let line := PyStr.strip line in
  let fields := PyStr.split line in
  if Nat.eqb (List.length fields) 3 && String.eqb (field fields 0) "s" then
    if String.eqb (field fields 1) "loop" then
      if String.eqb (field fields 2) "1"
      then Ok (mkLoading true (ld_contacts st) (ld_created st))
      else Ok (mkLoading false (ld_contacts st) (ld_created st))
    else Ok st
  else if Nat.ltb 4 (List.length fields) && String.eqb (field fields 0) "a" then
    if String.eqb (field fields 1) "contact" then
      contact <- from_string (ld_created st) line ;;
      _ <- CoreContact_str contact ;;             (* print(contact) *)
      Ok (mkLoading (ld_loop st)
                    (dict_set contact PRE (ld_contacts st))
                    (S (ld_created st)))
    else Ok st
  else Ok st.

Fixpoint load_lines (st : Loading) (lines : list string) : Res Loading :=
  match lines with
  | [] => Ok st
  | line :: rest => st' <- load_line st line ;; load_lines st' rest
  end.

(** [CoreContactPlan(filename)]: [__init__] sets [loop = False] and
    calls [load], which reads the lines of the file. *)
Definition load (lines : list string) : Res CoreContactPlan :=
  st <- load_lines (mkLoading false [] 0) lines ;;
  Ok (mkPlan (ld_loop st) (ld_contacts st)).

Definition is_PRE (s : ContactState) := ContactState_eqb s PRE.
Definition is_LIVE (s : ContactState) := ContactState_eqb s LIVE.

Definition start_of (c : CoreContact) : Z := fst (timespan c).
Definition end_of (c : CoreContact) : Z := snd (timespan c).

(** [CoreContactPlan.at] *)
Definition at_time (cp : CoreContactPlan) (time : Z)
  : list (CoreContact * ContactState) :=
  filter (fun cs => (start_of (fst cs) <=? time) && (end_of (fst cs) >=? time))
         (contacts cp).

Definition need_activation (cp : CoreContactPlan) (time : Z)
  : list (CoreContact * ContactState) :=
  let all := at_time cp time in
  filter (fun cs => is_PRE (snd cs)) all.

Definition need_deactivation (cp : CoreContactPlan) (time : Z)
  : list (CoreContact * ContactState) :=
  filter (fun cs => (time >=? end_of (fst cs)) && is_LIVE (snd cs))
         (contacts cp).

(** [min(l)] guarded by [len(l) == 0]. *)
Definition min_or_none (l : list Z) : option Z :=
  match l with
  | [] => None
  | x :: xs => Some (fold_left Z.min xs x)
  end.

Definition next_activation (cp : CoreContactPlan) (time : Z) : option Z :=
  let activations :=
    map (fun cs => start_of (fst cs))
        (filter (fun cs => is_PRE (snd cs) && (start_of (fst cs) >=? time))
                (contacts cp)) in
  min_or_none activations.

Definition next_deactivation (cp : CoreContactPlan) (time : Z) : option Z :=
  let deactivations :=
    map (fun cs => end_of (fst cs))
        (filter (fun cs => is_LIVE (snd cs) && (end_of (fst cs) >=? time))
                (contacts cp)) in
  min_or_none deactivations.

(** [CoreContactPlan.reset]: [for c in self.contacts: self.contacts[c] = PRE] *)
Definition reset (cp : CoreContactPlan) : CoreContactPlan :=
  mkPlan (loop cp)
         (fold_left (fun d c => dict_set c PRE d) (keys (contacts cp))
                    (contacts cp)).

End Parsing.

(** ** The emulation session: links and the gRPC client *)

(** A value of a numeric link option: the script stores a parsed [float]
    in [loss] on activation and the [int] literal [100] on deactivation. *)
Inductive PyNum `{PyBuiltins} :=
| PyInt (z : Z)
| PyFloat (f : float).

Record LinkOptions `{PyBuiltins} := mkOptions {
  opt_bandwidth : Z;
  opt_delay : Z;
  opt_loss : PyNum;
  opt_jitter : Z
}.

Record Link `{PyBuiltins} := mkLink {
  node1_id : Z;
  node2_id : Z;
  options : LinkOptions
}.

(** What one [core.edit_link] call does: it returns the result flag of the
    reply, or raises. *)
Inductive RpcReply :=
| Replied (result : bool)
| Failed.

(** [client.CoreGrpcClient]: the reply to [edit_link(sess_id, link, None)]
    may depend on how many calls the session has already served, so that a
    controller can be unavailable for a single event. *)
Class CoreGrpcClient `{PyBuiltins} := {
  edit_link : nat -> Z -> Link -> RpcReply
}.

(** What the script does, statement by statement: its prints, sleeps and
    controller calls, and also its assignments to [cp.contacts] and its
    calls of [cp.reset], so that a trace tells the whole history of every
    contact's state. *)
Inductive Event `{PyBuiltins} :=
| PrintNextEvent (cur_time next_event : Z)
| Sleep (seconds : Z)
| PrintActivating (cur_time : Z) (contact : CoreContact)
| PrintDeactivating (cur_time : Z) (contact : CoreContact)
| PrintWarning (node1 node2 : Z)
| EditLink (sess_id : Z) (link : Link)
| Assign (contact : CoreContact) (state : ContactState)
| PrintLooping
| CallReset
| PrintNoMoreEvents.

(** ** The command line *)

(** [type=bool] makes argparse call [bool] on the text after [-l]: every
    non-empty text is [True]. *)
Definition argparse_bool (text : string) : bool := negb (String.eqb text "").

Record Args := mkArgs {
  session : Z;               (* -s ID, default 1 *)
  loop_arg : option bool     (* -l LOOP, default None *)
}.

(** [parse_args] on the two options; [None] means the option is absent. *)
Definition parse_args (s : option Z) (l : option string) : Args :=
  mkArgs (match s with Some id => id | None => 1 end)
         (option_map argparse_bool l).

(** Truth value of [args.loop] in [cp.loop or args.loop]. *)
Definition truthy (b : option bool) : bool :=
  match b with
  | Some true => true
  | _ => false
  end.

Section Scheduler.
Context `{PyBuiltins} `{!CoreGrpcClient}.

Definition link_matches (link : Link) (node1 node2 : Z) : bool :=
  ((node1_id link =? node1) && (node2_id link =? node2))
  || ((node1_id link =? node2) && (node2_id link =? node1)).

(** [find_link]: the first matching link, with its position in [links]
    (the position is how the model refers to the object returned). *)
Fixpoint find_link (links : list Link) (node1 node2 : Z)
  : option (nat * Link) :=
  match links with
  | [] => None
  | link :: rest =>
      if link_matches link node1 node2 then Some (O, link)
      else match find_link rest node1 node2 with
           | Some (i, l) => Some (S i, l)
           | None => None
           end
  end.

(** The session's list once the object at position [i] has become [l]. *)
Fixpoint store (i : nat) (l : Link) (links : list Link) : list Link :=
  match links, i with
  | [], _ => []
  | _ :: rest, O => l :: rest
  | l0 :: rest, S i' => l0 :: store i' l rest
  end.

(** The variables of the script while the loop runs. *)
Record Sched := mkSched {
  cp : CoreContactPlan;
  cur_time : Z;
  links : list Link;
  rpc_calls : nat
}.

(** Where control is after a piece of the loop. *)
Inductive Control :=
| Go (s : Sched)                  (* falls through to the next statement *)
| Stop (s : Sched)                (* [break] *)
| Crash (e : PyExn) (s : Sched).  (* an uncaught exception *)

Definition with_cp (s : Sched) (p : CoreContactPlan) : Sched :=
  mkSched p (cur_time s) (links s) (rpc_calls s).

(** The four option assignments of the activation pass. *)
Definition contact_options (contact : CoreContact) (o : LinkOptions)
  : LinkOptions :=
  mkOptions (bw contact) (delay contact) (PyFloat (loss contact))
            (jitter contact).

(** [link.options.loss = 100] *)
Definition blocked_options (o : LinkOptions) : LinkOptions :=
  mkOptions (opt_bandwidth o) (opt_delay o) (PyInt 100) (opt_jitter o).

(** The common shape of the two loop bodies once the link is found:
    mutate the link, call the controller, then record the new state. *)
Definition apply_link (sess_id : Z) (s : Sched) (contact : CoreContact)
           (found : nat * Link) (f : LinkOptions -> LinkOptions)
           (new_state : ContactState) : list Event * Control :=
  let (i, link0) := found in
  let link := mkLink (node1_id link0) (node2_id link0) (f (options link0)) in
  let s' := mkSched (cp s) (cur_time s) (store i link (links s))
                    (S (rpc_calls s)) in
  match edit_link (rpc_calls s) sess_id link with
  | Failed => ([EditLink sess_id link], Crash RpcError s')
  | Replied _ =>
      ([EditLink sess_id link; Assign contact new_state],
       Go (with_cp s' (mkPlan (loop (cp s))
                              (dict_set contact new_state
                                        (contacts (cp s))))))
  end.

(** Body of [for contact, state in cp.need_activation(cur_time)].  The
    first [print] formats the contact with [%s], that is with
    [__str__]. *)
Definition activate (sess_id : Z) (s : Sched)
           (item : CoreContact * ContactState) : list Event * Control :=
  let contact := fst item in
  match CoreContact_str contact with
  | Raise e => ([], Crash e s)
  | Ok _ =>
      let node1 := fst (nodes contact) in
      let node2 := snd (nodes contact) in
      match find_link (links s) node1 node2 with
      | None =>
          ([PrintActivating (cur_time s) contact; PrintWarning node1 node2],
           Go s)
      | Some found =>
          let (ev, r) := apply_link sess_id s contact found
                                    (contact_options contact) LIVE in
          (PrintActivating (cur_time s) contact :: ev, r)
      end
  end.

(** Body of [for contact, state in cp.need_deactivation(cur_time)]. *)
Definition deactivate (sess_id : Z) (s : Sched)
           (item : CoreContact * ContactState) : list Event * Control :=
  let contact := fst item in
  match CoreContact_str contact with
  | Raise e => ([], Crash e s)
  | Ok _ =>
      let node1 := fst (nodes contact) in
      let node2 := snd (nodes contact) in
      match find_link (links s) node1 node2 with
      | None =>
          ([PrintDeactivating (cur_time s) contact; PrintWarning node1 node2],
           Go s)
      | Some found =>
          let (ev, r) :=
            apply_link sess_id s contact found blocked_options POST in
          (PrintDeactivating (cur_time s) contact :: ev, r)
      end
  end.

(** A [for] loop over a list built before the loop starts. *)
Fixpoint for_each {A} (body : Sched -> A -> list Event * Control)
         (items : list A) (s : Sched) : list Event * Control :=
  match items with
  | [] => ([], Go s)
  | x :: rest =>
      match body s x with
      | (ev, Go s') =>
          let (ev', r) := for_each body rest s' in (ev ++ ev', r)
      | (ev, r) => (ev, r)
      end
  end.

(** Lines 147 and 157 together: [None] when both queries return [None],
    otherwise the least of the times that are not [None]. *)
Definition next_event_of (na nd : option Z) : option Z :=
  match na, nd with
  | None, None => None
  | Some a, None => Some a
  | None, Some d => Some d
  | Some a, Some d => min_or_none [a; d]
  end.

(** One pass through the body of [while True].  [time.sleep] converts
    its argument before it looks at its sign. *)
Definition iteration (args : Args) (s : Sched) : list Event * Control :=
  match next_event_of (next_activation (cp s) (cur_time s))
                      (next_deactivation (cp s) (cur_time s)) with
  | None =>
      if loop (cp s) || truthy (loop_arg args) then
        ([PrintLooping; CallReset],
         Go (mkSched (reset (cp s)) 0 (links s) (rpc_calls s)))
      else ([PrintNoMoreEvents], Stop s)
  | Some next_event =>
      let sleep_time := next_event - cur_time s in
      if negb (sleep_fits sleep_time) then
        ([PrintNextEvent (cur_time s) next_event],
         Crash OverflowError_sleep s)
      else if sleep_time <? 0 then
        ([PrintNextEvent (cur_time s) next_event], Crash ValueError_sleep s)
      else
        let s1 := mkSched (cp s) next_event (links s) (rpc_calls s) in
        let (ev1, r1) :=
          for_each (activate (session args))
                   (need_activation (cp s1) (cur_time s1)) s1 in
        match r1 with
        | Go s2 =>
            let (ev2, r2) :=
              for_each (deactivate (session args))
                       (need_deactivation (cp s2) (cur_time s2)) s2 in
            ([PrintNextEvent (cur_time s) next_event; Sleep sleep_time]
               ++ ev1 ++ ev2, r2)
        | r =>
            ([PrintNextEvent (cur_time s) next_event; Sleep sleep_time]
               ++ ev1, r)
        end
  end.

(** The loop, cut off after [fuel] passes. *)
Fixpoint run (fuel : nat) (args : Args) (s : Sched) : list Event * Control :=
  match fuel with
  | O => ([], Go s)
  | S fuel' =>
      match iteration args s with
      | (ev, Go s') =>
          let (ev', r) := run fuel' args s' in (ev ++ ev', r)
      | (ev, r) => (ev, r)
      end
  end.

(** The state in which the loop is entered. *)
Definition boot (plan : CoreContactPlan) (session_links : list Link) : Sched :=
  mkSched plan 0 session_links 0.

End Scheduler.

(** ** Instances used to run the model on concrete plans *)

Module Examples.

Definition digit_of (c : ascii) : option Z :=
  let n := nat_of_ascii c in
  if ((48 <=? n) && (n <=? 57))%nat then Some (Z.of_nat (n - 48)) else None.

Inductive Prev := AtStart | AfterDigit | AfterUnderscore.

(** Decimal digits, single underscores allowed between two digits. *)
Fixpoint digits (acc : Z) (prev : Prev) (s : string) : option Z :=
  match s with
  | EmptyString =>
      match prev with AfterDigit => Some acc | _ => None end
  | String c s' =>
      match digit_of c with
      | Some d => digits (10 * acc + d) AfterDigit s'
      | None =>
          if Ascii.eqb c "_" then
            match prev with
            | AfterDigit => digits acc AfterUnderscore s'
            | _ => None
            end
          else None
      end
  end.

(** [int(s)] on an ASCII token: an optional sign, then the digits. *)
Definition dec_int (s : string) : option Z :=
  match s with
  | String "+" r => digits 0 AtStart r
  | String "-" r => option_map Z.opp (digits 0 AtStart r)
  | _ => digits 0 AtStart s
  end.

(** A stand-in for [float]: a decimal numeral [mantissa / 10^places]. *)
Record DecFloat := mkDec { mantissa : Z; places : nat }.

Fixpoint dec_digits (acc : Z) (pl : nat) (dot digit : bool) (s : string)
  : option DecFloat :=
  match s with
  | EmptyString => if digit then Some (mkDec acc pl) else None
  | String c s' =>
      match digit_of c with
      | Some d =>
          dec_digits (10 * acc + d) (if dot then S pl else pl) dot true s'
      | None =>
          if Ascii.eqb c "." && negb dot then dec_digits acc pl true digit s'
          else None
      end
  end.

(** [float(s)] on plain decimal tokens (no exponent, no [inf]/[nan]). *)
Definition dec_float (s : string) : option DecFloat :=
  match s with
  | String "+" r => dec_digits 0 0 false false r
  | String "-" r =>
      option_map (fun d => mkDec (- mantissa d) (places d))
                 (dec_digits 0 0 false false r)
  | _ => dec_digits 0 0 false false s
  end.

(** CPython 3 on a 64-bit machine.  An [int] converts to a [float]
    (round to nearest) when its absolute value is below
    [2^1024 - 2^970]; [time.sleep] counts in nanoseconds in 64 bits, so
    that the lengths it converts are those of absolute value at most
    [9223372036]. *)
Definition float_limit : Z := Eval cbv in 2 ^ 1024 - 2 ^ 970.

Definition double_fits (n : Z) : bool :=
  float_limit >? Z.abs n.

Definition time_fits (n : Z) : bool :=
  9223372036 >=? Z.abs n.

#[export] Instance ascii_builtins : PyBuiltins :=
  {| float := DecFloat; py_float := dec_float; py_int := dec_int;
     fits_float := double_fits; sleep_fits := time_fits;
     py_int_a := eq_refl; sleep_fits_0 := eq_refl |}.

(** A controller that serves every call. *)
Definition serving : CoreGrpcClient :=
  {| edit_link := fun _ _ _ => Replied true |}.

(** A controller that is unavailable for its call number [n] only. *)
Definition down_at (n : nat) : CoreGrpcClient :=
  {| edit_link := fun k _ _ => if Nat.eqb k n then Failed else Replied true |}.

Definition no_options : LinkOptions := mkOptions 0 0 (PyInt 0) 0.

Definition link_1_2 : Link := mkLink 1 2 no_options.
Definition link_3_4 : Link := mkLink 3 4 no_options.

(** The plan of the spec's scenario. *)
Definition plan_text : list string :=
  [ "s loop 0";
    "a contact 10 20 1 2 1000000 0.0 5 1" ].

(** The same plan with looping switched on in the file. *)
Definition looping_text : list string :=
  [ "s loop 1";
    "a contact 10 20 1 2 1000000 0.0 5 1" ].

(** One contact written twice. *)
Definition twice_text : list string :=
  [ "a contact 10 20 1 2 1000000 0.0 5 1";
    "a contact 10 20 1 2 1000000 0.0 5 1" ].


(** Two contacts that start together, in both orders of the file. *)
Definition pair_text : list string :=
  [ "a contact 10 20 1 2 1000000 0.0 5 1";
    "a contact 10 30 3 4 2000000 0.5 7 2" ].
Definition pair_text_swapped : list string := rev pair_text.

Definition c_1_2 : CoreContact :=
  mkCoreContact 0%nat (10, 20) (1, 2) 1000000 (mkDec 0 1) 5 1.
Definition c_1_2_again : CoreContact :=
  mkCoreContact 1%nat (10, 20) (1, 2) 1000000 (mkDec 0 1) 5 1.
Definition c_3_4 : CoreContact :=
  mkCoreContact 1%nat (10, 30) (3, 4) 2000000 (mkDec 5 1) 7 2.

Definition plan_1_2 : CoreContactPlan := mkPlan false [(c_1_2, PRE)].
Definition plan_pair : CoreContactPlan :=
  mkPlan false [(c_1_2, PRE); (c_3_4, PRE)].

Definition plan_live : CoreContactPlan := mkPlan false [(c_1_2, LIVE)].

(** A plan outside the data model: the first contact starts before 0. *)
Definition c_early : CoreContact :=
  mkCoreContact 0%nat (-5, 10) (1, 2) 1000000 (mkDec 0 1) 5 1.
Definition c_brief : CoreContact :=
  mkCoreContact 1%nat (3, 4) (3, 4) 2000000 (mkDec 5 1) 7 2.
Definition plan_early : CoreContactPlan :=
  mkPlan false [(c_early, PRE); (c_brief, PRE)].

Definition no_args : Args := parse_args None None.

Definition both_links : list Link := [link_1_2; link_3_4].

(** The first iteration over [plan_1_2] in a session without links. *)
Definition tick_without_link : list Event * Control :=
  @iteration _ serving no_args (boot plan_1_2 []).


(** The first iteration over [plan_pair] with both links present. *)
Definition tick_pair : list Event * Control :=
  @iteration _ serving no_args (boot plan_pair both_links).

(** A whole run over [plan_1_2] with its link present. *)
Definition full_run : list Event * Control :=
  @run _ serving 3 no_args (boot plan_1_2 [link_1_2]).

(** A run over [plan_pair] whose first controller call raises. *)
Definition dying_run : list Event * Control :=
  @run _ (down_at 0) 5 no_args (boot plan_pair both_links).

(** A plan in the middle of a run, with looping on. *)
Definition plan_mixed : CoreContactPlan :=
  mkPlan true [(c_1_2, LIVE); (c_3_4, POST)].

(** A file that switches looping on and off again. *)
Definition relooped_text : list string :=
  [ "s loop 1";
    "a contact 10 20 1 2 1000000 0.0 5 1";
    "s loop 0" ].


(** A contact that ends before it starts, and one of length zero. *)
Definition c_backwards : CoreContact :=
  mkCoreContact 0%nat (20, 10) (1, 2) 1000000 (mkDec 0 1) 5 1.
Definition plan_backwards : CoreContactPlan :=
  mkPlan false [(c_backwards, PRE)].

Definition c_instant : CoreContact :=
  mkCoreContact 0%nat (10, 10) (1, 2) 1000000 (mkDec 0 1) 5 1.
Definition plan_instant : CoreContactPlan :=
  mkPlan false [(c_instant, PRE)].

(** The command line [-l 1]. *)
Definition loop_args : Args := parse_args None (Some "1").

(** Four iterations over [plan_1_2] with [-l 1]. *)
Definition looping_run : list Event * Control :=
  @run _ serving 4 loop_args (boot plan_1_2 [link_1_2]).

(** A run over the plan whose contact ends before it starts. *)
Definition backwards_run : list Event * Control :=
  @run _ serving 3 no_args (boot plan_backwards [link_1_2]).

(** The first iteration over the plan with the contact of length zero. *)
Definition tick_instant : list Event * Control :=
  @iteration _ serving no_args (boot plan_instant [link_1_2]).


(** A contact whose delay no [float] holds, before a malformed
    directive. *)
Definition huge_delay : string :=
  ("1" ++ "000000000000000000000000000000000000000000000000000000000000"
      ++ "000000000000000000000000000000000000000000000000000000000000"
      ++ "000000000000000000000000000000000000000000000000000000000000"
      ++ "000000000000000000000000000000000000000000000000000000000000"
      ++ "000000000000000000000000000000000000000000000000000000000000"
      ++ "000000000")%string.

Definition unprintable_text : list string :=
  [ ("a contact 10 20 1 2 1000000 0.0 " ++ huge_delay ++ " 1")%string;
    "a contact 10 20 1 2 1000000" ].

(** A contact that starts after more seconds than [time.sleep] takes. *)
Definition c_far : CoreContact :=
  mkCoreContact 0%nat (10000000000, 10000000001) (1, 2) 1000000
                (mkDec 0 1) 5 1.
Definition plan_far : CoreContactPlan := mkPlan false [(c_far, PRE)].

(** A handover: at time 20 one contact ends and another starts. *)
Definition c_relay : CoreContact :=
  mkCoreContact 1%nat (20, 30) (3, 4) 2000000 (mkDec 5 1) 7 2.
Definition plan_handover : CoreContactPlan :=
  mkPlan false [(c_1_2, LIVE); (c_relay, PRE)].
Definition at_handover : Sched := mkSched plan_handover 10 both_links 1.
Definition tick_handover : list Event * Control :=
  @iteration _ serving no_args at_handover.

End Examples.

(** ** Vocabulary of the statements *)

Section Vocabulary.
Context `{PyBuiltins} `{!CoreGrpcClient}.

(** The state control is left in. *)
Definition state_of (r : Control) : Sched :=
  match r with
  | Go s | Stop s | Crash _ s => s
  end.

(** No two entries of a dictionary have the same key. *)
Definition uniq (d : Dict) : Prop := NoDup (map oid (keys d)).

(** How often the object [k] occurs among [items]. *)
Definition occurrences (k : CoreContact)
           (items : list (CoreContact * ContactState)) : nat :=
  List.length (filter (fun cs => same_obj k (fst cs)) items).

Definition has_link (links : list Link) (c : CoreContact) : bool :=
  match find_link links (fst (nodes c)) (snd (nodes c)) with
  | Some _ => true
  | None => false
  end.

Definition node_ids (links : list Link) : list (Z * Z) :=
  map (fun l => (node1_id l, node2_id l)) links.

(** The lifecycle: the only assignments that are transitions of it. *)
Definition lifecycle (old new : ContactState) : option ContactState :=
  match old, new with
  | PRE, LIVE => Some LIVE
  | LIVE, POST => Some POST
  | _, _ => None
  end.

(** The state the object [k] is in after the events [evs], starting in
    state [st]; [None] as soon as an assignment to [k] is not a
    transition of the lifecycle.  A call of [reset] starts it afresh. *)
Fixpoint replay (k : CoreContact) (st : ContactState) (evs : list Event)
  : option ContactState :=
  match evs with
  | [] => Some st
  | Assign c new :: rest =>
      if same_obj c k then
        match lifecycle st new with
        | Some st' => replay k st' rest
        | None => None
        end
      else replay k st rest
  | CallReset :: rest => replay k PRE rest
  | _ :: rest => replay k st rest
  end.

(** Events of the activation pass and of the deactivation pass. *)
Definition activation_event (e : Event) : bool :=
  match e with
  | PrintActivating _ _ | PrintWarning _ _ | EditLink _ _
  | Assign _ LIVE => true
  | _ => false
  end.

Definition deactivation_event (e : Event) : bool :=
  match e with
  | PrintDeactivating _ _ | PrintWarning _ _ | EditLink _ _
  | Assign _ POST => true
  | _ => false
  end.

(** The data model of the plan: start times are not negative. *)
Definition nonneg_starts (plan : CoreContactPlan) : Prop :=
  forall c st, In (c, st) (contacts plan) -> 0 <= start_of c.

(** The clock has not passed the start of a contact that is still [PRE]. *)
Definition not_overtaken (s : Sched) : Prop :=
  forall c, In (c, PRE) (contacts (cp s)) -> cur_time s <= start_of c.



(** The lines [load] hands to [from_string]. *)
Definition is_contact_directive (line : string) : bool :=
  let fields := PyStr.split (PyStr.strip line) in
  Nat.ltb 4 (List.length fields) && String.eqb (field fields 0) "a"
  && String.eqb (field fields 1) "contact".


(** The contact can be formatted: [__str__] does not raise on it. *)
Definition printable (c : CoreContact) : Prop := CoreContact_str c = Ok tt.



Definition ids_match (p : Z * Z) (node1 node2 : Z) : bool :=
  ((fst p =? node1) && (snd p =? node2))
  || ((fst p =? node2) && (snd p =? node1)).

(** What one pass of a loop body does to the contact [c]: [note] is the
    line it prints first, [new] the state it assigns. *)
Definition body_outcome (note : Z -> CoreContact -> Event)
           (new : ContactState) (s : Sched) (c : CoreContact)
           (ev : list Event) (r : Control) : Prop :=
  (~ printable c /\ r = Crash OverflowError_float s /\ ev = [])
  \/
  (printable c
   /\ ((has_link (links s) c = false /\ r = Go s
        /\ ev = [note (cur_time s) c;
                 PrintWarning (fst (nodes c)) (snd (nodes c))])
       \/ exists sess link s',
           has_link (links s) c = true
           /\ link_matches link (fst (nodes c)) (snd (nodes c)) = true
           /\ In (node1_id link, node2_id link) (node_ids (links s))
           /\ cp s' = cp s /\ cur_time s' = cur_time s
           /\ node_ids (links s') = node_ids (links s)
           /\ rpc_calls s' = S (rpc_calls s)
           /\ ((edit_link (rpc_calls s) sess link = Failed
                /\ r = Crash RpcError s'
                /\ ev = [note (cur_time s) c; EditLink sess link])
               \/ ((exists b, edit_link (rpc_calls s) sess link = Replied b)
                   /\ r = Go (with_cp s' (mkPlan (loop (cp s))
                                                 (dict_set c new
                                                           (contacts (cp s)))))
                   /\ ev = [note (cur_time s) c; EditLink sess link;
                            Assign c new])))).

(** What [load] maintains line by line: the contact objects created so
    far are the keys, in order of creation, and all are [PRE]. *)
Definition loading_ok (st : Loading) : Prop :=
  map oid (keys (ld_contacts st)) = seq 0 (ld_created st)
  /\ Forall (fun cs => snd cs = PRE) (ld_contacts st).

(** The time the loop will sleep until, if any. *)
Definition next_event (s : Sched) : option Z :=
  next_event_of (next_activation (cp s) (cur_time s))
                (next_deactivation (cp s) (cur_time s)).

(** What holds at every loop head of a run over a plan of the data
    model. *)
Definition sound (s : Sched) : Prop :=
  uniq (contacts (cp s)) /\ nonneg_starts (cp s) /\ not_overtaken s.

(** *** Further vocabulary: the parser *)

(** What [load] reads off a line as a loop directive: three words, the
    first two being [s] and [loop]; the flag is set exactly when the third
    word is [1]. *)
Definition loop_directive (line : string) : option bool :=
  let fields := PyStr.split (PyStr.strip line) in
  if Nat.eqb (List.length fields) 3 && String.eqb (field fields 0) "s"
     && String.eqb (field fields 1) "loop"
  then Some (String.eqb (field fields 2) "1")
  else None.

(** The flag after the lines, reading them first to last. *)
Fixpoint last_loop (flag : bool) (lines : list string) : bool :=
  match lines with
  | [] => flag
  | line :: rest =>
      last_loop (match loop_directive line with
                 | Some b => b
                 | None => flag
                 end) rest
  end.

(** A line that is neither kind of directive. *)
Definition unrecognised (line : string) : Prop :=
  loop_directive line = None /\ is_contact_directive line = false.

(** *** Further vocabulary: the plan *)

(** The plan as [load] leaves it: every contact [PRE]. *)
Definition all_PRE (plan : CoreContactPlan) : Prop :=
  forall c st, In (c, st) (contacts plan) -> st = PRE.

Definition all_POST (plan : CoreContactPlan) : Prop :=
  forall c st, In (c, st) (contacts plan) -> st = POST.



(** Every contact of the plan can be printed, as [load] has done. *)
Definition all_printable (plan : CoreContactPlan) : Prop :=
  forall c st, In (c, st) (contacts plan) -> printable c.



(** The clock has not passed the end of a contact that is [LIVE]. *)
Definition on_time (s : Sched) : Prop :=
  forall c, In (c, LIVE) (contacts (cp s)) -> cur_time s <= end_of c.



(** Looping as line 148 decides it. *)
Definition looping (args : Args) (plan : CoreContactPlan) : bool :=
  loop plan || truthy (loop_arg args).


(** An event of one of the two passes. *)
Definition pass_event (e : Event) : Prop :=
  activation_event e = true \/ deactivation_event e = true.

(** What holds at every loop head of a run that started with every
    contact [PRE]. *)
Definition steady (s : Sched) : Prop := sound s /\ on_time s.

(** An announcement made on time: an activation at the contact's start,
    a deactivation at its end. *)
Definition punctual_event (e : Event) : Prop :=
  match e with
  | PrintActivating t c => t = start_of c
  | PrintDeactivating t c => t = end_of c
  | _ => True
  end.

(** *** Further vocabulary: the controller calls *)

(** The four option values the activation pass takes from a contact. *)
Definition options_of (c : CoreContact) : LinkOptions :=
  mkOptions (bw c) (delay c) (PyFloat (loss c)) (jitter c).

(** The event [e] is in its place after the event [prev]: a controller
    call comes right after the announcement of a contact, with the session
    id [sess_id], for a link between the nodes of that contact, carrying
    the contact's four values on activation and loss 100 on deactivation;
    an assignment to a contact comes right after a call for a link between
    its nodes. *)
Definition call_follows (sess_id : Z) (prev : option Event) (e : Event)
  : Prop :=
  match e with
  | EditLink sess link =>
      sess = sess_id
      /\ match prev with
         | Some (PrintActivating _ c) =>
             link_matches link (fst (nodes c)) (snd (nodes c)) = true
             /\ options link = options_of c
         | Some (PrintDeactivating _ c) =>
             link_matches link (fst (nodes c)) (snd (nodes c)) = true
             /\ opt_loss (options link) = PyInt 100
         | _ => False
         end
  | Assign c _ =>
      match prev with
      | Some (EditLink _ link) =>
          link_matches link (fst (nodes c)) (snd (nodes c)) = true
      | _ => False
      end
  | _ => True
  end.

Fixpoint calls_follow (sess_id : Z) (prev : option Event)
         (evs : list Event) : Prop :=
  match evs with
  | [] => True
  | e :: rest =>
      call_follows sess_id prev e /\ calls_follow sess_id (Some e) rest
  end.

(** What the script can have made of the link [l0] of the session: the
    nodes are those of [l0]; the options are those of [l0] or the four
    values of a contact of the plan between these nodes, as they are or
    with loss 100. *)
Definition tuned (plan : CoreContactPlan) (l0 l : Link) : Prop :=
  node1_id l = node1_id l0 /\ node2_id l = node2_id l0
  /\ exists o,
      (o = options l0
       \/ exists c, In c (keys (contacts plan))
                    /\ link_matches l0 (fst (nodes c)) (snd (nodes c)) = true
                    /\ o = options_of c)
      /\ (options l = o \/ options l = blocked_options o).


(** What a run keeps of the plan [plan0] and the links [links0] it began
    with. *)
Definition known (plan0 : CoreContactPlan) (c : CoreContact) : Prop :=
  In c (keys (contacts plan0)).

Definition kept (plan0 : CoreContactPlan) (links0 : list Link) (s : Sched)
  : Prop :=
  keys (contacts (cp s)) = keys (contacts plan0)
  /\ Forall2 (tuned plan0) links0 (links s).

(** *** Further vocabulary: the revised statements *)


Definition is_call (e : Event) : bool :=
  match e with
  | EditLink _ _ => true
  | _ => false
  end.

(** The number of controller calls in a trace. *)
Definition calls (evs : list Event) : nat :=
  List.length (filter is_call evs).

(** What became of every controller call of the trace [ev] of a piece of
    the loop that began when the controller had served [n] calls and that
    left control at [r]: a call that raised is the last event, and
    control is left by its [RpcError]; a call that returned, whatever its
    result flag, is followed by an assignment. *)
Definition calls_answered (n : nat) (ev : list Event) (r : Control) : Prop :=
  forall ev0 sess l rest,
    ev = ev0 ++ EditLink sess l :: rest ->
    match edit_link (n + calls ev0) sess l with
    | Failed => rest = [] /\ exists s', r = Crash RpcError s'
    | Replied _ => exists c st rest', rest = Assign c st :: rest'
    end.

(** The pass whose events are [evs] has dealt with the contact [c]: it
    has announced it with [note] and then, when the contact has a link,
    called the controller with [sess] for a link [l] between the
    contact's nodes that [fits], and assigned the state [new]; when it has
    none, logged the warning. *)
Definition attempted (sess : Z) (note : Event) (c : CoreContact)
           (new : ContactState) (linked : bool) (fits : Link -> Prop)
           (evs : list Event) : Prop :=
  exists before after,
    if linked
    then exists l,
        evs = before ++ [note; EditLink sess l; Assign c new] ++ after
        /\ link_matches l (fst (nodes c)) (snd (nodes c)) = true
        /\ fits l
    else evs = before
                 ++ [note; PrintWarning (fst (nodes c)) (snd (nodes c))]
                 ++ after.


End Vocabulary.

(* ================================================================== *)
(** * Part II: properties                                              *)
(* ================================================================== *)

Unset Implicit Arguments.

Section Dictionary.
Context `{PyBuiltins}.

Lemma same_obj_refl (k : CoreContact) : same_obj k k = true.
Proof. apply Nat.eqb_refl. Qed.

Lemma same_obj_sym (a b : CoreContact) : same_obj a b = same_obj b a.
Proof. apply Nat.eqb_sym. Qed.

Lemma same_obj_oid (a b : CoreContact) :
  same_obj a b = true <-> oid a = oid b.
Proof. apply Nat.eqb_eq. Qed.

Lemma dict_get_same_obj (a b : CoreContact) (d : Dict) :
  same_obj a b = true -> dict_get a d = dict_get b d.
Proof.
  intros E. apply same_obj_oid in E.
  induction d as [|[k v] d IH]; simpl; [reflexivity|].
  unfold same_obj. rewrite E, IH. reflexivity.
Qed.

Lemma dict_get_set_same (k : CoreContact) v (d : Dict) :
  dict_get k (dict_set k v d) = Some v.
Proof.
  induction d as [|[k' v'] d IH]; simpl.
  - now rewrite same_obj_refl.
  - destruct (same_obj k k') eqn:E; simpl; rewrite E; auto.
Qed.

Lemma dict_get_set_other (k k' : CoreContact) v (d : Dict) :
  same_obj k k' = false -> dict_get k' (dict_set k v d) = dict_get k' d.
Proof.
  intros N. induction d as [|[k0 v0] d IH]; simpl.
  - rewrite same_obj_sym, N. reflexivity.
  - destruct (same_obj k k0) eqn:E; simpl.
    + destruct (same_obj k' k0) eqn:E'; [|reflexivity].
      apply same_obj_oid in E, E'. 
      assert (same_obj k k' = true) by (apply same_obj_oid; congruence).
      congruence.
    + now rewrite IH.
Qed.

Lemma dict_get_set (k k' : CoreContact) v (d : Dict) :
  dict_get k' (dict_set k v d)
  = if same_obj k k' then Some v else dict_get k' d.
Proof.
  destruct (same_obj k k') eqn:E.
  - rewrite (dict_get_same_obj k' k) by now rewrite same_obj_sym.
    apply dict_get_set_same.
  - now apply dict_get_set_other.
Qed.

Lemma dict_get_in (k : CoreContact) v (d : Dict) :
  uniq d -> In (k, v) d -> dict_get k d = Some v.
Proof.
  unfold uniq, keys. induction d as [|[k0 v0] d IH]; simpl; [tauto|].
  intros U [E|I].
  - inversion E; subst. now rewrite same_obj_refl.
  - inversion U as [|? ? N U']; subst.
    destruct (same_obj k k0) eqn:E; [|auto].
    exfalso. apply N. apply same_obj_oid in E. rewrite <- E.
    apply in_map_iff. exists k. split; [reflexivity|].
    apply in_map_iff. now exists (k, v).
Qed.

Lemma dict_get_some_in (k : CoreContact) v (d : Dict) :
  dict_get k d = Some v -> exists k', same_obj k k' = true /\ In (k', v) d.
Proof.
  induction d as [|[k0 v0] d IH]; simpl; [discriminate|].
  destruct (same_obj k k0) eqn:E.
  - intros [= <-]. exists k0. auto.
  - intros G. destruct (IH G) as (k' & ? & ?). exists k'. auto.
Qed.

Lemma uniq_same_key (a b : CoreContact) va vb (d : Dict) :
  uniq d -> In (a, va) d -> In (b, vb) d -> oid a = oid b ->
  a = b /\ va = vb.
Proof.
  unfold uniq, keys. induction d as [|[k0 v0] d IH]; simpl; [tauto|].
  intros U Ia Ib E. inversion U as [|? ? N U']; subst.
  assert (M : forall x v, In (x, v) d -> In (oid x) (map oid (map fst d))).
  { intros x v I. apply in_map_iff. exists x. split; [reflexivity|].
    apply in_map_iff. now exists (x, v). }
  destruct Ia as [Ea|Ia], Ib as [Eb|Ib].
  - inversion Ea; inversion Eb; subst. auto.
  - inversion Ea; subst. exfalso. apply N. rewrite E. eapply M; eauto.
  - inversion Eb; subst. exfalso. apply N. rewrite <- E. eapply M; eauto.
  - auto.
Qed.

Lemma oids_dict_set (k : CoreContact) v (d : Dict) :
  map oid (keys (dict_set k v d))
  = if existsb (same_obj k) (keys d) then map oid (keys d)
    else map oid (keys d) ++ [oid k].
Proof.
  unfold keys. induction d as [|[k0 v0] d IH]; simpl; [reflexivity|].
  destruct (same_obj k k0) eqn:E; simpl; [reflexivity|].
  rewrite IH. now destruct (existsb _ _).
Qed.

Lemma uniq_dict_set (k : CoreContact) v (d : Dict) :
  uniq d -> uniq (dict_set k v d).
Proof.
  unfold uniq. intros U. rewrite oids_dict_set.
  destruct (existsb (same_obj k) (keys d)) eqn:E; [assumption|].
  apply NoDup_app; [assumption|repeat constructor; simpl; tauto|].
  intros x I [<-|[]].
  apply in_map_iff in I as (k' & Ek & Ik).
  assert (existsb (same_obj k) (keys d) = true); [|congruence].
  apply existsb_exists. exists k'. split; [assumption|].
  now apply same_obj_oid.
Qed.

Lemma keys_dict_set_present (k : CoreContact) v (d : Dict) :
  dict_get k d <> None -> keys (dict_set k v d) = keys d.
Proof.
  unfold keys. induction d as [|[k0 v0] d IH]; simpl; [congruence|].
  destruct (same_obj k k0) eqn:E; simpl; [reflexivity|].
  intros G. now rewrite IH.
Qed.

End Dictionary.

Section PlanQueries.
Context `{PyBuiltins}.

Lemma ContactState_eqb_eq (a b : ContactState) :
  ContactState_eqb a b = true <-> a = b.
Proof. destruct a, b; simpl; split; congruence. Qed.

Lemma keys_filter_fst (p : CoreContact -> bool) (d : Dict) :
  keys (filter (fun cs => p (fst cs)) d) = filter p (keys d).
Proof.
  unfold keys. induction d as [|[c s] d IH]; simpl; [reflexivity|].
  destruct (p c); simpl; now rewrite IH.
Qed.

Lemma filter_comm {A} (p q : A -> bool) (l : list A) :
  filter p (filter q l) = filter q (filter p l).
Proof.
  induction l as [|x l IH]; simpl; [reflexivity|].
  destruct (p x) eqn:P, (q x) eqn:Q; simpl; rewrite ?P, ?Q, IH; reflexivity.
Qed.

Lemma filter_none {A} (p : A -> bool) (l : list A) :
  (forall x, In x l -> p x = false) -> filter p l = [].
Proof.
  induction l as [|x l IH]; simpl; [reflexivity|].
  intros F. rewrite (F x) by auto. apply IH. auto.
Qed.

(** Under [uniq], the entries of one object are that object's entry. *)
Lemma filter_same_obj (c : CoreContact) v (d : Dict) :
  uniq d -> In (c, v) d ->
  filter (fun cs => same_obj c (fst cs)) d = [(c, v)].
Proof.
  unfold uniq, keys. induction d as [|[k0 v0] d IH]; simpl; [tauto|].
  intros U I. inversion U as [|? ? N U']; subst.
  assert (M : forall x w, In (x, w) d -> In (oid x) (map oid (map fst d))).
  { intros x w J. apply in_map_iff. exists x. split; [reflexivity|].
    apply in_map_iff. now exists (x, w). }
  destruct I as [E|I].
  - inversion E; subst. rewrite same_obj_refl. f_equal.
    apply filter_none. intros [x w] J. simpl.
    destruct (same_obj c x) eqn:S; [|reflexivity].
    exfalso. apply N. apply same_obj_oid in S. rewrite S. eapply M; eauto.
  - destruct (same_obj c k0) eqn:S.
    + exfalso. apply N. apply same_obj_oid in S. rewrite <- S. eapply M; eauto.
    + auto.
Qed.

Lemma at_time_in (cp : CoreContactPlan) (t : Z) c s :
  In (c, s) (at_time cp t)
  <-> In (c, s) (contacts cp) /\ start_of c <= t <= end_of c.
Proof.
  unfold at_time. rewrite filter_In. simpl.
  rewrite andb_true_iff, Z.leb_le, Z.geb_le. tauto.
Qed.

Lemma need_activation_in (cp : CoreContactPlan) (t : Z) c s :
  In (c, s) (need_activation cp t)
  <-> In (c, s) (contacts cp) /\ start_of c <= t <= end_of c /\ s = PRE.
Proof.
  unfold need_activation. rewrite filter_In, at_time_in. simpl.
  unfold is_PRE. rewrite ContactState_eqb_eq. tauto.
Qed.

Lemma need_deactivation_in (cp : CoreContactPlan) (t : Z) c s :
  In (c, s) (need_deactivation cp t)
  <-> In (c, s) (contacts cp) /\ end_of c <= t /\ s = LIVE.
Proof.
  unfold need_deactivation. rewrite filter_In. simpl.
  unfold is_LIVE. rewrite andb_true_iff, Z.geb_le, ContactState_eqb_eq.
  tauto.
Qed.

(** C8: [at(t)] returns exactly the contacts, each with its state, whose
    [timespan] contains [t] (both ends included), and which contacts
    these are does not depend on the states the plan holds. *)
Theorem at_returns_contacts_whose_timespan_contains_t
        (cp : CoreContactPlan) (t : Z) :
  (forall c s,
      In (c, s) (at_time cp t)
      <-> In (c, s) (contacts cp)
          /\ fst (timespan c) <= t <= snd (timespan c))
  /\ (forall cp' : CoreContactPlan,
         keys (contacts cp') = keys (contacts cp) ->
         keys (at_time cp' t) = keys (at_time cp t)).
Proof.
  split.
  - intros c s. apply at_time_in.
  - intros cp' K. unfold at_time.
    rewrite (keys_filter_fst
               (fun c => (start_of c <=? t) && (end_of c >=? t))).
    rewrite (keys_filter_fst
               (fun c => (start_of c <=? t) && (end_of c >=? t))).
    now rewrite K.
Qed.

(** C9: [need_deactivation(t)] returns exactly the contacts whose end is
    at or before [t] and whose state is [LIVE].  A [LIVE] contact whose
    end has been reached, on time or late, is therefore offered, and
    offered once; as soon as its state is [POST] it is not offered again
    at any time. *)
Theorem need_deactivation_offers_live_ended_contacts_once
        (cp : CoreContactPlan) (t : Z) :
  (forall c s,
      In (c, s) (need_deactivation cp t)
      <-> In (c, s) (contacts cp) /\ snd (timespan c) <= t /\ s = LIVE)
  /\ (forall c,
         uniq (contacts cp) -> In (c, LIVE) (contacts cp) ->
         snd (timespan c) <= t ->
         occurrences c (need_deactivation cp t) = 1%nat
         /\ forall t',
             occurrences c
               (need_deactivation
                  (mkPlan (loop cp) (dict_set c POST (contacts cp))) t')
             = 0%nat).
Proof.
  split.
  - intros c s. apply need_deactivation_in.
  - intros c U I E. split.
    + unfold occurrences, need_deactivation.
      rewrite filter_comm, (filter_same_obj c LIVE _ U I). simpl.
      fold (end_of c). replace (t >=? end_of c) with true; [reflexivity|].
      symmetry. apply Z.geb_le. exact E.
    + intros t'. unfold occurrences.
      rewrite filter_none; [reflexivity|].
      intros [k v] J. simpl.
      destruct (same_obj c k) eqn:S; [exfalso|reflexivity].
      apply need_deactivation_in in J as (J & _ & ->). simpl in J.
      apply dict_get_in in J; [|now apply uniq_dict_set].
      rewrite <- (dict_get_same_obj c k) in J by assumption.
      rewrite dict_get_set_same in J. discriminate.
Qed.

End PlanQueries.

Section StringFacts.
Import PyStr.

Lemma flush_empty : flush EmptyString = [].
Proof. reflexivity. Qed.








End StringFacts.

Section Loading.
Context `{PyBuiltins}.

Lemma bind_ok {A B} (r : Res A) (k : A -> Res B) (b : B) :
  bind r k = Ok b -> exists a, r = Ok a /\ k a = Ok b.
Proof. destruct r; simpl; [eauto|discriminate]. Qed.

Lemma from_string_oid fresh line c :
  from_string fresh line = Ok c -> oid c = fresh.
Proof.
  unfold from_string. destruct (negb _); [discriminate|].
  intros E.
  repeat (apply bind_ok in E; destruct E as (? & _ & E)).
  now inversion E.
Qed.



Lemma dict_set_fresh (k : CoreContact) v (d : Dict) :
  existsb (same_obj k) (keys d) = false -> dict_set k v d = d ++ [(k, v)].
Proof.
  unfold keys. induction d as [|[k0 v0] d IH]; simpl; [reflexivity|].
  intros E. apply orb_false_iff in E as [E1 E2].
  rewrite E1. now rewrite IH.
Qed.

Lemma fresh_oid_absent (k : CoreContact) (d : Dict) n :
  map oid (keys d) = seq 0 n -> oid k = n ->
  existsb (same_obj k) (keys d) = false.
Proof.
  intros M E. destruct (existsb _ _) eqn:X; [exfalso|reflexivity].
  apply existsb_exists in X as (k' & I & S).
  apply same_obj_oid in S.
  assert (J : In (oid k') (seq 0 n)).
  { rewrite <- M. now apply in_map. }
  apply in_seq in J. lia.
Qed.

Lemma load_line_ok st line st' :
  load_line st line = Ok st' -> loading_ok st ->
  loading_ok st'
  /\ ld_created st'
     = (ld_created st + if is_contact_directive line then 1 else 0)%nat.
Proof.
  unfold load_line, is_contact_directive. intros E [M P].
  destruct (Nat.eqb (List.length _) 3 && _) eqn:B3.
  - apply andb_true_iff in B3 as [L3 _]. apply Nat.eqb_eq in L3.
    rewrite L3. simpl.
    assert (ld_created st' = ld_created st /\ ld_contacts st' = ld_contacts st)
      as [C D].
    { destruct (String.eqb _ "loop"); [destruct (String.eqb _ "1")|];
        inversion E; auto. }
    unfold loading_ok. rewrite C, D. split; [auto|lia].
  - destruct (Nat.ltb 4 _ && _) eqn:B4; simpl.
    + destruct (String.eqb _ "contact") eqn:B1.
      * apply bind_ok in E as (c & F & E).
        apply bind_ok in E as (u & _ & E). inversion E; subst; clear E.
        apply from_string_oid in F. simpl.
        pose proof (fresh_oid_absent c _ _ M F) as A.
        split; [split; simpl|simpl; lia].
        -- rewrite oids_dict_set, A, M, F.
           change (0%nat :: seq 1 (ld_created st))
             with (seq 0 (S (ld_created st))).
           rewrite seq_S. reflexivity.
        -- rewrite (dict_set_fresh _ _ _ A). apply Forall_app. split; auto.
      * inversion E; subst. split; [split; auto|lia].
    + inversion E; subst. split; [split; auto|lia].
Qed.

Lemma load_lines_ok lines st st' :
  load_lines st lines = Ok st' -> loading_ok st ->
  loading_ok st'
  /\ ld_created st'
     = (ld_created st + List.length (filter is_contact_directive lines))%nat.
Proof.
  revert st. induction lines as [|l lines IH]; intros st E O; simpl in *.
  - inversion E; subst. split; [assumption|lia].
  - apply bind_ok in E as (st1 & E1 & E).
    destruct (load_line_ok _ _ _ E1 O) as [O1 C1].
    destruct (IH _ E O1) as [O' C'].
    split; [assumption|]. rewrite C', C1.
    destruct (is_contact_directive l); simpl; lia.
Qed.


Lemma load_uniq lines plan :
  load lines = Ok plan ->
  uniq (contacts plan)
  /\ List.length (contacts plan)
     = List.length (filter is_contact_directive lines)
  /\ Forall (fun cs => snd cs = PRE) (contacts plan).
Proof.
  unfold load. intros E. apply bind_ok in E as (st & E & P).
  inversion P; subst; clear P. simpl.
  destruct (load_lines_ok _ _ _ E) as [[M F] C].
  { split; [reflexivity|constructor]. }
  simpl in C. split; [|split; [|assumption]].
  - unfold uniq. rewrite M. apply seq_NoDup.
  - rewrite <- C. apply (f_equal (@List.length nat)) in M.
    unfold keys in M. now rewrite !length_map, length_seq in M.
Qed.

(** C2, as the code has it: a contact is a key of the [contacts] mapping
    by object identity, not by its field values.  Looking up the object
    that was inserted yields the state inserted; inserting under one
    object leaves every other object's entry as it was, whatever the
    field values; and a loaded plan has one entry, in state [PRE], for
    each contact directive of the file. *)
Theorem contacts_are_keyed_by_object_identity
        (lines : list string) (plan : CoreContactPlan) :
  load lines = Ok plan ->
  (forall (a : CoreContact) v (d : Dict),
      dict_get a (dict_set a v d) = Some v)
  /\ (forall (a b : CoreContact) v (d : Dict),
         oid a <> oid b -> dict_get b (dict_set a v d) = dict_get b d)
  /\ uniq (contacts plan)
  /\ List.length (contacts plan)
     = List.length (filter is_contact_directive lines)
  /\ (forall c s, In (c, s) (contacts plan) ->
                  s = PRE /\ dict_get c (contacts plan) = Some PRE).
Proof.
  intros E. destruct (load_uniq _ _ E) as (U & L & P).
  split; [intros; apply dict_get_set_same|].
  split.
  { intros a b v d N. apply dict_get_set_other.
    destruct (same_obj a b) eqn:S; [|reflexivity].
    apply same_obj_oid in S. contradiction. }
  split; [exact U|]. split; [exact L|].
  intros c s I. rewrite Forall_forall in P.
  pose proof (P _ I) as Q. simpl in Q. subst s.
  split; [reflexivity|]. now apply dict_get_in.
Qed.


Lemma CoreContact_str_cases (c : CoreContact) :
  printable c
  \/ (~ printable c /\ CoreContact_str c = Raise OverflowError_float).
Proof.
  unfold printable, CoreContact_str.
  destruct (fits_float (delay c) && fits_float (jitter c));
    [now left|right]. split; [discriminate|reflexivity].
Qed.



End Loading.

Section Links.
Context `{PyBuiltins} `{!CoreGrpcClient}.

Lemma find_link_none (links : list Link) n1 n2 :
  find_link links n1 n2 = None
  <-> existsb (fun p => ids_match p n1 n2) (node_ids links) = false.
Proof.
  induction links as [|l links IH]; simpl; [tauto|].
  unfold link_matches, ids_match at 1. simpl.
  destruct (_ || _); simpl.
  - split; discriminate.
  - rewrite <- IH. destruct (find_link links n1 n2) as [[i l']|];
      split; congruence.
Qed.

Lemma has_link_node_ids (links links' : list Link) (c : CoreContact) :
  node_ids links' = node_ids links -> has_link links' c = has_link links c.
Proof.
  intros E. unfold has_link.
  pose proof (find_link_none links (fst (nodes c)) (snd (nodes c))) as A.
  pose proof (find_link_none links' (fst (nodes c)) (snd (nodes c))) as B.
  rewrite E in B. rewrite <- A in B.
  destruct (find_link links _ _), (find_link links' _ _); try reflexivity.
  - discriminate (proj1 B eq_refl).
  - discriminate (proj2 B eq_refl).
Qed.

Lemma find_link_some (links : list Link) n1 n2 i l :
  find_link links n1 n2 = Some (i, l) ->
  link_matches l n1 n2 = true
  /\ In (node1_id l, node2_id l) (node_ids links)
  /\ forall o,
      node_ids (store i (mkLink (node1_id l) (node2_id l) o) links)
      = node_ids links.
Proof.
  revert i. induction links as [|l0 links IH]; intros i; simpl;
    [discriminate|].
  destruct (link_matches l0 n1 n2) eqn:M.
  - intros [= <- <-]. simpl. auto.
  - destruct (find_link links n1 n2) as [[j l']|]; [|discriminate].
    intros [= <- <-]. destruct (IH j eq_refl) as (A & B & C).
    simpl. repeat split; auto. intros o. now rewrite C.
Qed.

(** A contact without a link is matched by no link of the session. *)
Lemma no_link_no_match (links : list Link) (c : CoreContact) l :
  has_link links c = false ->
  In (node1_id l, node2_id l) (node_ids links) ->
  link_matches l (fst (nodes c)) (snd (nodes c)) = false.
Proof.
  unfold has_link. intros N I.
  destruct (find_link links _ _) eqn:F; [discriminate|].
  apply find_link_none in F.
  destruct (link_matches l _ _) eqn:M; [exfalso|reflexivity].
  assert (existsb (fun p => ids_match p (fst (nodes c)) (snd (nodes c)))
                  (node_ids links) = true); [|congruence].
  apply existsb_exists. eexists. split; [exact I|]. exact M.
Qed.

End Links.

Section Bodies.
Context `{PyBuiltins} `{!CoreGrpcClient}.

Lemma apply_link_outcome sess s c i l f new ev r note :
  printable c ->
  find_link (links s) (fst (nodes c)) (snd (nodes c)) = Some (i, l) ->
  apply_link sess s c (i, l) f new = (ev, r) ->
  body_outcome note new s c (note (cur_time s) c :: ev) r.
Proof.
  intros Pc F A. right. split; [exact Pc|]. right. unfold apply_link in A.
  destruct (find_link_some _ _ _ _ _ F) as (M & I & N).
  set (link := mkLink (node1_id l) (node2_id l) (f (options l))) in *.
  exists sess, link,
    (mkSched (cp s) (cur_time s) (store i link (links s)) (S (rpc_calls s))).
  unfold has_link. rewrite F. simpl.
  repeat (split; [solve [auto | apply N]|]).
  destruct (edit_link (rpc_calls s) sess link) eqn:E;
    inversion A; subst; [right|left]; eauto.
Qed.

Lemma activate_outcome sess s item ev r :
  activate sess s item = (ev, r) ->
  body_outcome PrintActivating LIVE s (fst item) ev r.
Proof.
  unfold activate. intros A.
  destruct (CoreContact_str_cases (fst item)) as [Pc|[Np Pr]].
  2:{ rewrite Pr in A. inversion A; subst. left. auto. }
  pose proof Pc as Pr. unfold printable in Pr. rewrite Pr in A.
  destruct (find_link _ _ _) as [[i l]|] eqn:F.
  - destruct (apply_link _ _ _ _ _ _) as [ev' r'] eqn:P.
    inversion A; subst. eapply apply_link_outcome; eauto.
  - inversion A; subst. right. split; [exact Pc|]. left.
    unfold has_link. rewrite F. auto.
Qed.

Lemma deactivate_outcome sess s item ev r :
  deactivate sess s item = (ev, r) ->
  body_outcome PrintDeactivating POST s (fst item) ev r.
Proof.
  unfold deactivate. intros A.
  destruct (CoreContact_str_cases (fst item)) as [Pc|[Np Pr]].
  2:{ rewrite Pr in A. inversion A; subst. left. auto. }
  pose proof Pc as Pr. unfold printable in Pr. rewrite Pr in A.
  destruct (find_link _ _ _) as [[i l]|] eqn:F.
  - destruct (apply_link _ _ _ _ _ _) as [ev' r'] eqn:P.
    inversion A; subst. eapply apply_link_outcome; eauto.
  - inversion A; subst. right. split; [exact Pc|]. left.
    unfold has_link. rewrite F. auto.
Qed.

End Bodies.

(** ** The two [for] loops of an iteration, treated as one *)

Section Passes.
Context `{PyBuiltins} `{!CoreGrpcClient}.

Variable note : Z -> CoreContact -> Event.
Variables old new : ContactState.
Variable body : Sched -> CoreContact * ContactState -> list Event * Control.

Hypothesis body_does :
  forall s item ev r,
    body s item = (ev, r) -> body_outcome note new s (fst item) ev r.
Hypothesis old_to_new : lifecycle old new = Some new.
Hypothesis note_silent :
  forall t c k st rest, replay k st (note t c :: rest) = replay k st rest.

Lemma for_each_cons x rest s ev r :
  for_each body (x :: rest) s = (ev, r) ->
  exists ev1 r1,
    body s x = (ev1, r1)
    /\ ((exists s1 ev2, r1 = Go s1 /\ for_each body rest s1 = (ev2, r)
                        /\ ev = ev1 ++ ev2)
        \/ ((forall s1, r1 <> Go s1) /\ ev = ev1 /\ r = r1)).
Proof.
  simpl. destruct (body s x) as [ev1 r1] eqn:E. intros A.
  exists ev1, r1. split; [reflexivity|].
  destruct r1 as [s1|s1|e s1].
  - left. destruct (for_each body rest s1) as [ev2 r2] eqn:R.
    inversion A; subst. exists s1, ev2. auto.
  - right. inversion A; subst. repeat split; congruence.
  - right. inversion A; subst. repeat split; congruence.
Qed.

(** What a pass leaves alone. *)
Lemma pass_frame items s ev r :
  (forall it, In it items ->
              dict_get (fst it) (contacts (cp s)) <> None) ->
  for_each body items s = (ev, r) ->
  cur_time (state_of r) = cur_time s
  /\ loop (cp (state_of r)) = loop (cp s)
  /\ node_ids (links (state_of r)) = node_ids (links s)
  /\ keys (contacts (cp (state_of r))) = keys (contacts (cp s)).
Proof.
  revert s ev r. induction items as [|x items IH]; intros s ev r P A.
  - inversion A; subst. simpl. auto.
  - apply for_each_cons in A as (ev1 & r1 & Bx & A).
    apply body_does in Bx.
    destruct Bx as [(_ & -> & ->)|(_ & Bx)].
    { destruct A as [(s1 & ev2 & [=] & _)|(_ & -> & ->)]. simpl. auto. }
    destruct Bx as [(N & -> & ->)
                   |(sess & link & s' & L & M & I & Ecp & Et & En & Ec & O)].
    + destruct A as [(s1 & ev2 & [= <-] & A & ->)|(A & _)];
        [|exfalso; eapply A; reflexivity].
      eapply IH; [|exact A]. intros; apply P; now right.
    + destruct O as [(F & -> & ->)|(R & -> & ->)].
      * destruct A as [(s1 & ev2 & [=] & _)|(_ & -> & ->)].
        simpl. rewrite Ecp. auto.
      * destruct A as [(s1 & ev2 & [= <-] & A & ->)|(A & _)];
          [|exfalso; eapply A; reflexivity].
        apply IH in A.
        -- destruct A as (A1 & A2 & A3 & A4). simpl in *.
           rewrite A1, A2, A3, A4.
           repeat split; auto.
           apply keys_dict_set_present. apply P. now left.
        -- intros it J. simpl. rewrite dict_get_set.
           destruct (same_obj _ _); [discriminate|]. apply P. now right.
Qed.

(** What a pass can have done to the entry of an object. *)
Lemma pass_state items s ev r k :
  for_each body items s = (ev, r) ->
  dict_get k (contacts (cp (state_of r))) = dict_get k (contacts (cp s))
  \/ (dict_get k (contacts (cp (state_of r))) = Some new
      /\ exists it, In it items /\ same_obj (fst it) k = true
                    /\ has_link (links s) (fst it) = true).
Proof.
  revert s ev r. induction items as [|x items IH]; intros s ev r A.
  - inversion A; subst. now left.
  - apply for_each_cons in A as (ev1 & r1 & Bx & A).
    apply body_does in Bx.
    destruct Bx as [(_ & -> & ->)|(_ & Bx)].
    { destruct A as [(s1 & ev2 & [=] & _)|(_ & -> & ->)]. now left. }
    destruct Bx as [(N & -> & ->)
                   |(sess & link & s' & L & M & I & Ecp & Et & En & Ec & O)].
    + destruct A as [(s1 & ev2 & [= <-] & A & ->)|(A & _)];
        [|exfalso; eapply A; reflexivity].
      destruct (IH _ _ _ A) as [E|(E & it & J & S & Li)]; [now left|].
      right. split; [assumption|]. exists it. simpl. auto.
    + destruct O as [(F & -> & ->)|(R & -> & ->)].
      * destruct A as [(s1 & ev2 & [=] & _)|(_ & -> & ->)].
        left. simpl. now rewrite Ecp.
      * destruct A as [(s1 & ev2 & [= <-] & A & ->)|(A & _)];
          [|exfalso; eapply A; reflexivity].
        destruct (IH _ _ _ A) as [E|(E & it & J & S & Li)].
        -- simpl in E. rewrite dict_get_set in E.
           destruct (same_obj (fst x) k) eqn:S.
           ++ right. split; [assumption|]. exists x. simpl. auto.
           ++ now left.
        -- right. split; [assumption|]. exists it. simpl in *.
           repeat split; auto.
           rewrite <- Li. symmetry. apply has_link_node_ids. assumption.
Qed.

(** A pass that runs to its end has moved every item with a link. *)
Lemma pass_done items s ev s' it :
  for_each body items s = (ev, Go s') ->
  In it items -> has_link (links s) (fst it) = true ->
  dict_get (fst it) (contacts (cp s')) = Some new.
Proof.
  revert s ev. induction items as [|x items IH]; intros s ev A J L;
    [destruct J|].
  apply for_each_cons in A as (ev1 & r1 & Bx & A).
  apply body_does in Bx.
  destruct Bx as [(_ & -> & ->)|(_ & Bx)].
  { destruct A as [(s2 & ev2 & [=] & _)|(_ & _ & [=])]. }
  destruct Bx as [(N & -> & ->)
                 |(sess & link & s1 & L1 & M & I & Ecp & Et & En & Ec & O)].
  - destruct A as [(s2 & ev2 & [= <-] & A & ->)|(A & _)];
      [|exfalso; eapply A; reflexivity].
    destruct J as [->|J]; [congruence|]. eapply IH; eauto.
  - destruct O as [(F & -> & ->)|(R & -> & ->)].
    + destruct A as [(s2 & ev2 & [=] & _)|(_ & _ & [=])].
    + destruct A as [(s2 & ev2 & [= <-] & A & ->)|(A & _)];
        [|exfalso; eapply A; reflexivity].
      destruct J as [->|J].
      * destruct (pass_state _ _ _ _ (fst it) A) as [E|[E _]];
          simpl in E; [|assumption].
        rewrite E. apply dict_get_set_same.
      * eapply IH; eauto. simpl.
        rewrite <- L. apply has_link_node_ids. assumption.
Qed.


(** Every assignment of a pass is the transition [old] to [new], and the
    dictionary ends up holding what the assignments say. *)
Lemma pass_replay items s ev r k st0 :
  NoDup (map oid (keys items)) ->
  (forall it, In it items ->
              dict_get (fst it) (contacts (cp s)) = Some old) ->
  for_each body items s = (ev, r) ->
  dict_get k (contacts (cp s)) = Some st0 ->
  replay k st0 ev = dict_get k (contacts (cp (state_of r))).
Proof.
  revert s ev r st0.
  induction items as [|x items IH]; intros s ev r st0 U P A G.
  - inversion A; subst. simpl. now rewrite G.
  - simpl in U. inversion U as [|? ? Nx U']; subst.
    apply for_each_cons in A as (ev1 & r1 & Bx & A).
    apply body_does in Bx.
    destruct Bx as [(_ & -> & ->)|(_ & Bx)].
    { destruct A as [(s1 & ev2 & [=] & _)|(_ & -> & ->)].
      simpl. now rewrite G. }
    destruct Bx as [(N & -> & ->)
                   |(sess & link & s' & L & M & I & Ecp & Et & En & Ec & O)].
    + destruct A as [(s1 & ev2 & [= <-] & A & ->)|(A & _)];
        [|exfalso; eapply A; reflexivity].
      cbn [app]. rewrite note_silent. simpl.
      apply (IH s ev2 r st0); auto. intros; apply P; now right.
    + destruct O as [(F & -> & ->)|(R & -> & ->)].
      * destruct A as [(s1 & ev2 & [=] & _)|(_ & -> & ->)].
        cbn [app state_of]. rewrite note_silent. simpl. now rewrite Ecp, G.
      * destruct A as [(s1 & ev2 & [= <-] & A & ->)|(A & _)];
          [|exfalso; eapply A; reflexivity].
        cbn [app]. rewrite note_silent. simpl.
        assert (P' : forall it, In it items ->
                       dict_get (fst it)
                         (dict_set (fst x) new (contacts (cp s))) = Some old).
        { intros it J. rewrite dict_get_set.
          destruct (same_obj (fst x) (fst it)) eqn:S.
          - exfalso. apply Nx. apply same_obj_oid in S. rewrite S.
            apply in_map. unfold keys. now apply in_map.
          - apply P. now right. }
        destruct (same_obj (fst x) k) eqn:S.
        -- assert (st0 = old) as ->.
           { rewrite <- (dict_get_same_obj (fst x) k) in G by assumption.
             rewrite P in G by now left. congruence. }
           rewrite old_to_new.
           eapply IH; [exact U'| |exact A|]; simpl; [exact P'|].
           rewrite dict_get_set, S. reflexivity.
        -- eapply IH; [exact U'| |exact A|]; simpl; [exact P'|].
           rewrite dict_get_set, S. assumption.
Qed.

Variable phase : Event -> bool.
Hypothesis phase_note : forall t c, phase (note t c) = true.
Hypothesis phase_warning : forall a b, phase (PrintWarning a b) = true.
Hypothesis phase_edit : forall a l, phase (EditLink a l) = true.
Hypothesis phase_assign : forall c, phase (Assign c new) = true.
Hypothesis note_no_call : forall t c sess l, note t c <> EditLink sess l.

(** Every event of a pass belongs to its phase. *)
Lemma pass_phase items s ev r :
  for_each body items s = (ev, r) -> Forall (fun e => phase e = true) ev.
Proof.
  revert s ev r. induction items as [|x items IH]; intros s ev r A.
  - inversion A; subst. constructor.
  - apply for_each_cons in A as (ev1 & r1 & Bx & A).
    apply body_does in Bx.
    assert (F1 : Forall (fun e => phase e = true) ev1).
    { destruct Bx as [(_ & _ & ->)
                     |(_ & [(_ & _ & ->)
                           |(? & ? & ? & _ & _ & _ & _ & _ & _ & _ & O)])].
      - constructor.
      - repeat constructor; auto.
      - destruct O as [(_ & _ & ->)|(_ & _ & ->)]; repeat constructor; auto. }
    destruct A as [(s1 & ev2 & -> & A & ->)|(_ & -> & _)]; [|assumption].
    apply Forall_app. split; [assumption|]. eapply IH; eauto.
Qed.

(** Every link handed to the controller is a link of the session. *)
Lemma pass_calls items s ev r sess l :
  for_each body items s = (ev, r) ->
  In (EditLink sess l) ev ->
  In (node1_id l, node2_id l) (node_ids (links s)).
Proof.
  revert s ev r. induction items as [|x items IH]; intros s ev r A J.
  - inversion A; subst. destruct J.
  - apply for_each_cons in A as (ev1 & r1 & Bx & A).
    apply body_does in Bx.
    destruct Bx as [(_ & -> & ->)|(_ & Bx)].
    { destruct A as [(s1 & ev2 & [=] & _)|(_ & -> & _)]. destruct J. }
    destruct Bx as [(N & -> & ->)
                   |(sess1 & l1 & s1 & L1 & M & I & Ecp & Et & En & Ec & O)].
    + destruct A as [(s2 & ev2 & [= <-] & A & ->)|(A & _)];
        [|exfalso; eapply A; reflexivity].
      apply in_app_or in J as [[J|[J|[]]]|J]; try discriminate;
        [now apply note_no_call in J|].
      eapply IH; eassumption.
    + assert (J1 : In (EditLink sess l) ev1 ->
                   In (node1_id l, node2_id l) (node_ids (links s))).
      { destruct O as [(_ & _ & ->)|(_ & _ & ->)]; simpl;
          intros [K|[K|K]]; try (now apply note_no_call in K);
          try (inversion K; subst; assumption);
          destruct K as [K|[]]; discriminate. }
      destruct A as [(s2 & ev2 & -> & A & ->)|(_ & -> & _)]; [|auto].
      apply in_app_or in J as [J|J]; [auto|].
      destruct O as [(_ & [=] & _)|(_ & [= ->] & _)].
      rewrite <- En. exact (IH _ _ _ A J).
Qed.

(** A pass that runs to its end has announced every item, and has
    warned about every item without a link. *)
Lemma pass_notes items s ev s' it :
  for_each body items s = (ev, Go s') ->
  In it items ->
  In (note (cur_time s) (fst it)) ev
  /\ (has_link (links s) (fst it) = false ->
      In (PrintWarning (fst (nodes (fst it))) (snd (nodes (fst it)))) ev).
Proof.
  revert s ev. induction items as [|x items IH]; intros s ev A J;
    [destruct J|].
  apply for_each_cons in A as (ev1 & r1 & Bx & A).
  apply body_does in Bx.
  destruct Bx as [(_ & -> & ->)|(_ & Bx)].
  { destruct A as [(s2 & ev2 & [=] & _)|(_ & _ & [=])]. }
  destruct A as [(s2 & ev2 & -> & A & ->)|(A & _ & <-)];
    [|exfalso; eapply A; reflexivity].
  destruct Bx as [(N & E & ->)
                 |(sess1 & l1 & s1 & L1 & M & I & Ecp & Et & En & Ec & O)].
  - inversion E; subst s2; clear E.
    destruct J as [->|J].
    + split; [simpl; auto|]. intros _. simpl. auto.
    + destruct (IH _ _ A J) as [I1 I2].
      split; [|intros L]; apply in_or_app; right; auto.
  - destruct O as [(_ & [=] & _)|(_ & E & ->)].
    inversion E; subst s2; clear E.
    destruct J as [->|J].
    + split; [simpl; auto|]. congruence.
    + destruct (IH _ _ A J) as [I1 I2]. simpl in I1, I2.
      rewrite Et in I1.
      split; [|intros L]; apply in_or_app; right; auto.
      apply I2. rewrite <- L. apply has_link_node_ids. assumption.
Qed.


End Passes.

(** ** Next-event times *)

Section NextEvent.
Context `{PyBuiltins}.

Lemma fold_min_spec (xs : list Z) (x : Z) :
  fold_left Z.min xs x <= x
  /\ (forall y, In y xs -> fold_left Z.min xs x <= y)
  /\ In (fold_left Z.min xs x) (x :: xs).
Proof.
  revert x. induction xs as [|a xs IH]; intros x; simpl.
  - repeat split; [lia|tauto|auto].
  - destruct (IH (Z.min x a)) as (L & A & I). repeat split.
    + lia.
    + intros y [<-|J]; [lia|auto].
    + destruct I as [I|I]; [|auto].
      destruct (Z.min_spec x a) as [[_ E]|[_ E]];
        rewrite E in I |- *; auto.
Qed.

Lemma min_or_none_some (l : list Z) (m : Z) :
  min_or_none l = Some m -> In m l /\ forall y, In y l -> m <= y.
Proof.
  destruct l as [|x xs]; simpl; [discriminate|]. intros [= <-].
  destruct (fold_min_spec xs x) as (L & A & I). split; [assumption|].
  intros y [<-|J]; auto.
Qed.

Lemma min_or_none_none (l : list Z) : min_or_none l = None -> l = [].
Proof. destruct l; [reflexivity|discriminate]. Qed.

(** The least value of [f] over the entries that satisfy [p]. *)
Lemma min_over_some (f : CoreContact * ContactState -> Z)
      (p : CoreContact * ContactState -> bool) (d : Dict) (m : Z) :
  min_or_none (map f (filter p d)) = Some m ->
  (exists cs, In cs d /\ p cs = true /\ f cs = m)
  /\ forall cs, In cs d -> p cs = true -> m <= f cs.
Proof.
  intros E. apply min_or_none_some in E as [I L]. split.
  - apply in_map_iff in I as (cs & F & J).
    apply filter_In in J as [J P]. eauto.
  - intros cs J P. apply L. apply in_map. apply filter_In. auto.
Qed.

Lemma min_over_none (f : CoreContact * ContactState -> Z)
      (p : CoreContact * ContactState -> bool) (d : Dict) :
  min_or_none (map f (filter p d)) = None ->
  forall cs, In cs d -> p cs = false.
Proof.
  intros E cs I. apply min_or_none_none in E. apply map_eq_nil in E.
  destruct (p cs) eqn:P; [|reflexivity].
  assert (J : In cs (filter p d)) by (apply filter_In; auto).
  rewrite E in J. destruct J.
Qed.

Lemma next_activation_some (cp : CoreContactPlan) (t m : Z) :
  next_activation cp t = Some m ->
  (exists c, In (c, PRE) (contacts cp) /\ start_of c = m /\ t <= m)
  /\ forall c, In (c, PRE) (contacts cp) -> t <= start_of c ->
               m <= start_of c.
Proof.
  unfold next_activation. intros E.
  apply min_over_some in E as [((c & st) & I & P & F) L]. simpl in *.
  apply andb_true_iff in P as [P G]. apply ContactState_eqb_eq in P.
  apply Z.geb_le in G. subst st. split; [exists c; split; [|split]; auto; lia|].
  intros c' I' G'. apply (L (c', PRE)); [assumption|]. simpl.
  apply Z.geb_le. assumption.
Qed.

Lemma next_activation_none (cp : CoreContactPlan) (t : Z) :
  next_activation cp t = None ->
  forall c, In (c, PRE) (contacts cp) -> start_of c < t.
Proof.
  unfold next_activation. intros E c I.
  pose proof (min_over_none _ _ _ E _ I) as P. simpl in P.
  destruct (start_of c >=? t) eqn:G; [discriminate|].
  rewrite Z.geb_leb in G. apply Z.leb_gt in G. lia.
Qed.

Lemma next_deactivation_some (cp : CoreContactPlan) (t m : Z) :
  next_deactivation cp t = Some m ->
  (exists c, In (c, LIVE) (contacts cp) /\ end_of c = m /\ t <= m)
  /\ forall c, In (c, LIVE) (contacts cp) -> t <= end_of c ->
               m <= end_of c.
Proof.
  unfold next_deactivation. intros E.
  apply min_over_some in E as [((c & st) & I & P & F) L]. simpl in *.
  apply andb_true_iff in P as [P G]. apply ContactState_eqb_eq in P.
  apply Z.geb_le in G. subst st. split; [exists c; split; [|split]; auto; lia|].
  intros c' I' G'. apply (L (c', LIVE)); [assumption|]. simpl.
  apply Z.geb_le. assumption.
Qed.

Lemma next_deactivation_none (cp : CoreContactPlan) (t : Z) :
  next_deactivation cp t = None ->
  forall c, In (c, LIVE) (contacts cp) -> end_of c < t.
Proof.
  unfold next_deactivation. intros E c I.
  pose proof (min_over_none _ _ _ E _ I) as P. simpl in P.
  destruct (end_of c >=? t) eqn:G; [discriminate|].
  rewrite Z.geb_leb in G. apply Z.leb_gt in G. lia.
Qed.

End NextEvent.

(** ** One iteration of the loop *)

Section Ticks.
Context `{PyBuiltins} `{!CoreGrpcClient}.

Lemma replay_app k st ev1 ev2 :
  replay k st (ev1 ++ ev2)
  = match replay k st ev1 with
    | Some st' => replay k st' ev2
    | None => None
    end.
Proof.
  revert st. induction ev1 as [|e ev1 IH]; intros st; simpl; [reflexivity|].
  destruct e; auto.
  destruct (same_obj contact k); auto.
  destruct (lifecycle st state); auto.
Qed.

Lemma in_dict_get (c : CoreContact) st (d : Dict) :
  In (c, st) d -> dict_get c d <> None.
Proof.
  induction d as [|[k v] d IH]; simpl; [tauto|].
  intros [E|I].
  - inversion E; subst. rewrite same_obj_refl. discriminate.
  - destruct (same_obj c k); [discriminate|auto].
Qed.

Lemma uniq_filter (p : CoreContact * ContactState -> bool) (d : Dict) :
  uniq d -> NoDup (map oid (keys (filter p d))).
Proof.
  unfold uniq, keys. induction d as [|[k v] d IH]; simpl; [auto|].
  intros U. inversion U as [|? ? N U']; subst.
  destruct (p (k, v)); simpl; [|auto].
  constructor; [|auto]. intros I. apply N.
  apply in_map_iff in I as (c & E & I). rewrite <- E. apply in_map.
  apply in_map_iff in I as (cs & E' & I). apply filter_In in I as [I _].
  apply in_map_iff. eauto.
Qed.

Lemma uniq_need_activation (plan : CoreContactPlan) t :
  uniq (contacts plan) -> NoDup (map oid (keys (need_activation plan t))).
Proof.
  intros U. unfold need_activation, at_time.
  apply uniq_filter. apply uniq_filter. exact U.
Qed.

Lemma uniq_need_deactivation (plan : CoreContactPlan) t :
  uniq (contacts plan) -> NoDup (map oid (keys (need_deactivation plan t))).
Proof. intros U. unfold need_deactivation. now apply uniq_filter. Qed.

Lemma uniq_keys (d d' : Dict) : keys d' = keys d -> uniq d -> uniq d'.
Proof. unfold uniq. now intros ->. Qed.

Lemma in_keys (c : CoreContact) (d : Dict) :
  In c (keys d) <-> exists st, In (c, st) d.
Proof.
  unfold keys. rewrite in_map_iff. split.
  - intros ([c' st] & E & I). simpl in E. subst. eauto.
  - intros (st & I). exists (c, st). auto.
Qed.

Lemma next_event_some (s : Sched) (t : Z) :
  next_event s = Some t ->
  cur_time s <= t
  /\ (forall c, In (c, PRE) (contacts (cp s)) ->
                cur_time s <= start_of c -> t <= start_of c)
  /\ (forall c, In (c, LIVE) (contacts (cp s)) ->
                cur_time s <= end_of c -> t <= end_of c).
Proof.
  unfold next_event, next_event_of.
  destruct (next_activation _ _) as [a|] eqn:A;
    destruct (next_deactivation _ _) as [d|] eqn:D; simpl;
    intros E; inversion E; subst; clear E.
  - apply next_activation_some in A as [(ca & _ & _ & A1) A2].
    apply next_deactivation_some in D as [(cd & _ & _ & D1) D2].
    repeat split.
    + lia.
    + intros c I G. specialize (A2 c I G). lia.
    + intros c I G. specialize (D2 c I G). lia.
  - apply next_activation_some in A as [(ca & _ & _ & A1) A2].
    pose proof (next_deactivation_none _ _ D) as D2.
    repeat split; auto.
    intros c I G. specialize (D2 c I). lia.
  - apply next_deactivation_some in D as [(cd & _ & _ & D1) D2].
    pose proof (next_activation_none _ _ A) as A2.
    repeat split; auto.
    intros c I G. specialize (A2 c I). lia.
Qed.

(** An iteration dies in [time.sleep] when the wait does not convert. *)
Lemma iteration_overflow args s t :
  next_event s = Some t ->
  sleep_fits (t - cur_time s) = false ->
  iteration args s
  = ([PrintNextEvent (cur_time s) t], Crash OverflowError_sleep s).
Proof.
  intros E F. unfold iteration. unfold next_event in E. rewrite E.
  now rewrite F.
Qed.

(** The shape of an iteration that has an event to wait for. *)
Lemma iteration_tick args s t ev r :
  next_event s = Some t ->
  sleep_fits (t - cur_time s) = true ->
  iteration args s = (ev, r) ->
  exists ev1 r1,
    for_each (activate (session args)) (need_activation (cp s) t)
             (mkSched (cp s) t (links s) (rpc_calls s)) = (ev1, r1)
    /\ ((exists s2 ev2,
            r1 = Go s2 /\ cur_time s2 = t
            /\ for_each (deactivate (session args))
                        (need_deactivation (cp s2) t) s2 = (ev2, r)
            /\ ev = [PrintNextEvent (cur_time s) t; Sleep (t - cur_time s)]
                      ++ ev1 ++ ev2)
        \/ ((forall s2, r1 <> Go s2) /\ r = r1
            /\ ev = [PrintNextEvent (cur_time s) t; Sleep (t - cur_time s)]
                      ++ ev1)).
Proof.
  intros E Fit A. pose proof (next_event_some _ _ E) as (G & _ & _).
  unfold iteration in A. unfold next_event in E. rewrite E, Fit in A.
  cbn [negb] in A.
  destruct (t - cur_time s <? 0) eqn:N; [apply Z.ltb_lt in N; lia|].
  cbn [cp cur_time] in A.
  destruct (for_each (activate (session args)) _ _) as [ev1 r1] eqn:P1.
  exists ev1, r1. split; [reflexivity|].
  destruct r1 as [s2|s2|e s2].
  - left.
    assert (T : cur_time s2 = t).
    { eapply (pass_frame PrintActivating LIVE) in P1;
        [|apply activate_outcome|].
      - destruct P1 as (T & _). exact T.
      - intros [c st] I. apply need_activation_in in I as (I & _).
        simpl. now apply in_dict_get in I. }
    rewrite T in A.
    destruct (for_each (deactivate (session args)) _ _) as [ev2 r2] eqn:P2.
    inversion A; subst. exists s2, ev2. auto.
  - right. inversion A; subst. repeat split; congruence.
  - right. inversion A; subst. repeat split; congruence.
Qed.

Lemma iteration_idle args s :
  next_event s = None ->
  iteration args s
  = if loop (cp s) || truthy (loop_arg args)
    then ([PrintLooping; CallReset],
          Go (mkSched (reset (cp s)) 0 (links s) (rpc_calls s)))
    else ([PrintNoMoreEvents], Stop s).
Proof. unfold iteration, next_event. now intros ->. Qed.

(** *** The two passes, instantiated *)

Lemma note_activating_silent t c k st rest :
  replay k st (PrintActivating t c :: rest) = replay k st rest.
Proof. reflexivity. Qed.

Lemma note_deactivating_silent t c k st rest :
  replay k st (PrintDeactivating t c :: rest) = replay k st rest.
Proof. reflexivity. Qed.

Lemma need_activation_pre (plan : CoreContactPlan) t it :
  uniq (contacts plan) -> In it (need_activation plan t) ->
  dict_get (fst it) (contacts plan) = Some PRE.
Proof.
  destruct it as [c st]. intros U I.
  apply need_activation_in in I as (I & _ & ->). now apply dict_get_in.
Qed.

Lemma need_deactivation_live (plan : CoreContactPlan) t it :
  uniq (contacts plan) -> In it (need_deactivation plan t) ->
  dict_get (fst it) (contacts plan) = Some LIVE.
Proof.
  destruct it as [c st]. intros U I.
  apply need_deactivation_in in I as (I & _ & ->). now apply dict_get_in.
Qed.

Lemma need_activation_present (plan : CoreContactPlan) t it :
  In it (need_activation plan t) ->
  dict_get (fst it) (contacts plan) <> None.
Proof.
  destruct it as [c st]. intros I.
  apply need_activation_in in I as (I & _). now apply in_dict_get in I.
Qed.

Lemma need_deactivation_present (plan : CoreContactPlan) t it :
  In it (need_deactivation plan t) ->
  dict_get (fst it) (contacts plan) <> None.
Proof.
  destruct it as [c st]. intros I.
  apply need_deactivation_in in I as (I & _). now apply in_dict_get in I.
Qed.

(** What every iteration with an event preserves, and how its events
    account for the states the dictionary ends up with. *)
Lemma tick_summary args s t ev r :
  uniq (contacts (cp s)) ->
  next_event s = Some t ->
  iteration args s = (ev, r) ->
  (sleep_fits (t - cur_time s) = true -> cur_time (state_of r) = t)
  /\ loop (cp (state_of r)) = loop (cp s)
  /\ node_ids (links (state_of r)) = node_ids (links s)
  /\ keys (contacts (cp (state_of r))) = keys (contacts (cp s))
  /\ forall k st0,
      dict_get k (contacts (cp s)) = Some st0 ->
      replay k st0 ev = dict_get k (contacts (cp (state_of r))).
Proof.
  intros U E A.
  destruct (sleep_fits (t - cur_time s)) eqn:Fit.
  2:{ rewrite (iteration_overflow _ _ _ E Fit) in A. inversion A; subst.
      simpl. repeat split; auto. discriminate. }
  destruct (iteration_tick _ _ _ _ _ E Fit A) as (ev1 & r1 & P1 & C).
  pose proof (pass_frame PrintActivating LIVE _ (activate_outcome _)
                         _ _ _ _ (need_activation_present _ _) P1)
    as (F1 & F2 & F3 & F4).
  assert (R1 : forall k st0,
             dict_get k (contacts (cp s)) = Some st0 ->
             replay k st0 ev1 = dict_get k (contacts (cp (state_of r1)))).
  { intros k st0 G.
    eapply (pass_replay PrintActivating PRE LIVE) in P1;
      [exact P1|apply activate_outcome|reflexivity
      |apply note_activating_silent|now apply uniq_need_activation|
      |exact G].
    intros it I. simpl. now apply need_activation_pre in I. }
  simpl in F1, F2, F3, F4.
  destruct C as [(s2 & ev2 & -> & T & P2 & ->)|(N & -> & ->)].
  - simpl in F1, F2, F3, F4.
    assert (U2 : uniq (contacts (cp s2))) by (eapply uniq_keys; eauto).
    pose proof (pass_frame PrintDeactivating POST _ (deactivate_outcome _)
                           _ _ _ _ (need_deactivation_present _ _) P2)
      as (G1 & G2 & G3 & G4).
    repeat split; try congruence.
    intros k st0 G. cbn [app]. simpl.
    rewrite replay_app, (R1 k st0 G). simpl.
    destruct (dict_get k (contacts (cp s2))) as [st1|] eqn:G'.
    + eapply (pass_replay PrintDeactivating LIVE POST) in P2;
        [exact P2|apply deactivate_outcome|reflexivity
        |apply note_deactivating_silent|now apply uniq_need_deactivation|
        |exact G'].
      intros it I. now apply need_deactivation_live in I.
    + exfalso.
      destruct (pass_state PrintActivating LIVE _ (activate_outcome _)
                           _ _ _ _ k P1) as [X|[X _]];
        simpl in X; congruence.
  - repeat split; auto.
Qed.

End Ticks.

(** Splits on whether the wait of the iteration [A] converts; in the
    second goal the iteration has died in [time.sleep]. *)
Ltac sleep_cases E A Fit :=
  match type of E with
  | next_event ?s = Some ?t =>
      destruct (sleep_fits (t - cur_time s)) eqn:Fit;
      [|rewrite (iteration_overflow _ _ _ E Fit) in A; inversion A; subst]
  end.

(** ** Runs of the loop *)

Section Runs.
Context `{PyBuiltins} `{!CoreGrpcClient}.

Lemma existsb_keys_present (k : CoreContact) (d : Dict) :
  dict_get k d <> None -> existsb (same_obj k) (keys d) = true.
Proof.
  unfold keys. induction d as [|[k0 v0] d IH]; simpl; [congruence|].
  destruct (same_obj k k0); simpl; auto.
Qed.

Lemma reset_fold_get (ks : list CoreContact) (d : Dict) k :
  dict_get k (fold_left (fun d c => dict_set c PRE d) ks d)
  = if existsb (same_obj k) ks then Some PRE else dict_get k d.
Proof.
  revert d. induction ks as [|c ks IH]; intros d; simpl; [reflexivity|].
  rewrite IH, dict_get_set, (same_obj_sym k c).
  destruct (same_obj c k), (existsb (same_obj k) ks); reflexivity.
Qed.

Lemma reset_fold_keys (ks : list CoreContact) (d : Dict) :
  (forall c, In c ks -> dict_get c d <> None) ->
  keys (fold_left (fun d c => dict_set c PRE d) ks d) = keys d.
Proof.
  revert d. induction ks as [|c ks IH]; intros d P; simpl; [reflexivity|].
  rewrite IH.
  - apply keys_dict_set_present. apply P. now left.
  - intros c' I. rewrite dict_get_set.
    destruct (same_obj c c'); [discriminate|]. apply P. now right.
Qed.

Lemma key_present (c : CoreContact) (d : Dict) :
  In c (keys d) -> dict_get c d <> None.
Proof. intros I. apply in_keys in I as (st & I). eapply in_dict_get; eauto. Qed.

Lemma reset_keys (plan : CoreContactPlan) :
  keys (contacts (reset plan)) = keys (contacts plan).
Proof. simpl. apply reset_fold_keys. intros c. apply key_present. Qed.

Lemma reset_get (plan : CoreContactPlan) k :
  dict_get k (contacts plan) <> None ->
  dict_get k (contacts (reset plan)) = Some PRE.
Proof.
  intros P. simpl. rewrite reset_fold_get.
  now rewrite existsb_keys_present.
Qed.

Lemma in_of_get (c : CoreContact) st (d : Dict) :
  uniq d -> In c (keys d) -> dict_get c d = Some st -> In (c, st) d.
Proof.
  intros U I G. apply in_keys in I as (st' & I).
  rewrite (dict_get_in _ _ _ U I) in G. congruence.
Qed.

Lemma reset_in (plan : CoreContactPlan) c st :
  uniq (contacts plan) -> In (c, st) (contacts (reset plan)) -> st = PRE.
Proof.
  intros U I.
  assert (K : In c (keys (contacts plan))).
  { rewrite <- reset_keys. apply in_keys. eauto. }
  apply dict_get_in in I; [|eapply uniq_keys; eauto using reset_keys].
  rewrite reset_get in I by now apply key_present. congruence.
Qed.

(** Every iteration keeps the keys and is accounted for by its events. *)
Lemma iteration_replay args s ev r :
  uniq (contacts (cp s)) ->
  iteration args s = (ev, r) ->
  keys (contacts (cp (state_of r))) = keys (contacts (cp s))
  /\ forall k st0,
      dict_get k (contacts (cp s)) = Some st0 ->
      replay k st0 ev = dict_get k (contacts (cp (state_of r))).
Proof.
  intros U A. destruct (next_event s) as [t|] eqn:E.
  - destruct (tick_summary _ _ _ _ _ U E A) as (_ & _ & _ & K & R). auto.
  - rewrite (iteration_idle _ _ E) in A.
    destruct (loop (cp s) || truthy (loop_arg args));
      inversion A; subst; clear A.
    + split; [apply reset_keys|]. intros k st0 G.
      cbn [state_of cp]. rewrite reset_get by congruence. reflexivity.
    + split; [reflexivity|]. intros k st0 G. simpl. now rewrite G.
Qed.

Lemma run_succ fuel args s ev r :
  run (S fuel) args s = (ev, r) ->
  exists ev1 r1,
    iteration args s = (ev1, r1)
    /\ ((exists s1 ev2, r1 = Go s1 /\ run fuel args s1 = (ev2, r)
                        /\ ev = ev1 ++ ev2)
        \/ ((forall s1, r1 <> Go s1) /\ ev = ev1 /\ r = r1)).
Proof.
  simpl. destruct (iteration args s) as [ev1 r1] eqn:E. intros A.
  exists ev1, r1. split; [reflexivity|].
  destruct r1 as [s1|s1|e s1].
  - left. destruct (run fuel args s1) as [ev2 r2] eqn:R.
    inversion A; subst. exists s1, ev2. auto.
  - right. inversion A; subst. repeat split; congruence.
  - right. inversion A; subst. repeat split; congruence.
Qed.

Lemma run_replay fuel args s ev r :
  uniq (contacts (cp s)) ->
  run fuel args s = (ev, r) ->
  keys (contacts (cp (state_of r))) = keys (contacts (cp s))
  /\ forall k st0,
      dict_get k (contacts (cp s)) = Some st0 ->
      replay k st0 ev = dict_get k (contacts (cp (state_of r))).
Proof.
  revert s ev r. induction fuel as [|fuel IH]; intros s ev r U A.
  - inversion A; subst. split; [reflexivity|].
    intros k st0 G. simpl. now rewrite G.
  - apply run_succ in A as (ev1 & r1 & I & A).
    destruct (iteration_replay _ _ _ _ U I) as (K1 & R1).
    destruct A as [(s1 & ev2 & -> & A & ->)|(_ & -> & ->)]; [|auto].
    simpl in K1, R1.
    assert (U1 : uniq (contacts (cp s1))) by (eapply uniq_keys; eauto).
    destruct (IH _ _ _ U1 A) as (K2 & R2).
    split; [congruence|]. intros k st0 G.
    rewrite replay_app, (R1 _ _ G).
    destruct (dict_get k (contacts (cp s1))) as [st1|] eqn:G1; [auto|].
    (* [k] need not be a stored key; its entry is found all the same *)
    exfalso.
    assert (X : existsb (same_obj k) (keys (contacts (cp s))) = true)
      by (apply existsb_keys_present; congruence).
    rewrite <- K1 in X. apply existsb_exists in X as (k' & J & Sk).
    apply key_present in J.
    rewrite <- (dict_get_same_obj k k') in J by assumption. congruence.
Qed.

(** C7: in every run of the loop, over any number of iterations and
    however it ends, each contact's state moves only along
    [PRE -> LIVE -> POST]: every assignment the scheduler makes to a
    contact's state is [PRE] to [LIVE] or [LIVE] to [POST] (so [LIVE] is
    never skipped, no transition happens twice, and [POST] is left only
    through a call of [reset]), and the plan ends up holding exactly
    the state these assignments lead to. *)
Theorem lifecycle_is_PRE_LIVE_POST
        (args : Args) (fuel : nat) (s : Sched)
        (ev : list Event) (r : Control) :
  uniq (contacts (cp s)) ->
  run fuel args s = (ev, r) ->
  forall c st,
    In (c, st) (contacts (cp s)) ->
    exists st',
      replay c st ev = Some st'
      /\ In (c, st') (contacts (cp (state_of r))).
Proof.
  intros U A c st I.
  destruct (run_replay _ _ _ _ _ U A) as (K & R).
  pose proof (dict_get_in _ _ _ U I) as G.
  rewrite (R _ _ G).
  assert (Kc : In c (keys (contacts (cp (state_of r))))).
  { rewrite K. apply in_keys. eauto. }
  destruct (dict_get c (contacts (cp (state_of r)))) as [st'|] eqn:G';
    [|now apply key_present in Kc].
  exists st'. split; [reflexivity|].
  apply in_of_get; auto. eapply uniq_keys; eauto.
Qed.

End Runs.

(** ** What a tick does to contacts with and without a link *)

Section Scheduling.
Context `{PyBuiltins} `{!CoreGrpcClient}.

(** A pass leaves the entry of a contact without a link as it is. *)
Lemma linkless_untouched note new body items s ev r c st :
  (forall s item ev r,
      body s item = (ev, r) -> body_outcome note new s (fst item) ev r) ->
  uniq (contacts (cp s)) ->
  (forall it, In it items -> In it (contacts (cp s))) ->
  In (c, st) (contacts (cp s)) ->
  has_link (links s) c = false ->
  for_each body items s = (ev, r) ->
  dict_get c (contacts (cp (state_of r))) = Some st.
Proof.
  intros Hb U Sub I L P.
  destruct (pass_state note new body Hb _ _ _ _ c P)
    as [E|(_ & [c' st'] & J & Sm & L')].
  - rewrite E. now apply dict_get_in.
  - exfalso. apply Sub in J. simpl in Sm, L'. apply same_obj_oid in Sm.
    destruct (uniq_same_key _ _ _ _ _ U J I Sm) as [-> _]. congruence.
Qed.

Lemma need_activation_sub (plan : CoreContactPlan) t it :
  In it (need_activation plan t) -> In it (contacts plan).
Proof. destruct it. intros I. now apply need_activation_in in I. Qed.

Lemma need_deactivation_sub (plan : CoreContactPlan) t it :
  In it (need_deactivation plan t) -> In it (contacts plan).
Proof. destruct it. intros I. now apply need_deactivation_in in I. Qed.

Lemma in_same_keys (d d' : Dict) c st :
  keys d' = keys d -> In (c, st) d -> In c (keys d').
Proof. intros K I. rewrite K. apply in_keys. eauto. Qed.

(** A tick leaves a contact without a link in the state it had. *)
Lemma tick_linkless_frame args s t ev r c st :
  uniq (contacts (cp s)) ->
  next_event s = Some t ->
  iteration args s = (ev, r) ->
  In (c, st) (contacts (cp s)) ->
  has_link (links s) c = false ->
  In (c, st) (contacts (cp (state_of r))).
Proof.
  intros U E A I L.
  destruct (tick_summary _ _ _ _ _ U E A) as (_ & _ & _ & K & _).
  sleep_cases E A Fit; [|exact I].
  destruct (iteration_tick _ _ _ _ _ E Fit A) as (ev1 & r1 & P1 & C).
  pose proof (pass_frame PrintActivating LIVE _ (activate_outcome _)
                         _ _ _ _ (need_activation_present _ _) P1)
    as (_ & _ & N1 & K1).
  pose proof (linkless_untouched
                _ _ _ _ (mkSched (cp s) t (links s) (rpc_calls s)) _ _ c st
                (activate_outcome _)
                U (need_activation_sub _ _) I L P1) as G1.
  simpl in N1, K1.
  assert (Fin : forall d, keys d = keys (contacts (cp s)) ->
                          dict_get c d = Some st -> In (c, st) d).
  { intros d Kd G. apply in_of_get; [eapply uniq_keys; eauto| |exact G].
    eapply in_same_keys; eauto. }
  destruct C as [(s2 & ev2 & -> & T & P2 & ->)|(_ & -> & _)];
    [|now apply Fin].
  simpl in N1, K1, G1.
  assert (U2 : uniq (contacts (cp s2))) by (eapply uniq_keys; eauto).
  apply Fin; [assumption|].
  apply (linkless_untouched
           PrintDeactivating POST (deactivate (session args))
           (need_deactivation (cp s2) t) s2 ev2 r c st
           (deactivate_outcome _) U2 (need_deactivation_sub _ _));
    [now apply Fin| |exact P2].
  rewrite <- L. now apply has_link_node_ids.
Qed.


Lemma nonneg_keys (p p' : CoreContactPlan) :
  keys (contacts p') = keys (contacts p) ->
  nonneg_starts p -> nonneg_starts p'.
Proof.
  intros K N c st I.
  assert (J : In c (keys (contacts p)))
    by (rewrite <- K; apply in_keys; eauto).
  apply in_keys in J as (st0 & J). eauto.
Qed.

(** The invariant of the loop head. *)
Lemma iteration_sound args s ev s' :
  sound s -> iteration args s = (ev, Go s') -> sound s'.
Proof.
  intros (U & N & O) A.
  destruct (iteration_replay _ _ _ _ U A) as (K & _). simpl in K.
  assert (U' : uniq (contacts (cp s'))) by (eapply uniq_keys; eauto).
  assert (N' : nonneg_starts (cp s')) by (eapply nonneg_keys; eauto).
  split; [assumption|]. split; [assumption|].
  destruct (next_event s) as [t|] eqn:E.
  - sleep_cases E A Fit.
    destruct (tick_summary _ _ _ _ _ U E A) as (T & _).
    specialize (T Fit). simpl in T.
    destruct (iteration_tick _ _ _ _ _ E Fit A) as (ev1 & r1 & P1 & C).
    destruct C as [(s2 & ev2 & -> & T2 & P2 & ->)|(C & <- & _)];
      [|exfalso; eapply C; reflexivity].
    intros c I. rewrite T.
    pose proof (dict_get_in _ _ _ U' I) as G'.
    assert (G2 : dict_get c (contacts (cp s2)) = Some PRE).
    { destruct (pass_state PrintDeactivating POST _ (deactivate_outcome _)
                           _ _ _ _ c P2) as [X|[X _]];
        simpl in X; congruence. }
    assert (G0 : dict_get c (contacts (cp s)) = Some PRE).
    { destruct (pass_state PrintActivating LIVE _ (activate_outcome _)
                           _ _ _ _ c P1) as [X|[X _]];
        simpl in X; congruence. }
    assert (I0 : In (c, PRE) (contacts (cp s))).
    { apply in_of_get; auto. rewrite <- K. apply in_keys. eauto. }
    destruct (next_event_some _ _ E) as (_ & A1 & _). auto.
  - rewrite (iteration_idle _ _ E) in A.
    destruct (loop (cp s) || truthy (loop_arg args));
      inversion A; subst; clear A.
    intros c I. simpl in *. eapply N'. exact I.
Qed.


Lemma boot_sound (plan : CoreContactPlan) (ls : list Link) :
  uniq (contacts plan) -> nonneg_starts plan -> sound (boot plan ls).
Proof.
  intros U N. split; [assumption|]. split; [assumption|].
  intros c I. simpl. eapply N. exact I.
Qed.



End Scheduling.

(** ** Uncaught exceptions *)

Section Crashes.
Context `{PyBuiltins} `{!CoreGrpcClient}.

(** A pass never leaves the loop by [break]; when it dies, it dies of
    the controller call it has just made, or of printing a contact. *)
Lemma pass_crash note new
      (body : Sched -> CoreContact * ContactState -> list Event * Control)
      items s ev r :
  (forall s item ev r,
      body s item = (ev, r) -> body_outcome note new s (fst item) ev r) ->
  for_each body items s = (ev, r) ->
  match r with
  | Go _ => True
  | Stop _ => False
  | Crash e s' =>
      (e = RpcError
       /\ exists ev0 sess l,
           ev = ev0 ++ [EditLink sess l]
           /\ edit_link (pred (rpc_calls s')) sess l = Failed)
      \/ (e = OverflowError_float
          /\ exists it, In it items /\ ~ printable (fst it))
  end.
Proof.
  intros Hb. revert s ev r.
  induction items as [|x items IH]; intros s ev r A.
  - inversion A; subst. exact I.
  - simpl in A. destruct (body s x) as [ev1 r1] eqn:Bx.
    apply Hb in Bx.
    assert (Tail : forall s1 ev2 r2,
               for_each body items s1 = (ev2, r2) ->
               match r2 with
               | Go _ => True
               | Stop _ => False
               | Crash e s' =>
                   (e = RpcError
                    /\ exists ev0 sess l,
                        ev1 ++ ev2 = ev0 ++ [EditLink sess l]
                        /\ edit_link (pred (rpc_calls s')) sess l = Failed)
                   \/ (e = OverflowError_float
                       /\ exists it, In it (x :: items)
                                     /\ ~ printable (fst it))
               end).
    { intros s1 ev2 r2 R. apply IH in R. destruct r2; auto.
      destruct R as [(-> & ev0 & sess & l & -> & F)|(-> & it & J & N)].
      - left. split; [reflexivity|]. exists (ev1 ++ ev0), sess, l.
        split; [now rewrite app_assoc|exact F].
      - right. split; [reflexivity|]. exists it. split; [now right|exact N]. }
    destruct Bx as [(Np & -> & ->)|(_ & Bx)].
    { inversion A; subst. right. split; [reflexivity|].
      exists x. split; [now left|exact Np]. }
    destruct Bx as [(_ & -> & ->)
                   |(sess & l & s1 & _ & _ & _ & _ & _ & _ & Ec & O)].
    + destruct (for_each body items s) as [ev2 r2] eqn:R.
      inversion A; subst. exact (Tail _ _ _ R).
    + destruct O as [(F & -> & ->)|(_ & -> & ->)].
      * inversion A; subst. left. split; [reflexivity|].
        eexists [_], sess, l. split; [reflexivity|].
        rewrite Ec. exact F.
      * destruct (for_each body items _) as [ev2 r2] eqn:R.
        inversion A; subst. exact (Tail _ _ _ R).
Qed.

(** What an iteration can die of. *)
Lemma iteration_crash args s ev e s' :
  iteration args s = (ev, Crash e s') ->
  (e = RpcError
   /\ exists ev0 sess l,
       ev = ev0 ++ [EditLink sess l]
       /\ edit_link (pred (rpc_calls s')) sess l = Failed)
  \/ (e = OverflowError_float
      /\ exists c, In c (keys (contacts (cp s))) /\ ~ printable c)
  \/ (e = OverflowError_sleep
      /\ exists t, next_event s = Some t
                   /\ sleep_fits (t - cur_time s) = false
                   /\ ev = [PrintNextEvent (cur_time s) t]).
Proof.
  intros A. destruct (next_event s) as [t|] eqn:E.
  - destruct (sleep_fits (t - cur_time s)) eqn:Fit.
    2:{ rewrite (iteration_overflow _ _ _ E Fit) in A. inversion A; subst.
        right. right. split; [reflexivity|]. exists t. auto. }
    destruct (iteration_tick _ _ _ _ _ E Fit A) as (ev1 & r1 & P1 & C).
    pose proof (pass_frame PrintActivating LIVE _ (activate_outcome _)
                           _ _ _ _ (need_activation_present _ _) P1)
      as (_ & _ & _ & K1).
    destruct C as [(s2 & ev2 & -> & T & P2 & ->)|(_ & <- & ->)].
    + pose proof P2 as P2'.
      apply (pass_crash _ _ _ _ _ _ _ (deactivate_outcome _)) in P2'.
      destruct P2' as [(-> & ev0 & sess & l & -> & F)
                      |(-> & [c st] & J & N)].
      * left. split; [reflexivity|].
        exists ([PrintNextEvent (cur_time s) t; Sleep (t - cur_time s)]
                  ++ ev1 ++ ev0), sess, l.
        split; [|exact F]. now rewrite <- !app_assoc.
      * right. left. split; [reflexivity|]. exists c. split; [|exact N].
        simpl in K1. rewrite <- K1. apply in_keys. exists st.
        now apply need_deactivation_in in J.
    + pose proof P1 as P1'.
      apply (pass_crash _ _ _ _ _ _ _ (activate_outcome _)) in P1'.
      destruct P1' as [(-> & ev0 & sess & l & -> & F)
                      |(-> & [c st] & J & N)].
      * left. split; [reflexivity|].
        exists ([PrintNextEvent (cur_time s) t; Sleep (t - cur_time s)]
                  ++ ev0), sess, l.
        split; [|exact F]. now rewrite <- !app_assoc.
      * right. left. split; [reflexivity|]. exists c. split; [|exact N].
        apply in_keys. exists st. now apply need_activation_in in J.
  - rewrite (iteration_idle _ _ E) in A.
    destruct (loop (cp s) || truthy (loop_arg args)); discriminate.
Qed.

(** An iteration keeps the contacts of the plan. *)
Lemma iteration_keys args s ev r :
  iteration args s = (ev, r) ->
  keys (contacts (cp (state_of r))) = keys (contacts (cp s)).
Proof.
  intros A. destruct (next_event s) as [t|] eqn:E.
  - sleep_cases E A Fit; [|reflexivity].
    destruct (iteration_tick _ _ _ _ _ E Fit A) as (ev1 & r1 & P1 & C).
    pose proof (pass_frame PrintActivating LIVE _ (activate_outcome _)
                           _ _ _ _ (need_activation_present _ _) P1)
      as (_ & _ & _ & K1).
    simpl in K1.
    destruct C as [(s2 & ev2 & -> & T & P2 & ->)|(_ & <- & ->)];
      [|exact K1].
    pose proof (pass_frame PrintDeactivating POST _ (deactivate_outcome _)
                           _ _ _ _ (need_deactivation_present _ _) P2)
      as (_ & _ & _ & K2).
    simpl in K1. congruence.
  - rewrite (iteration_idle _ _ E) in A.
    destruct (loop (cp s) || truthy (loop_arg args));
      inversion A; subst; [apply reset_keys|reflexivity].
Qed.

(** What a run can die of. *)
Lemma run_crash fuel args s ev e s' :
  run fuel args s = (ev, Crash e s') ->
  (e = RpcError
   /\ exists ev0 sess l,
       ev = ev0 ++ [EditLink sess l]
       /\ edit_link (pred (rpc_calls s')) sess l = Failed)
  \/ (e = OverflowError_float
      /\ exists c, In c (keys (contacts (cp s))) /\ ~ printable c)
  \/ (e = OverflowError_sleep
      /\ exists ev0 now t, sleep_fits (t - now) = false
                           /\ ev = ev0 ++ [PrintNextEvent now t]).
Proof.
  revert s ev. induction fuel as [|fuel IH]; intros s ev A;
    [discriminate|].
  apply run_succ in A as (ev1 & r1 & I & A).
  destruct A as [(s1 & ev2 & -> & A & ->)|(_ & -> & <-)].
  - pose proof (iteration_keys _ _ _ _ I) as K. simpl in K.
    destruct (IH _ _ A) as [(-> & ev0 & sess & l & -> & F)
                           |[(-> & c & J & N)
                            |(-> & ev0 & now & t & F & ->)]].
    + left. split; [reflexivity|]. exists (ev1 ++ ev0), sess, l.
      split; [|exact F]. now rewrite app_assoc.
    + right. left. split; [reflexivity|]. exists c. now rewrite <- K.
    + right. right. split; [reflexivity|]. exists (ev1 ++ ev0), now, t.
      split; [exact F|]. now rewrite app_assoc.
  - destruct (iteration_crash _ _ _ _ _ I)
      as [X|[X|(-> & t & _ & F & ->)]]; auto.
    right. right. split; [reflexivity|]. exists [], (cur_time s), t. auto.
Qed.

(** Once the loop is over, more fuel changes nothing. *)
Lemma run_over fuel args s ev r more :
  run fuel args s = (ev, r) ->
  (forall s', r <> Go s') ->
  run (fuel + more) args s = (ev, r).
Proof.
  revert s ev. induction fuel as [|fuel IH]; intros s ev A N.
  - inversion A; subst. exfalso. eapply N. reflexivity.
  - apply run_succ in A as (ev1 & r1 & I & A). simpl. rewrite I.
    destruct A as [(s1 & ev2 & -> & A & ->)|(N1 & -> & ->)].
    + now rewrite (IH _ _ A N).
    + destruct r1; [exfalso; eapply N1; reflexivity| |]; reflexivity.
Qed.

End Crashes.

(** ** The event loop *)

Section EventLoop.
Context `{PyBuiltins} `{!CoreGrpcClient}.

(** C1, as the code has it: when the link of a contact due for
    activation is not found, the iteration makes no controller call for
    a link between that contact's nodes and leaves the contact in state
    [PRE]; if the iteration runs to its end it has announced the
    activation and logged the warning. *)
Theorem missing_link_skips_call_and_keeps_contact_PRE
        (args : Args) (s : Sched) (t : Z) (ev : list Event) (r : Control)
        (c : CoreContact) (st : ContactState) :
  uniq (contacts (cp s)) ->
  next_event s = Some t ->
  In (c, st) (need_activation (cp s) t) ->
  find_link (links s) (fst (nodes c)) (snd (nodes c)) = None ->
  iteration args s = (ev, r) ->
  (forall sess l,
      In (EditLink sess l) ev ->
      link_matches l (fst (nodes c)) (snd (nodes c)) = false)
  /\ In (c, PRE) (contacts (cp (state_of r)))
  /\ (forall s',
         r = Go s' ->
         In (PrintActivating t c) ev
         /\ In (PrintWarning (fst (nodes c)) (snd (nodes c))) ev).
Proof.
  intros U E Due F A.
  assert (L : has_link (links s) c = false) by (unfold has_link; now rewrite F).
  apply need_activation_in in Due as Due'. destruct Due' as (I & W & ->).
  split; [|split].
  - intros sess l J. apply (no_link_no_match (links s)); [exact L|].
    sleep_cases E A Fit; [|destruct J as [J|[]]; discriminate].
    destruct (iteration_tick _ _ _ _ _ E Fit A) as (ev1 & r1 & P1 & C).
    pose proof (pass_frame PrintActivating LIVE _ (activate_outcome _)
                           _ _ _ _ (need_activation_present _ _) P1)
      as (_ & _ & N1 & _).
    assert (J1 : In (EditLink sess l) ev1 ->
                 In (node1_id l, node2_id l) (node_ids (links s))).
    { intros J1.
      apply (pass_calls PrintActivating LIVE _ (activate_outcome _)
               ltac:(discriminate) _ _ _ _ sess l P1 J1). }
    destruct C as [(s2 & ev2 & -> & T & P2 & ->)|(_ & _ & ->)].
    + cbn [app In] in J. destruct J as [J|[J|J]]; try discriminate.
      apply in_app_or in J as [J|J]; [auto|].
      simpl in N1. rewrite <- N1.
      apply (pass_calls PrintDeactivating POST _ (deactivate_outcome _)
               ltac:(discriminate) _ _ _ _ sess l P2 J).
    + cbn [app In] in J. destruct J as [J|[J|J]]; try discriminate. auto.
  - eapply tick_linkless_frame; eauto.
  - intros s' ->. sleep_cases E A Fit.
    destruct (iteration_tick _ _ _ _ _ E Fit A) as (ev1 & r1 & P1 & C).
    destruct C as [(s2 & ev2 & -> & T & P2 & ->)|(C & <- & _)];
      [|exfalso; eapply C; reflexivity].
    destruct (pass_notes PrintActivating LIVE _ (activate_outcome _)
                         _ _ _ _ (c, PRE) P1 Due) as (N1 & N2).
    simpl in N1, N2. specialize (N2 L).
    split; cbn [app In]; right; right; apply in_or_app; left; assumption.
Qed.


End EventLoop.

(* ================================================================== *)
(** * Part II, continued: further properties of the code               *)
(* ================================================================== *)

Section LinkLookup.
Context `{PyBuiltins} `{!CoreGrpcClient}.

Lemma link_matches_sym (l : Link) a b :
  link_matches l a b = link_matches l b a.
Proof. unfold link_matches. apply orb_comm. Qed.

Lemma find_link_sym (links : list Link) a b :
  find_link links a b = find_link links b a.
Proof.
  induction links as [|l links IH]; simpl; [reflexivity|].
  now rewrite IH, link_matches_sym.
Qed.

Lemma find_link_first (links : list Link) a b i l :
  find_link links a b = Some (i, l) ->
  nth_error links i = Some l
  /\ link_matches l a b = true
  /\ forall j l', (j < i)%nat -> nth_error links j = Some l' ->
                  link_matches l' a b = false.
Proof.
  revert i. induction links as [|l0 links IH]; intros i; simpl;
    [discriminate|].
  destruct (link_matches l0 a b) eqn:M.
  - intros [= <- <-]. repeat split; auto. intros j l' J. lia.
  - destruct (find_link links a b) as [[k l1]|]; [|discriminate].
    intros [= <- <-]. destruct (IH k eq_refl) as (N & Ml & Before).
    repeat split; auto.
    intros [|j] l' J E; simpl in E.
    + now inversion E; subst.
    + apply (Before j); [lia|assumption].
Qed.

Lemma find_link_absent (links : list Link) a b :
  find_link links a b = None
  <-> forall l, In l links -> link_matches l a b = false.
Proof.
  induction links as [|l0 links IH]; simpl; [tauto|].
  destruct (link_matches l0 a b) eqn:M.
  - split; [discriminate|]. intros A. specialize (A l0 (or_introl eq_refl)).
    congruence.
  - destruct (find_link links a b) as [[k l1]|].
    + split; [discriminate|]. intros A.
      assert (X : Some (k, l1) = @None (nat * Link));
        [apply IH; auto|discriminate].
    + split; [|reflexivity]. intros _ l [<-|I]; [assumption|].
      now apply IH.
Qed.

(** X1: [find_link] does not care in which order the two nodes are given;
    what it returns is a link of the list that joins the two nodes (in
    one order or the other), and the first such link; it returns [None]
    exactly when no link of the list joins them. *)
Theorem find_link_is_symmetric_first_match
        (links : list Link) (node1 node2 : Z) :
  find_link links node1 node2 = find_link links node2 node1
  /\ (forall i l,
         find_link links node1 node2 = Some (i, l) ->
         nth_error links i = Some l
         /\ ((node1_id l = node1 /\ node2_id l = node2)
             \/ (node1_id l = node2 /\ node2_id l = node1))
         /\ forall j l', (j < i)%nat -> nth_error links j = Some l' ->
                         ~ ((node1_id l' = node1 /\ node2_id l' = node2)
                            \/ (node1_id l' = node2 /\ node2_id l' = node1)))
  /\ (find_link links node1 node2 = None
      <-> forall l, In l links ->
                    ~ ((node1_id l = node1 /\ node2_id l = node2)
                       \/ (node1_id l = node2 /\ node2_id l = node1))).
Proof.
  assert (M : forall l,
             link_matches l node1 node2 = true
             <-> (node1_id l = node1 /\ node2_id l = node2)
                 \/ (node1_id l = node2 /\ node2_id l = node1)).
  { intros l. unfold link_matches.
    rewrite orb_true_iff, !andb_true_iff, !Z.eqb_eq. tauto. }
  split; [apply find_link_sym|]. split.
  - intros i l F. destruct (find_link_first _ _ _ _ _ F) as (N & Ml & B).
    split; [assumption|]. split; [now apply M|].
    intros j l' J E X. apply M in X. rewrite (B j l' J E) in X. discriminate.
  - rewrite find_link_absent. split; intros A l I.
    + intros X. apply M in X. rewrite (A l I) in X. discriminate.
    + destruct (link_matches l node1 node2) eqn:E; [|reflexivity].
      exfalso. apply (A l I). now apply M.
Qed.

End LinkLookup.

Section Reset.
Context `{PyBuiltins}.

(** Two dictionaries with the same keys that answer every lookup alike
    are the same dictionary. *)
Lemma dict_ext (d1 d2 : Dict) :
  keys d1 = keys d2 -> uniq d1 ->
  (forall k, In k (keys d1) -> dict_get k d1 = dict_get k d2) ->
  d1 = d2.
Proof.
  revert d2. induction d1 as [|[k v] d1 IH]; intros [|[k2 v2] d2] K U G;
    try discriminate; [reflexivity|].
  simpl in K. inversion K; subst k2.
  unfold uniq in U. simpl in U. inversion U as [|? ? N U']; subst.
  pose proof (G k (or_introl eq_refl)) as Gk. simpl in Gk.
  rewrite same_obj_refl in Gk. inversion Gk; subst v2.
  f_equal. apply IH; [assumption|exact U'|].
  intros k' I. specialize (G k' (or_intror I)). simpl in G.
  destruct (same_obj k' k) eqn:S; [|assumption].
  exfalso. apply N. apply same_obj_oid in S. rewrite <- S.
  now apply in_map.
Qed.

Lemma keys_all_PRE (d : Dict) :
  keys (map (fun cs => (fst cs, PRE)) d) = keys d.
Proof. unfold keys. rewrite map_map. reflexivity. Qed.

Lemma reset_contacts (plan : CoreContactPlan) :
  uniq (contacts plan) ->
  contacts (reset plan) = map (fun cs => (fst cs, PRE)) (contacts plan).
Proof.
  intros U. apply dict_ext.
  - now rewrite reset_keys, keys_all_PRE.
  - eapply uniq_keys; [apply reset_keys|assumption].
  - intros k I. rewrite reset_keys in I.
    rewrite reset_get by now apply key_present.
    symmetry. apply dict_get_in.
    + eapply uniq_keys; [apply keys_all_PRE|assumption].
    + apply in_keys in I as (st & I).
      apply in_map_iff. exists (k, st). auto.
Qed.

Lemma plan_eq (a b : CoreContactPlan) :
  loop a = loop b -> contacts a = contacts b -> a = b.
Proof. destruct a, b. simpl. congruence. Qed.

(** X2: [reset] puts every contact of the plan in state [PRE] whatever
    its state was, keeps the contacts, their order and the loop flag, and
    resetting twice is resetting once. *)
Theorem reset_restores_every_contact_to_PRE (plan : CoreContactPlan) :
  uniq (contacts plan) ->
  contacts (reset plan) = map (fun cs => (fst cs, PRE)) (contacts plan)
  /\ keys (contacts (reset plan)) = keys (contacts plan)
  /\ loop (reset plan) = loop plan
  /\ (forall c st, In (c, st) (contacts (reset plan)) -> st = PRE)
  /\ reset (reset plan) = reset plan.
Proof.
  intros U. pose proof (reset_contacts plan U) as R.
  assert (U' : uniq (contacts (reset plan)))
    by (eapply uniq_keys; [apply reset_keys|assumption]).
  split; [exact R|]. split; [apply reset_keys|]. split; [reflexivity|].
  split; [intros c st; now apply reset_in|].
  apply plan_eq; [reflexivity|].
  rewrite (reset_contacts (reset plan) U'), R, map_map. reflexivity.
Qed.

End Reset.

Section NextTimes.
Context `{PyBuiltins}.

Lemma min_or_none_nonempty (l : list Z) x :
  In x l -> exists m, min_or_none l = Some m.
Proof. destruct l; [intros []|]. simpl. eauto. Qed.

Lemma next_activation_exists (plan : CoreContactPlan) t c :
  In (c, PRE) (contacts plan) -> t <= start_of c ->
  exists m, next_activation plan t = Some m.
Proof.
  intros I G. unfold next_activation.
  apply (min_or_none_nonempty _ (start_of c)).
  apply in_map_iff. exists (c, PRE). split; [reflexivity|].
  apply filter_In. split; [assumption|]. simpl. now apply Z.geb_le.
Qed.

Lemma next_deactivation_exists (plan : CoreContactPlan) t c :
  In (c, LIVE) (contacts plan) -> t <= end_of c ->
  exists m, next_deactivation plan t = Some m.
Proof.
  intros I G. unfold next_deactivation.
  apply (min_or_none_nonempty _ (end_of c)).
  apply in_map_iff. exists (c, LIVE). split; [reflexivity|].
  apply filter_In. split; [assumption|]. simpl. now apply Z.geb_le.
Qed.

(** X3: [next_activation(t)] is the least start time at or after [t]
    among the contacts that are [PRE], and [None] exactly when no [PRE]
    contact starts at or after [t]; contacts in other states and earlier
    starts play no part. *)
Theorem next_activation_is_least_pending_start
        (plan : CoreContactPlan) (t : Z) :
  (next_activation plan t = None
   <-> forall c, In (c, PRE) (contacts plan) -> fst (timespan c) < t)
  /\ forall m,
      next_activation plan t = Some m
      <-> (exists c, In (c, PRE) (contacts plan)
                     /\ fst (timespan c) = m /\ t <= m)
          /\ forall c, In (c, PRE) (contacts plan) ->
                       t <= fst (timespan c) -> m <= fst (timespan c).
Proof.
  split.
  - split; [apply next_activation_none|].
    intros A. destruct (next_activation plan t) as [m|] eqn:E; [|reflexivity].
    apply next_activation_some in E as [(c & I & S & G) _].
    specialize (A c I). unfold start_of in S. lia.
  - intros m. split; [apply next_activation_some|].
    intros [(c & I & S & G) L].
    destruct (next_activation_exists plan t c I) as (m' & E);
      [unfold start_of; lia|].
    rewrite E. f_equal.
    apply next_activation_some in E as [(c' & I' & S' & G') L'].
    specialize (L c' I'). specialize (L' c I).
    unfold start_of in *. lia.
Qed.

(** X4: [next_deactivation(t)] is the least end time at or after [t]
    among the contacts that are [LIVE], and [None] exactly when no [LIVE]
    contact ends at or after [t]. *)
Theorem next_deactivation_is_least_pending_end
        (plan : CoreContactPlan) (t : Z) :
  (next_deactivation plan t = None
   <-> forall c, In (c, LIVE) (contacts plan) -> snd (timespan c) < t)
  /\ forall m,
      next_deactivation plan t = Some m
      <-> (exists c, In (c, LIVE) (contacts plan)
                     /\ snd (timespan c) = m /\ t <= m)
          /\ forall c, In (c, LIVE) (contacts plan) ->
                       t <= snd (timespan c) -> m <= snd (timespan c).
Proof.
  split.
  - split; [apply next_deactivation_none|].
    intros A. destruct (next_deactivation plan t) as [m|] eqn:E;
      [|reflexivity].
    apply next_deactivation_some in E as [(c & I & S & G) _].
    specialize (A c I). unfold end_of in S. lia.
  - intros m. split; [apply next_deactivation_some|].
    intros [(c & I & S & G) L].
    destruct (next_deactivation_exists plan t c I) as (m' & E);
      [unfold end_of; lia|].
    rewrite E. f_equal.
    apply next_deactivation_some in E as [(c' & I' & S' & G') L'].
    specialize (L c' I'). specialize (L' c I).
    unfold end_of in *. lia.
Qed.

End NextTimes.

Section MoreStrings.
Import PyStr.





End MoreStrings.

Section MoreLoading.
Context `{PyBuiltins}.

Lemma load_line_loop_directive st line b :
  loop_directive line = Some b ->
  load_line st line = Ok (mkLoading b (ld_contacts st) (ld_created st)).
Proof.
  unfold loop_directive, load_line.
  destruct (Nat.eqb _ 3 && String.eqb _ "s"); simpl; [|discriminate].
  destruct (String.eqb _ "loop"); [|discriminate].
  intros [= <-]. now destruct (String.eqb _ "1").
Qed.

Lemma load_line_unrecognised st line :
  unrecognised line -> load_line st line = Ok st.
Proof.
  unfold unrecognised, loop_directive, is_contact_directive, load_line.
  intros [L C].
  destruct (Nat.eqb _ 3 && String.eqb _ "s"); simpl in *.
  - now destruct (String.eqb _ "loop").
  - destruct (Nat.ltb 4 _ && String.eqb _ "a"); simpl in *; [|reflexivity].
    now rewrite C.
Qed.

Lemma load_line_flag st line st1 :
  load_line st line = Ok st1 ->
  ld_loop st1 = match loop_directive line with
                | Some b => b
                | None => ld_loop st
                end.
Proof.
  destruct (loop_directive line) as [b|] eqn:L.
  - rewrite (load_line_loop_directive st line b L). now intros [= <-].
  - unfold loop_directive in L. unfold load_line.
    destruct (Nat.eqb _ 3 && String.eqb _ "s"); simpl in *.
    + destruct (String.eqb _ "loop"); [discriminate|]. now intros [= <-].
    + destruct (Nat.ltb 4 _ && String.eqb _ "a"); [|now intros [= <-]].
      destruct (String.eqb _ "contact"); [|now intros [= <-]].
      intros E. apply bind_ok in E as (c & _ & E).
      apply bind_ok in E as (u & _ & E). now inversion E.
Qed.

Lemma load_lines_flag lines st st' :
  load_lines st lines = Ok st' -> ld_loop st' = last_loop (ld_loop st) lines.
Proof.
  revert st. induction lines as [|l lines IH]; intros st E; simpl in *.
  - now inversion E.
  - apply bind_ok in E as (st1 & E1 & E).
    rewrite (IH _ E). now rewrite (load_line_flag _ _ _ E1).
Qed.

Lemma load_lines_app l1 l2 st :
  load_lines st (l1 ++ l2) = (st' <- load_lines st l1 ;; load_lines st' l2).
Proof.
  revert st. induction l1 as [|l l1 IH]; intros st; simpl; [reflexivity|].
  destruct (load_line st l); simpl; [apply IH|reflexivity].
Qed.

(** X5: the loop flag of a loaded plan is the one the last loop directive
    of the file gives ([True] for [s loop 1], [False] for any other third
    word), and [False] when the file has no loop directive; contact
    directives and other lines do not touch it. *)
Theorem loaded_loop_flag_is_last_loop_directive
        (lines : list string) (plan : CoreContactPlan) :
  load lines = Ok plan -> loop plan = last_loop false lines.
Proof.
  unfold load. intros E. apply bind_ok in E as (st & E & P).
  inversion P; subst; clear P. simpl.
  now rewrite (load_lines_flag _ _ _ E).
Qed.

(** X6: a line that is neither a loop directive nor a contact directive
    (a comment, an empty line, another directive, a contact directive cut
    to at most two fields) is ignored: the file loads, or fails to load,
    exactly as it does without that line. *)
Theorem unrecognised_lines_are_ignored
        (before after : list string) (line : string) :
  unrecognised line ->
  load (before ++ line :: after) = load (before ++ after).
Proof.
  intros U. unfold load. rewrite !load_lines_app.
  destruct (load_lines _ before) as [st|e]; simpl; [|reflexivity].
  now rewrite (load_line_unrecognised st line U).
Qed.






(** A plan that loaded holds printable contacts only. *)
Lemma load_line_printable st line st' :
  load_line st line = Ok st' ->
  Forall printable (keys (ld_contacts st)) ->
  Forall printable (keys (ld_contacts st')).
Proof.
  unfold load_line. intros E P.
  destruct (Nat.eqb _ 3 && _).
  { destruct (String.eqb _ "loop"); [destruct (String.eqb _ "1")|];
      inversion E; subst; exact P. }
  destruct (Nat.ltb 4 _ && _); [|inversion E; subst; exact P].
  destruct (String.eqb _ "contact"); [|inversion E; subst; exact P].
  apply bind_ok in E as (c & _ & E).
  apply bind_ok in E as ([] & Pc & E). inversion E; subst; clear E.
  cbn [ld_contacts]. clear - P Pc.
  induction (ld_contacts st) as [|[k v] d IH]; simpl.
  - constructor; [exact Pc|constructor].
  - inversion P; subst. destruct (same_obj c k); simpl; constructor; auto.
Qed.

Lemma load_printable lines plan :
  load lines = Ok plan -> all_printable plan.
Proof.
  unfold load. intros E. apply bind_ok in E as (st & E & P).
  inversion P; subst; clear P.
  assert (F : Forall printable (keys (ld_contacts st))).
  { assert (G : Forall printable
                       (keys (ld_contacts (mkLoading false [] 0))))
      by constructor.
    revert E G. generalize (mkLoading false [] 0).
    induction lines as [|l lines IH]; intros st0 E G; simpl in E.
    - now inversion E; subst.
    - apply bind_ok in E as (st1 & E1 & E).
      eapply IH; [exact E|]. eapply load_line_printable; eauto. }
  intros c s I. rewrite Forall_forall in F. apply F.
  apply in_keys. eauto.
Qed.


End MoreLoading.

Section MoreRuns.
Context `{PyBuiltins} `{!CoreGrpcClient}.

(** The four shapes of an iteration. *)
Lemma iteration_cases args s ev r :
  iteration args s = (ev, r) ->
  (next_event s = None /\ looping args (cp s) = true
   /\ ev = [PrintLooping; CallReset]
   /\ r = Go (mkSched (reset (cp s)) 0 (links s) (rpc_calls s)))
  \/ (next_event s = None /\ looping args (cp s) = false
      /\ ev = [PrintNoMoreEvents] /\ r = Stop s)
  \/ (exists t evs,
         next_event s = Some t /\ cur_time s <= t
         /\ ev = [PrintNextEvent (cur_time s) t; Sleep (t - cur_time s)]
                   ++ evs
         /\ Forall pass_event evs
         /\ cur_time (state_of r) = t
         /\ loop (cp (state_of r)) = loop (cp s)
         /\ node_ids (links (state_of r)) = node_ids (links s)
         /\ keys (contacts (cp (state_of r))) = keys (contacts (cp s))
         /\ forall s', r <> Stop s')
  \/ (exists t,
         next_event s = Some t /\ cur_time s <= t
         /\ sleep_fits (t - cur_time s) = false
         /\ ev = [PrintNextEvent (cur_time s) t]
         /\ r = Crash OverflowError_sleep s).
Proof.
  intros A. destruct (next_event s) as [t|] eqn:E.
  - destruct (next_event_some _ _ E) as (G & _ & _).
    sleep_cases E A Fit; [|right; right; right; exists t; auto].
    right. right. left.
    destruct (iteration_tick _ _ _ _ _ E Fit A) as (ev1 & r1 & P1 & C).
    pose proof (pass_frame PrintActivating LIVE _ (activate_outcome _)
                           _ _ _ _ (need_activation_present _ _) P1)
      as (F1 & F2 & F3 & F4).
    pose proof (pass_phase PrintActivating LIVE _ (activate_outcome _)
                  activation_event
                  ltac:(reflexivity) ltac:(reflexivity) ltac:(reflexivity)
                  ltac:(reflexivity) _ _ _ _ P1) as Ph1.
    pose proof (pass_crash _ _ _ _ _ _ _ (activate_outcome _) P1) as K1.
    simpl in F1, F2, F3, F4.
    assert (W1 : Forall pass_event ev1).
    { eapply Forall_impl; [|exact Ph1]. intros e X. now left. }
    destruct C as [(s2 & ev2 & -> & T & P2 & ->)|(N & -> & ->)].
    + pose proof (pass_frame PrintDeactivating POST _ (deactivate_outcome _)
                             _ _ _ _ (need_deactivation_present _ _) P2)
        as (G1 & G2 & G3 & G4).
      pose proof (pass_phase PrintDeactivating POST _ (deactivate_outcome _)
                    deactivation_event
                    ltac:(reflexivity) ltac:(reflexivity) ltac:(reflexivity)
                    ltac:(reflexivity) _ _ _ _ P2) as Ph2.
      pose proof (pass_crash _ _ _ _ _ _ _ (deactivate_outcome _) P2) as K2.
      simpl in F1, F2, F3, F4.
      exists t, (ev1 ++ ev2). repeat split; try congruence.
      * apply Forall_app. split; [assumption|].
        eapply Forall_impl; [|exact Ph2]. intros e X. now right.
      * intros s' ->. exact K2.
    + exists t, ev1. repeat split; try assumption.
      intros s' ->. exact K1.
  - rewrite (iteration_idle _ _ E) in A. unfold looping.
    destruct (loop (cp s) || truthy (loop_arg args));
      inversion A; subst; [left|right; left]; auto.
Qed.

(** What holds of every iteration holds of every run. *)
Lemma run_invariant (Inv : Sched -> Prop) (P : Event -> Prop) args :
  (forall s ev r,
      Inv s -> iteration args s = (ev, r) ->
      Forall P ev /\ Inv (state_of r)) ->
  forall fuel s ev r,
    Inv s -> run fuel args s = (ev, r) ->
    Forall P ev /\ Inv (state_of r).
Proof.
  intros Step. induction fuel as [|fuel IH]; intros s ev r I A.
  - inversion A; subst. split; [constructor|assumption].
  - apply run_succ in A as (ev1 & r1 & It & A).
    destruct (Step _ _ _ I It) as (F1 & I1).
    destruct A as [(s1 & ev2 & -> & A & ->)|(_ & -> & ->)]; [|auto].
    destruct (IH _ _ _ I1 A) as (F2 & I2).
    split; [apply Forall_app; auto|assumption].
Qed.



Lemma looping_kept args s ev r :
  iteration args s = (ev, r) ->
  looping args (cp (state_of r)) = looping args (cp s).
Proof.
  intros It. unfold looping.
  destruct (iteration_cases _ _ _ _ It)
    as [(_ & _ & _ & ->)
       |[(_ & _ & _ & ->)
        |[(t & evs & _ & _ & _ & _ & _ & L & _)|(t & _ & _ & _ & _ & ->)]]];
    simpl; congruence.
Qed.

(** X10: when looping is on, by the plan's flag or by [-l], no number of
    iterations ends the loop normally: the script never prints that there
    are no more events and never takes the [break]. *)
Theorem a_looping_run_never_ends_normally
        (args : Args) (fuel : nat) (s : Sched)
        (ev : list Event) (r : Control) :
  looping args (cp s) = true ->
  run fuel args s = (ev, r) ->
  ~ In PrintNoMoreEvents ev /\ forall s', r <> Stop s'.
Proof.
  intros L A.
  assert (Step : forall s ev r,
             looping args (cp s) = true -> iteration args s = (ev, r) ->
             Forall (fun e => e <> PrintNoMoreEvents) ev
             /\ looping args (cp (state_of r)) = true).
  { intros s0 ev0 r0 L0 It. split; [|now rewrite (looping_kept _ _ _ _ It)].
    destruct (iteration_cases _ _ _ _ It)
      as [(_ & _ & -> & _)
         |[(_ & L1 & _)
          |[(t & evs & _ & _ & -> & F & _)|(t & _ & _ & _ & -> & _)]]].
    - repeat constructor; discriminate.
    - congruence.
    - constructor; [discriminate|]. constructor; [discriminate|].
      eapply Forall_impl; [|exact F].
      intros e [X|X] ->; discriminate.
    - repeat constructor; discriminate. }
  split.
  - destruct (run_invariant _ _ args Step fuel s ev r L A) as (F & _).
    intros I. rewrite Forall_forall in F. now apply (F _ I).
  - (* a [break] is taken by an iteration that finds looping off *)
    intros s' ->. revert s ev L A.
    induction fuel as [|fuel IH]; intros s ev L A; [discriminate|].
    apply run_succ in A as (ev1 & r1 & It & A).
    pose proof (looping_kept _ _ _ _ It) as K.
    destruct A as [(s1 & ev2 & -> & A & ->)|(_ & _ & <-)].
    + apply (IH s1 ev2); [|exact A]. simpl in K. congruence.
    + destruct (iteration_cases _ _ _ _ It)
        as [(_ & _ & _ & X)
           |[(_ & L1 & _)
            |[(t & evs & _ & _ & _ & _ & _ & _ & _ & _ & NS)
             |(t & _ & _ & _ & _ & X)]]].
      * discriminate.
      * congruence.
      * eapply NS. reflexivity.
      * discriminate.
Qed.

(** X11: when looping is off, the plan is never reset and the clock
    never goes back: no iteration prints [Looping] or calls [reset], and
    the current time at the end of a run is not before the current time
    at its beginning. *)
Theorem without_looping_the_clock_never_goes_back
        (args : Args) (fuel : nat) (s : Sched)
        (ev : list Event) (r : Control) :
  looping args (cp s) = false ->
  run fuel args s = (ev, r) ->
  ~ In PrintLooping ev /\ ~ In CallReset ev
  /\ cur_time s <= cur_time (state_of r).
Proof.
  intros L A.
  assert (Step : forall s0 ev0 r0,
             (looping args (cp s0) = false /\ cur_time s <= cur_time s0) ->
             iteration args s0 = (ev0, r0) ->
             Forall (fun e => e <> PrintLooping /\ e <> CallReset) ev0
             /\ (looping args (cp (state_of r0)) = false
                 /\ cur_time s <= cur_time (state_of r0))).
  { intros s0 ev0 r0 [L0 T0] It.
    rewrite (looping_kept _ _ _ _ It).
    destruct (iteration_cases _ _ _ _ It)
      as [(_ & L1 & _)
         |[(_ & _ & -> & ->)
          |[(t & evs & _ & G & -> & F & T & _)|(t & _ & _ & _ & -> & ->)]]].
    - congruence.
    - split; [repeat constructor; discriminate|auto].
    - split; [|split; [assumption|lia]].
      constructor; [split; discriminate|].
      constructor; [split; discriminate|].
      eapply Forall_impl; [|exact F].
      intros e [X|X]; split; intros ->; discriminate.
    - split; [repeat constructor; discriminate|auto]. }
  destruct (run_invariant _ _ args Step fuel s ev r
                          (conj L (Z.le_refl _)) A) as (F & _ & T).
  rewrite Forall_forall in F.
  split; [|split; [|exact T]]; intros I; destruct (F _ I) as [X Y]; congruence.
Qed.

Lemma run_frame args fuel s ev r :
  run fuel args s = (ev, r) ->
  node_ids (links (state_of r)) = node_ids (links s)
  /\ List.length (links (state_of r)) = List.length (links s)
  /\ keys (contacts (cp (state_of r))) = keys (contacts (cp s))
  /\ loop (cp (state_of r)) = loop (cp s).
Proof.
  intros A.
  assert (Step : forall s0 ev0 r0,
             (node_ids (links s0) = node_ids (links s)
              /\ keys (contacts (cp s0)) = keys (contacts (cp s))
              /\ loop (cp s0) = loop (cp s)) ->
             iteration args s0 = (ev0, r0) ->
             Forall (fun _ => True) ev0
             /\ (node_ids (links (state_of r0)) = node_ids (links s)
                 /\ keys (contacts (cp (state_of r0))) = keys (contacts (cp s))
                 /\ loop (cp (state_of r0)) = loop (cp s))).
  { intros s0 ev0 r0 (N0 & K0 & L0) It.
    split; [apply Forall_forall; auto|].
    destruct (iteration_cases _ _ _ _ It)
      as [(_ & _ & _ & ->)
         |[(_ & _ & _ & ->)
          |[(t & evs & _ & _ & _ & _ & _ & L1 & N1 & K1 & _)
           |(t & _ & _ & _ & _ & ->)]]].
    - simpl. rewrite reset_fold_keys; [auto|].
      intros c. apply key_present.
    - auto.
    - repeat split; congruence.
    - auto. }
  destruct (run_invariant _ _ args Step fuel s ev r
                          (conj eq_refl (conj eq_refl eq_refl)) A)
    as (_ & N & K & L).
  repeat split; try assumption.
  apply (f_equal (@List.length (Z * Z))) in N.
  unfold node_ids in N. now rewrite !length_map in N.
Qed.

(** X12: the script changes the options of links and the states of
    contacts, and nothing else of the session or the plan: whatever a run
    does and however it ends, the session has the same links between the
    same nodes in the same order, and the plan has the same contacts in
    the same order and the same loop flag. *)
Theorem a_run_keeps_the_links_and_the_contacts
        (args : Args) (fuel : nat) (s : Sched)
        (ev : list Event) (r : Control) :
  run fuel args s = (ev, r) ->
  node_ids (links (state_of r)) = node_ids (links s)
  /\ List.length (links (state_of r)) = List.length (links s)
  /\ keys (contacts (cp (state_of r))) = keys (contacts (cp s))
  /\ loop (cp (state_of r)) = loop (cp s).
Proof. apply run_frame. Qed.

End MoreRuns.

Section Punctuality.
Context `{PyBuiltins} `{!CoreGrpcClient}.

(** A pass announces only its items, and at the current time. *)
Lemma pass_announced note new
      (body : Sched -> CoreContact * ContactState -> list Event * Control)
      items s ev r t c :
  (forall s item ev r,
      body s item = (ev, r) -> body_outcome note new s (fst item) ev r) ->
  (forall t c t' c', note t c = note t' c' -> t = t' /\ c = c') ->
  (forall t c a b, PrintWarning a b <> note t c) ->
  (forall t c a l, EditLink a l <> note t c) ->
  (forall t c k st, Assign k st <> note t c) ->
  for_each body items s = (ev, r) ->
  In (note t c) ev ->
  t = cur_time s /\ exists st, In (c, st) items.
Proof.
  intros Hb Hinj Hw He Ha. revert s ev r.
  induction items as [|x items IH]; intros s ev r A J.
  - inversion A; subst. destruct J.
  - simpl in A. destruct (body s x) as [ev1 r1] eqn:Bx.
    apply Hb in Bx.
    assert (Head : In (note t c) ev1 ->
                   t = cur_time s /\ exists st, In (c, st) (x :: items)).
    { intros J1.
      assert (E : note (cur_time s) (fst x) = note t c).
      { destruct Bx as [(_ & _ & ->)
                       |(_ & [(_ & _ & ->)
                             |(? & ? & ? & _ & _ & _ & _ & _ & _ & _ & O)])].
        - destruct J1.
        - destruct J1 as [E|[E|[]]]; [exact E|now apply Hw in E].
        - destruct O as [(_ & _ & ->)|(_ & _ & ->)].
          + destruct J1 as [E|[E|[]]]; [exact E|now apply He in E].
          + destruct J1 as [E|[E|[E|[]]]];
              [exact E|now apply He in E|now apply Ha in E]. }
      apply Hinj in E as [<- <-]. split; [reflexivity|].
      exists (snd x). left. now destruct x. }
    destruct r1 as [s1|s1|e s1].
    + destruct (for_each body items s1) as [ev2 r2] eqn:R.
      inversion A; subst.
      apply in_app_or in J as [J|J]; [auto|].
      destruct (IH _ _ _ R J) as (T & st & I).
      split; [|exists st; now right].
      rewrite T.
      destruct Bx as [(_ & [=] & _)
                     |(_ & [(_ & [= ->] & _)
                           |(? & ? & s' & _ & _ & _ & _ & Et & _ & _ & O)])];
        [reflexivity|].
      destruct O as [(_ & [=] & _)|(_ & [= ->] & _)]. exact Et.
    + inversion A; subst. auto.
    + inversion A; subst. auto.
Qed.

(** A contact that is [LIVE] when the activation pass is over has not
    ended before the time of the tick. *)
Lemma live_after_activation args s t ev1 r1 c :
  uniq (contacts (cp s)) -> on_time s -> next_event s = Some t ->
  for_each (activate (session args)) (need_activation (cp s) t)
           (mkSched (cp s) t (links s) (rpc_calls s)) = (ev1, r1) ->
  In c (keys (contacts (cp s))) ->
  dict_get c (contacts (cp (state_of r1))) = Some LIVE ->
  t <= end_of c.
Proof.
  intros U O E P1 Kc G.
  destruct (next_event_some _ _ E) as (_ & _ & D).
  destruct (pass_state PrintActivating LIVE _ (activate_outcome _)
                       _ _ _ _ c P1) as [X|(_ & [c' st'] & J & Sm & _)].
  - simpl in X. rewrite X in G.
    assert (I : In (c, LIVE) (contacts (cp s))) by now apply in_of_get.
    apply D; [assumption|]. now apply O.
  - apply need_activation_in in J as (J & W & _).
    apply in_keys in Kc as (st0 & Ic). simpl in Sm.
    apply same_obj_oid in Sm.
    destruct (uniq_same_key _ _ _ _ _ U J Ic Sm) as [-> _]. lia.
Qed.

Lemma iteration_steady args s ev s' :
  steady s -> iteration args s = (ev, Go s') -> steady s'.
Proof.
  intros (S & O) A. pose proof (iteration_sound _ _ _ _ S A) as S'.
  split; [assumption|]. destruct S as (U & N & NO).
  destruct S' as (U' & _ & _).
  destruct (next_event s) as [t|] eqn:E.
  - sleep_cases E A Fit.
    destruct (tick_summary _ _ _ _ _ U E A) as (T & _ & _ & K & _).
    specialize (T Fit). simpl in T, K.
    destruct (iteration_tick _ _ _ _ _ E Fit A) as (ev1 & r1 & P1 & C).
    destruct C as [(s2 & ev2 & -> & T2 & P2 & ->)|(C & <- & _)];
      [|exfalso; eapply C; reflexivity].
    intros c I. rewrite T.
    pose proof (dict_get_in _ _ _ U' I) as G'.
    apply (live_after_activation args s t ev1 (Go s2) c U O E P1).
    + rewrite <- K. apply in_keys. eauto.
    + destruct (pass_state PrintDeactivating POST _ (deactivate_outcome _)
                           _ _ _ _ c P2) as [X|[X _]];
        simpl in X |- *; congruence.
  - rewrite (iteration_idle _ _ E) in A.
    destruct (loop (cp s) || truthy (loop_arg args));
      inversion A; subst; clear A.
    intros c I. simpl in I. apply reset_in in I; [discriminate|assumption].
Qed.

Lemma boot_steady (plan : CoreContactPlan) (ls : list Link) :
  uniq (contacts plan) -> nonneg_starts plan -> all_PRE plan ->
  steady (boot plan ls).
Proof.
  intros U N P. split; [now apply boot_sound|].
  intros c I. apply P in I. discriminate.
Qed.

(** What every iteration from a good loop head gives, every run gives. *)
Lemma run_invariant_go (Inv Fin : Sched -> Prop) (P : Event -> Prop) args :
  (forall s, Inv s -> Fin s) ->
  (forall s ev r,
      Inv s -> iteration args s = (ev, r) ->
      Forall P ev /\ Fin (state_of r) /\ forall s', r = Go s' -> Inv s') ->
  forall fuel s ev r,
    Inv s -> run fuel args s = (ev, r) ->
    Forall P ev /\ Fin (state_of r) /\ forall s', r = Go s' -> Inv s'.
Proof.
  intros IF Step. induction fuel as [|fuel IH]; intros s ev r I A.
  - inversion A; subst. split; [constructor|]. split; [now apply IF|].
    now intros s' [= <-].
  - apply run_succ in A as (ev1 & r1 & It & A).
    destruct (Step _ _ _ I It) as (F1 & Fi & I1).
    destruct A as [(s1 & ev2 & -> & A & ->)|(_ & -> & ->)]; [|auto].
    destruct (IH _ _ _ (I1 _ eq_refl) A) as (F2 & Fi2 & I2).
    split; [apply Forall_app; auto|auto].
Qed.

(** The iteration that takes the [break]. *)
Lemma run_stop (Inv : Sched -> Prop) args :
  (forall s ev s', Inv s -> iteration args s = (ev, Go s') -> Inv s') ->
  forall fuel s ev s',
    Inv s -> run fuel args s = (ev, Stop s') ->
    Inv s' /\ next_event s' = None /\ looping args (cp s') = false.
Proof.
  intros Step. induction fuel as [|fuel IH]; intros s ev s' I A;
    [discriminate|].
  apply run_succ in A as (ev1 & r1 & It & A).
  destruct A as [(s1 & ev2 & -> & A & ->)|(_ & _ & <-)].
  - eapply IH; [|exact A]. eapply Step; eauto.
  - destruct (iteration_cases _ _ _ _ It)
      as [(_ & _ & _ & X)
         |[(E & L & _ & X)
          |[(t & evs & _ & _ & _ & _ & _ & _ & _ & _ & NS)
           |(t & _ & _ & _ & _ & X)]]].
    + discriminate.
    + inversion X; subst. auto.
    + exfalso. eapply NS. reflexivity.
    + discriminate.
Qed.

Lemma tick_punctual args s ev r :
  steady s -> iteration args s = (ev, r) -> Forall punctual_event ev.
Proof.
  intros ((U & N & NO) & O) A.
  destruct (next_event s) as [t|] eqn:E.
  - destruct (next_event_some _ _ E) as (_ & A1 & _).
    sleep_cases E A Fit; [|repeat constructor].
    destruct (iteration_tick _ _ _ _ _ E Fit A) as (ev1 & r1 & P1 & C).
    assert (F1 : Forall punctual_event ev1).
    { apply Forall_forall. intros [] J; try exact I.
      - destruct (pass_announced
                    PrintActivating LIVE _ _ _ _ _ cur_time0 contact
                    (activate_outcome _)
                    ltac:(intros ? ? ? ? [= -> ->]; auto)
                    ltac:(discriminate) ltac:(discriminate)
                    ltac:(discriminate) P1 J) as (-> & st & Due).
        apply need_activation_in in Due as (I0 & W & ->). simpl.
        specialize (A1 contact I0 (NO contact I0)). simpl in W. lia.
      - pose proof (pass_phase PrintActivating LIVE _ (activate_outcome _)
                      activation_event
                      ltac:(reflexivity) ltac:(reflexivity)
                      ltac:(reflexivity) ltac:(reflexivity) _ _ _ _ P1) as Ph.
        rewrite Forall_forall in Ph. apply Ph in J. discriminate. }
    destruct C as [(s2 & ev2 & -> & T & P2 & ->)|(_ & _ & ->)].
    + pose proof (pass_frame PrintActivating LIVE _ (activate_outcome _)
                             _ _ _ _ (need_activation_present _ _) P1)
        as (_ & _ & _ & K1).
      simpl in K1.
      assert (U2 : uniq (contacts (cp s2))) by (eapply uniq_keys; eauto).
      constructor; [exact I|]. constructor; [exact I|].
      apply Forall_app. split; [exact F1|].
      apply Forall_forall. intros [] J; try exact I.
      * pose proof (pass_phase PrintDeactivating POST _
                      (deactivate_outcome _) deactivation_event
                      ltac:(reflexivity) ltac:(reflexivity)
                      ltac:(reflexivity) ltac:(reflexivity) _ _ _ _ P2) as Ph.
        rewrite Forall_forall in Ph. apply Ph in J. discriminate.
      * destruct (pass_announced
                    PrintDeactivating POST _ _ _ _ _ cur_time0 contact
                    (deactivate_outcome _)
                    ltac:(intros ? ? ? ? [= -> ->]; auto)
                    ltac:(discriminate) ltac:(discriminate)
                    ltac:(discriminate) P2 J) as (-> & st & Due).
        apply need_deactivation_in in Due as (I2 & W & ->). simpl.
        assert (G : t <= end_of contact).
        { apply (live_after_activation args s t ev1 (Go s2) contact U O E P1).
          - rewrite <- K1. apply in_keys. eauto.
          - simpl. now apply dict_get_in. }
        rewrite T. simpl in W. lia.
    + constructor; [exact I|]. constructor; [exact I|]. exact F1.
  - rewrite (iteration_idle _ _ E) in A.
    destruct (loop (cp s) || truthy (loop_arg args));
      inversion A; subst; repeat constructor.
Qed.

(** X13: in a run over a loaded plan whose start times are not negative,
    every activation is announced at the very start time of its contact
    and every deactivation at the very end time of its contact: the loop
    is never early and never late. *)
Theorem contacts_fire_exactly_at_their_start_and_end
        (args : Args) (plan : CoreContactPlan) (session_links : list Link)
        (fuel : nat) (ev : list Event) (r : Control) :
  uniq (contacts plan) -> nonneg_starts plan -> all_PRE plan ->
  run fuel args (boot plan session_links) = (ev, r) ->
  (forall t c, In (PrintActivating t c) ev -> t = fst (timespan c))
  /\ (forall t c, In (PrintDeactivating t c) ev -> t = snd (timespan c)).
Proof.
  intros U N P A.
  assert (Step : forall s0 ev0 r0,
             steady s0 -> iteration args s0 = (ev0, r0) ->
             Forall punctual_event ev0 /\ True
             /\ forall s', r0 = Go s' -> steady s').
  { intros s0 ev0 r0 S0 It.
    split; [now apply (tick_punctual args s0 ev0 r0)|].
    split; [exact I|]. intros s' ->. eapply iteration_steady; eauto. }
  destruct (run_invariant_go steady (fun _ => True) punctual_event args
              (fun _ _ => I) Step fuel _ ev r
              (boot_steady plan session_links U N P) A) as (F & _).
  rewrite Forall_forall in F.
  split; intros t c J; exact (F _ J).
Qed.

(** X14: a run over a loaded plan whose start times are not negative
    ends normally only when every contact of the plan is [POST] (and
    looping is off): the script does not print that there are no more
    events while a contact is still [PRE] or [LIVE]. *)
Theorem the_loop_ends_normally_only_when_all_contacts_are_POST
        (args : Args) (plan : CoreContactPlan) (session_links : list Link)
        (fuel : nat) (ev : list Event) (s' : Sched) :
  uniq (contacts plan) -> nonneg_starts plan -> all_PRE plan ->
  run fuel args (boot plan session_links) = (ev, Stop s') ->
  all_POST (cp s') /\ looping args plan = false.
Proof.
  intros U N P A.
  destruct (run_stop steady args (iteration_steady args) fuel _ ev s'
                     (boot_steady plan session_links U N P) A)
    as (((U' & N' & NO) & O) & E & L).
  split.
  - unfold next_event, next_event_of in E.
    destruct (next_activation _ _) eqn:NA; [destruct (next_deactivation _ _);
                                            discriminate|].
    destruct (next_deactivation _ _) eqn:ND; [discriminate|].
    intros c [| |] I; [exfalso|exfalso|reflexivity].
    + pose proof (next_activation_none _ _ NA c I). specialize (NO c I). lia.
    + pose proof (next_deactivation_none _ _ ND c I). specialize (O c I). lia.
  - destruct (run_frame args fuel _ ev _ A)
      as (_ & _ & _ & Lf).
    unfold looping in *. simpl in Lf. now rewrite <- Lf.
Qed.

End Punctuality.

Section Progress.
Context `{PyBuiltins} `{!CoreGrpcClient}.




(** *** Termination *)









End Progress.

(** ** What the controller is asked, and what becomes of the links *)

Section Calls.
Context `{PyBuiltins} `{!CoreGrpcClient}.

(** A [for] loop keeps what each pass through its body keeps. *)
Lemma for_each_keeps {A} (body : Sched -> A -> list Event * Control)
      (Inv : Sched -> Prop) (T : list Event -> Prop) (Good : A -> Prop) :
  T [] -> (forall a b, T a -> T b -> T (a ++ b)) ->
  (forall s x ev r,
      Inv s -> Good x -> body s x = (ev, r) -> T ev /\ Inv (state_of r)) ->
  forall items s ev r,
    Inv s -> Forall Good items -> for_each body items s = (ev, r) ->
    T ev /\ Inv (state_of r).
Proof.
  intros T0 Tapp Body. induction items as [|x items IH]; intros s ev r I G E.
  - inversion E; subst. auto.
  - inversion G as [|? ? Gx Gi]; subst. simpl in E.
    destruct (body s x) as [ev1 r1] eqn:B.
    destruct (Body _ _ _ _ I Gx B) as (T1 & I1).
    destruct r1 as [s1|s1|e s1]; try (inversion E; subst; auto; fail).
    destruct (for_each body items s1) as [ev2 r2] eqn:R.
    inversion E; subst. destruct (IH _ _ _ I1 Gi R). auto.
Qed.

(** An iteration keeps what the two loop bodies keep, when the lines it
    prints itself, the clock and the reset of the plan do not matter. *)
Lemma iteration_keeps args (Inv : Sched -> Prop) (T : list Event -> Prop)
      (Good : CoreContact -> Prop) :
  T [] -> (forall a b, T a -> T b -> T (a ++ b)) ->
  (forall a b, T [PrintNextEvent a b]) -> (forall n, T [Sleep n]) ->
  T [PrintLooping; CallReset] -> T [PrintNoMoreEvents] ->
  (forall s c st, Inv s -> In (c, st) (contacts (cp s)) -> Good c) ->
  (forall s t, Inv s -> Inv (mkSched (cp s) t (links s) (rpc_calls s))) ->
  (forall s, Inv s -> Inv (mkSched (reset (cp s)) 0 (links s) (rpc_calls s))) ->
  (forall s x ev r,
      Inv s -> Good (fst x) -> activate (session args) s x = (ev, r) ->
      T ev /\ Inv (state_of r)) ->
  (forall s x ev r,
      Inv s -> Good (fst x) -> deactivate (session args) s x = (ev, r) ->
      T ev /\ Inv (state_of r)) ->
  forall s ev r,
    Inv s -> iteration args s = (ev, r) -> T ev /\ Inv (state_of r).
Proof.
  intros T0 Tapp Tnext Tsleep Tloop Tend Mem Clock Again Act Deact s ev r I A.
  assert (Items : forall s' (f : CoreContactPlan -> Z ->
                                  list (CoreContact * ContactState)) t,
             Inv s' ->
             (forall it, In it (f (cp s') t) -> In it (contacts (cp s'))) ->
             Forall (fun it => Good (fst it)) (f (cp s') t)).
  { intros s' f t I' Sub. apply Forall_forall. intros [c st] J.
    eapply Mem; [exact I'|]. apply Sub in J. exact J. }
  assert (SubA : forall p t it, In it (need_activation p t) ->
                                In it (contacts p)).
  { intros p t [c st] J. now apply need_activation_in in J. }
  assert (SubD : forall p t it, In it (need_deactivation p t) ->
                                In it (contacts p)).
  { intros p t [c st] J. now apply need_deactivation_in in J. }
  unfold iteration in A.
  destruct (next_event_of _ _) as [t|].
  - destruct (sleep_fits (t - cur_time s)); cbn [negb] in A;
      [|inversion A; subst; auto].
    destruct (t - cur_time s <? 0).
    + inversion A; subst. auto.
    + set (s1 := mkSched (cp s) t (links s) (rpc_calls s)) in *.
      assert (I1 : Inv s1) by now apply Clock.
      destruct (for_each (activate (session args)) _ s1) as [ev1 r1] eqn:P1.
      destruct (for_each_keeps _ Inv T (fun it => Good (fst it)) T0 Tapp Act
                               _ _ _ _ I1 (Items s1 need_activation _ I1
                                                 (SubA _ _)) P1)
        as (T1 & I2).
      assert (Th : T [PrintNextEvent (cur_time s) t; Sleep (t - cur_time s)]).
      { apply (Tapp [_] [_]); auto. }
      destruct r1 as [s2|s2|e s2];
        try (inversion A; subst; split;
             [apply (Tapp [_; _] ev1); assumption|exact I2]; fail).
      destruct (for_each (deactivate (session args)) _ s2) as [ev2 r2] eqn:P2.
      simpl in I2.
      destruct (for_each_keeps _ Inv T (fun it => Good (fst it)) T0 Tapp Deact
                               _ _ _ _ I2 (Items s2 need_deactivation _ I2
                                                 (SubD _ _)) P2)
        as (T2 & I3).
      inversion A; subst. split; [|exact I3].
      apply (Tapp [_; _] (ev1 ++ ev2)); [exact Th|now apply Tapp].
  - destruct (loop (cp s) || truthy (loop_arg args));
      inversion A; subst; simpl; auto.
Qed.

Lemma run_keeps args (Inv : Sched -> Prop) (T : list Event -> Prop) :
  T [] -> (forall a b, T a -> T b -> T (a ++ b)) ->
  (forall s ev r,
      Inv s -> iteration args s = (ev, r) -> T ev /\ Inv (state_of r)) ->
  forall fuel s ev r,
    Inv s -> run fuel args s = (ev, r) -> T ev /\ Inv (state_of r).
Proof.
  intros T0 Tapp Step. induction fuel as [|fuel IH]; intros s ev r I A.
  - inversion A; subst. auto.
  - apply run_succ in A as (ev1 & r1 & It & A).
    destruct (Step _ _ _ I It) as (T1 & I1).
    destruct A as [(s1 & ev2 & -> & A & ->)|(_ & -> & ->)]; [|auto].
    destruct (IH _ _ _ I1 A). auto.
Qed.

(** *** The calls *)

Lemma calls_follow_any sess prev evs :
  calls_follow sess None evs -> calls_follow sess prev evs.
Proof.
  destruct evs as [|e evs]; simpl; [auto|].
  intros [C R]. split; [|exact R].
  destruct e; simpl in *; tauto.
Qed.

Lemma calls_follow_app sess a b :
  calls_follow sess None a -> calls_follow sess None b ->
  calls_follow sess None (a ++ b).
Proof.
  intros A B. generalize (@None Event) A. clear A.
  induction a as [|e a IH]; intros prev A; simpl in *.
  - now apply calls_follow_any.
  - destruct A as [C R]. split; [exact C|]. now apply IH.
Qed.

Lemma apply_link_calls sess s c i l f new note ev r :
  link_matches l (fst (nodes c)) (snd (nodes c)) = true ->
  call_follows sess (Some (note (cur_time s) c))
               (EditLink sess (mkLink (node1_id l) (node2_id l)
                                      (f (options l)))) ->
  apply_link sess s c (i, l) f new = (ev, r) ->
  calls_follow sess None (note (cur_time s) c :: ev).
Proof.
  intros M C A. unfold apply_link in A.
  assert (N : call_follows sess None (note (cur_time s) c)).
  { destruct (note (cur_time s) c) eqn:E; simpl; auto;
      simpl in C; destruct C as [_ []]. }
  destruct (edit_link _ _ _); inversion A; subst; simpl; auto.
Qed.

Lemma activate_calls sess s item ev r :
  activate sess s item = (ev, r) -> calls_follow sess None ev.
Proof.
  unfold activate. intros A.
  destruct (CoreContact_str _) as [[]|e0];
    [|inversion A; subst; exact I].
  destruct (find_link _ _ _) as [[i l]|] eqn:F.
  - destruct (apply_link _ _ _ _ _ _) as [ev' r'] eqn:P.
    inversion A; subst.
    destruct (find_link_some _ _ _ _ _ F) as (M & _).
    eapply (apply_link_calls sess s (fst item) i l _ LIVE PrintActivating);
      [exact M| |exact P].
    simpl. auto.
  - inversion A; subst. simpl. auto.
Qed.

Lemma deactivate_calls sess s item ev r :
  deactivate sess s item = (ev, r) -> calls_follow sess None ev.
Proof.
  unfold deactivate. intros A.
  destruct (CoreContact_str _) as [[]|e0];
    [|inversion A; subst; exact I].
  destruct (find_link _ _ _) as [[i l]|] eqn:F.
  - destruct (apply_link _ _ _ _ _ _) as [ev' r'] eqn:P.
    inversion A; subst.
    destruct (find_link_some _ _ _ _ _ F) as (M & _).
    eapply (apply_link_calls sess s (fst item) i l _ POST PrintDeactivating);
      [exact M| |exact P].
    simpl. auto.
  - inversion A; subst. simpl. auto.
Qed.

(** X17: every call of the controller in a run is made with the session
    id of the command line, right after the announcement of a contact,
    for a link between the two nodes of that contact; on activation the
    link carries the contact's bandwidth, delay, loss and jitter, on
    deactivation loss 100.  A contact's state is assigned only right after
    such a call. *)
Theorem every_controller_call_is_for_the_announced_contact
        (args : Args) (fuel : nat) (s : Sched)
        (ev : list Event) (r : Control) :
  run fuel args s = (ev, r) -> calls_follow (session args) None ev.
Proof.
  intros A.
  assert (Step : forall s0 ev0 r0,
             True -> iteration args s0 = (ev0, r0) ->
             calls_follow (session args) None ev0 /\ True).
  { intros s0 ev0 r0 _ It.
    apply (iteration_keeps args (fun _ => True)
                           (calls_follow (session args) None)
                           (fun _ => True)
                           I (calls_follow_app _)
                           (fun _ _ => conj I I) (fun _ => conj I I)
                           (conj I (conj I I)) (conj I I)
                           (fun _ _ _ _ _ => I) (fun _ _ _ => I)
                           (fun _ _ => I)) with (s := s0) (r := r0);
      [| |exact I|exact It].
    - intros s1 x ev1 r1 _ _ B. split; [|exact I].
      eapply activate_calls; eauto.
    - intros s1 x ev1 r1 _ _ B. split; [|exact I].
      eapply deactivate_calls; eauto. }
  exact (proj1 (run_keeps args (fun _ => True)
                          (calls_follow (session args) None)
                          I (calls_follow_app _) Step fuel s ev r I A)).
Qed.

(** *** The links *)

Lemma tuned_refl plan l : tuned plan l l.
Proof. split; [reflexivity|]. split; [reflexivity|]. exists (options l). auto. Qed.

Lemma store_related {X} (R : X -> Link -> Prop) xs ys i y y' :
  Forall2 R xs ys -> nth_error ys i = Some y ->
  (forall x, R x y -> R x y') ->
  Forall2 R xs (store i y' ys).
Proof.
  intros F. revert i. induction F as [|x0 y0 xs ys R0 F IH]; intros i N St.
  - destruct i; discriminate.
  - destruct i as [|i]; simpl in *.
    + inversion N; subst. constructor; auto.
    + constructor; auto.
Qed.

Lemma tuned_ids plan l0 l a b :
  tuned plan l0 l -> link_matches l a b = link_matches l0 a b.
Proof. intros (E1 & E2 & _). unfold link_matches. now rewrite E1, E2. Qed.

Lemma blocked_twice (o : LinkOptions) :
  blocked_options (blocked_options o) = blocked_options o.
Proof. reflexivity. Qed.

Section LinkInvariant.
Variables (plan0 : CoreContactPlan) (links0 : list Link).

Lemma apply_link_kept sess s c i l f new ev r :
  kept plan0 links0 s -> known plan0 c ->
  find_link (links s) (fst (nodes c)) (snd (nodes c)) = Some (i, l) ->
  (forall l0, tuned plan0 l0 l ->
              link_matches l0 (fst (nodes c)) (snd (nodes c)) = true ->
              tuned plan0 l0 (mkLink (node1_id l) (node2_id l)
                                     (f (options l)))) ->
  apply_link sess s c (i, l) f new = (ev, r) ->
  kept plan0 links0 (state_of r).
Proof.
  intros [K L] Kn F Tn A. unfold apply_link in A.
  destruct (find_link_first _ _ _ _ _ F) as (N & M & _).
  assert (L' : Forall2 (tuned plan0) links0
                       (store i (mkLink (node1_id l) (node2_id l)
                                        (f (options l))) (links s))).
  { eapply store_related; [exact L|exact N|].
    intros l0 T0. apply Tn; [exact T0|].
    now rewrite <- (tuned_ids _ _ _ _ _ T0). }
  destruct (edit_link _ _ _); inversion A; subst; simpl; split; auto.
  unfold with_cp. cbn [cp contacts].
  rewrite keys_dict_set_present; [exact K|].
  apply key_present. rewrite K. exact Kn.
Qed.

Lemma activate_kept sess s item ev r :
  kept plan0 links0 s -> known plan0 (fst item) ->
  activate sess s item = (ev, r) -> kept plan0 links0 (state_of r).
Proof.
  unfold activate. intros Ks Kn A.
  destruct (CoreContact_str _) as [[]|e0];
    [|inversion A; subst; exact Ks].
  destruct (find_link _ _ _) as [[i l]|] eqn:F.
  - destruct (apply_link _ _ _ _ _ _) as [ev' r'] eqn:P.
    inversion A; subst.
    eapply apply_link_kept; [exact Ks|exact Kn|exact F| |exact P].
    intros l0 (E1 & E2 & _) M. split; [exact E1|]. split; [exact E2|].
    exists (options_of (fst item)). split; [|now left].
    right. exists (fst item). auto.
  - inversion A; subst. exact Ks.
Qed.

Lemma deactivate_kept sess s item ev r :
  kept plan0 links0 s -> known plan0 (fst item) ->
  deactivate sess s item = (ev, r) -> kept plan0 links0 (state_of r).
Proof.
  unfold deactivate. intros Ks Kn A.
  destruct (CoreContact_str _) as [[]|e0];
    [|inversion A; subst; exact Ks].
  destruct (find_link _ _ _) as [[i l]|] eqn:F.
  - destruct (apply_link _ _ _ _ _ _) as [ev' r'] eqn:P.
    inversion A; subst.
    eapply apply_link_kept; [exact Ks|exact Kn|exact F| |exact P].
    intros l0 (E1 & E2 & o & O & [E|E]) _;
      (split; [exact E1|]); (split; [exact E2|]);
      exists o; (split; [exact O|]); right; simpl; rewrite E;
      [reflexivity|apply blocked_twice].
  - inversion A; subst. exact Ks.
Qed.

Lemma run_kept args fuel s ev r :
  kept plan0 links0 s -> run fuel args s = (ev, r) ->
  kept plan0 links0 (state_of r).
Proof.
  intros Ks A.
  assert (Step : forall s0 ev0 r0,
             kept plan0 links0 s0 -> iteration args s0 = (ev0, r0) ->
             True /\ kept plan0 links0 (state_of r0)).
  { intros s0 ev0 r0 K0 It.
    apply (iteration_keeps args (kept plan0 links0) (fun _ => True)
                           (known plan0)
                           I (fun _ _ _ _ => I)
                           (fun _ _ => I) (fun _ => I) I I)
      with (s := s0) (ev := ev0); [| | | | |exact K0|exact It].
    - intros s1 c st [K1 _] J. unfold known. rewrite <- K1.
      apply in_keys. eauto.
    - intros s1 t K1. exact K1.
    - intros s1 [K1 L1]. split; [|exact L1].
      cbn [cp]. now rewrite reset_keys.
    - intros s1 x ev1 r1 K1 Kn B. split; [exact I|].
      eapply activate_kept; eauto.
    - intros s1 x ev1 r1 K1 Kn B. split; [exact I|].
      eapply deactivate_kept; eauto. }
  exact (proj2 (run_keeps args (kept plan0 links0) (fun _ => True)
                          I (fun _ _ _ _ => I) Step fuel s ev r Ks A)).
Qed.

End LinkInvariant.

Lemma Forall2_refl_on {X} (R : X -> X -> Prop) xs :
  (forall x, R x x) -> Forall2 R xs xs.
Proof. intros Rf. induction xs; constructor; auto. Qed.

(** X18: the script never puts the options of a link back.  Whatever a
    run does and however it ends, every link of the session joins the
    nodes it joined, and its options are the ones it had when the run
    began or the bandwidth, delay, loss and jitter of a contact of the
    plan between its nodes, either as they are or with loss 100: after a
    deactivation the link keeps the bandwidth, delay and jitter of the
    last activation. *)
Theorem link_options_come_from_contacts_and_are_never_restored
        (args : Args) (fuel : nat) (s : Sched)
        (ev : list Event) (r : Control) :
  run fuel args s = (ev, r) ->
  Forall2 (tuned (cp s)) (links s) (links (state_of r)).
Proof.
  intros A.
  apply (run_kept (cp s) (links s) args fuel s ev r); [|exact A].
  split; [reflexivity|]. apply Forall2_refl_on. apply tuned_refl.
Qed.

End Calls.


(** ** A contact of length zero *)

Section Instant.
Context `{PyBuiltins} `{!CoreGrpcClient}.

(** X19: a contact whose end is its start is activated and deactivated
    in one and the same iteration.  The deactivation pass reads the plan
    after the activation pass has written to it, so when the iteration
    for that time runs to its end and the contact has a link, the contact
    is announced for activation, then for deactivation, both at that
    time, and is [POST] at the next loop head. *)
Theorem a_contact_that_ends_when_it_starts_is_live_for_no_time
        (args : Args) (s s' : Sched) (t : Z) (ev : list Event)
        (c : CoreContact) :
  uniq (contacts (cp s)) ->
  next_event s = Some t ->
  iteration args s = (ev, Go s') ->
  In (c, PRE) (contacts (cp s)) ->
  start_of c = t -> end_of c = t ->
  has_link (links s) c = true ->
  exists acts deacts,
    ev = [PrintNextEvent (cur_time s) t; Sleep (t - cur_time s)]
           ++ acts ++ deacts
    /\ In (PrintActivating t c) acts
    /\ In (PrintDeactivating t c) deacts
    /\ In (c, POST) (contacts (cp s')).
Proof.
  intros U E A I St En L.
  destruct (tick_summary _ _ _ _ _ U E A) as (_ & _ & _ & K & _).
  sleep_cases E A Fit.
  destruct (iteration_tick _ _ _ _ _ E Fit A) as (ev1 & r1 & P1 & C).
  destruct C as [(s2 & ev2 & -> & T2 & P2 & ->)|(C & <- & _)];
    [|exfalso; eapply C; reflexivity].
  pose proof (pass_frame PrintActivating LIVE _ (activate_outcome _)
                         _ _ _ _ (need_activation_present _ _) P1)
    as (_ & _ & N1 & K1).
  simpl in K, N1, K1.
  assert (Due : In (c, PRE) (need_activation (cp s) t)).
  { apply need_activation_in. repeat split; auto; lia. }
  pose proof (pass_done PrintActivating LIVE _ (activate_outcome _)
                        _ _ _ _ (c, PRE) P1 Due L) as D.
  pose proof (pass_notes PrintActivating LIVE _ (activate_outcome _)
                         _ _ _ _ (c, PRE) P1 Due) as (Na & _).
  simpl in D, Na.
  assert (U2 : uniq (contacts (cp s2))) by (eapply uniq_keys; eauto).
  assert (I2 : In (c, LIVE) (contacts (cp s2))).
  { apply in_of_get; auto. rewrite K1. apply in_keys. eauto. }
  assert (Due2 : In (c, LIVE) (need_deactivation (cp s2) t)).
  { apply need_deactivation_in. repeat split; auto. lia. }
  assert (L2 : has_link (links s2) c = true).
  { rewrite <- L. now apply has_link_node_ids. }
  pose proof (pass_done PrintDeactivating POST _ (deactivate_outcome _)
                        _ _ _ _ (c, LIVE) P2 Due2 L2) as D2.
  pose proof (pass_notes PrintDeactivating POST _ (deactivate_outcome _)
                         _ _ _ _ (c, LIVE) P2 Due2) as (Nd & _).
  simpl in D2, Nd. rewrite T2 in Nd.
  exists ev1, ev2. split; [reflexivity|]. split; [exact Na|].
  split; [exact Nd|].
  apply in_of_get; auto.
  - eapply uniq_keys; eauto.
  - rewrite K. apply in_keys. eauto.
Qed.

End Instant.


(** ** What becomes of a controller call *)

Section Failures.
Context `{PyBuiltins} `{!CoreGrpcClient}.

Lemma calls_app a b : calls (a ++ b) = (calls a + calls b)%nat.
Proof. unfold calls. now rewrite filter_app, length_app. Qed.

Lemma calls_other e evs : is_call e = false -> calls (e :: evs) = calls evs.
Proof. unfold calls. simpl. now intros ->. Qed.

Lemma calls_none evs :
  (forall e, In e evs -> is_call e = false) -> calls evs = 0%nat.
Proof.
  induction evs as [|e evs IH]; intros N; [reflexivity|].
  rewrite calls_other by (apply N; now left).
  apply IH. intros e' J. apply N. now right.
Qed.

(** A trace without calls. *)
Lemma no_calls_answered n evs r :
  (forall e, In e evs -> is_call e = false) -> calls_answered n evs r.
Proof.
  intros N ev0 sess l rest ->.
  discriminate (N (EditLink sess l) (in_elt _ _ _)).
Qed.

(** One piece of the loop after another. *)
Lemma calls_answered_seq n ev1 s1 ev2 r :
  calls_answered n ev1 (Go s1) ->
  calls_answered (n + calls ev1) ev2 r ->
  calls_answered n (ev1 ++ ev2) r.
Proof.
  intros A1 A2 ev0 sess l rest E.
  apply app_eq_app in E as (m & [(E1 & E2)|(E1 & E2)]).
  - destruct m as [|x m].
    + rewrite app_nil_r in E1. subst ev0. simpl in E2.
      specialize (A2 [] sess l rest (eq_sym E2)). simpl in A2.
      now rewrite Nat.add_0_r in A2.
    + simpl in E2. inversion E2; subst x rest. subst ev1.
      specialize (A1 ev0 sess l m eq_refl).
      destruct (edit_link (n + calls ev0) sess l).
      * destruct A1 as (c & st & rest' & ->). exists c, st, (rest' ++ ev2).
        reflexivity.
      * destruct A1 as (_ & s' & [=]).
  - subst ev0. specialize (A2 m sess l rest E2).
    now rewrite calls_app, Nat.add_assoc.
Qed.

(** One pass through a loop body. *)
Lemma body_answered note new s c ev r :
  (forall t c, is_call (note t c) = false) ->
  body_outcome note new s c ev r ->
  calls_answered (rpc_calls s) ev r
  /\ rpc_calls (state_of r) = (rpc_calls s + calls ev)%nat.
Proof.
  intros Nn.
  assert (Nc : forall t c sess l, note t c <> EditLink sess l).
  { intros t k sess l E. specialize (Nn t k). now rewrite E in Nn. }
  intros [(_ & -> & ->)
         |(_ & [(_ & -> & ->)
               |(sess & l & s1 & _ & _ & _ & _ & _ & _ & Ec & O)])].
  - split; [|unfold calls; simpl; lia]. apply no_calls_answered. intros e [].
  - split.
    + apply no_calls_answered. intros e [<-|[<-|[]]]; auto.
    + rewrite calls_none; [unfold calls; simpl; lia|]. intros e [<-|[<-|[]]]; auto.
  - destruct O as [(F & -> & ->)|((b & F) & -> & ->)].
    + split.
      * intros [|a [|a' [|? ?]]] sess' l' rest E; inversion E; subst.
        -- now apply Nc in H2.
        -- rewrite calls_other by apply Nn. simpl calls.
           rewrite Nat.add_0_r, F. eauto.
      * rewrite calls_other by apply Nn. unfold calls. simpl. lia.
    + split.
      * intros [|a [|a' [|? ?]]] sess' l' rest E; inversion E; subst.
        -- now apply Nc in H2.
        -- rewrite calls_other by apply Nn. simpl calls.
           rewrite Nat.add_0_r, F. eauto.
        -- destruct l0; discriminate.
      * rewrite calls_other by apply Nn. unfold calls. simpl. lia.
Qed.

(** A whole pass. *)
Lemma pass_answered note new
      (body : Sched -> CoreContact * ContactState -> list Event * Control)
      items s ev r :
  (forall t c, is_call (note t c) = false) ->
  (forall s item ev r,
      body s item = (ev, r) -> body_outcome note new s (fst item) ev r) ->
  for_each body items s = (ev, r) ->
  calls_answered (rpc_calls s) ev r
  /\ rpc_calls (state_of r) = (rpc_calls s + calls ev)%nat.
Proof.
  intros Nn Hb. revert s ev r.
  induction items as [|x items IH]; intros s ev r A.
  - inversion A; subst. split; [|unfold calls; simpl; lia].
    apply no_calls_answered. intros e [].
  - simpl in A. destruct (body s x) as [ev1 r1] eqn:Bx.
    apply Hb in Bx. apply (body_answered _ _ _ _ _ _ Nn) in Bx as (A1 & C1).
    destruct r1 as [s1|s1|e s1]; try (inversion A; subst; auto; fail).
    destruct (for_each body items s1) as [ev2 r2] eqn:R.
    inversion A; subst. destruct (IH _ _ _ R) as (A2 & C2).
    simpl in C1. rewrite C1 in A2, C2. split.
    + eapply calls_answered_seq; eauto.
    + rewrite C2, calls_app. lia.
Qed.

Lemma iteration_answered args s ev r :
  iteration args s = (ev, r) ->
  calls_answered (rpc_calls s) ev r
  /\ rpc_calls (state_of r) = (rpc_calls s + calls ev)%nat.
Proof.
  intros A. destruct (next_event s) as [t|] eqn:E.
  - sleep_cases E A Fit.
    2:{ split; [|unfold calls; simpl; lia]. apply no_calls_answered.
        intros e [<-|[]]. reflexivity. }
    destruct (iteration_tick _ _ _ _ _ E Fit A) as (ev1 & r1 & P1 & C).
    destruct (pass_answered PrintActivating LIVE _ _ _ _ _
                            ltac:(reflexivity) (activate_outcome _) P1)
      as (A1 & C1).
    simpl in A1, C1.
    assert (Head : forall evs r0,
               calls_answered (rpc_calls s) evs r0 ->
               calls_answered
                 (rpc_calls s)
                 ([PrintNextEvent (cur_time s) t; Sleep (t - cur_time s)]
                    ++ evs) r0).
    { intros evs r0 X.
      apply (calls_answered_seq _ _ s).
      - apply no_calls_answered. intros e [<-|[<-|[]]]; reflexivity.
      - replace (rpc_calls s
                 + calls [PrintNextEvent (cur_time s) t;
                          Sleep (t - cur_time s)])%nat
          with (rpc_calls s) by (unfold calls; simpl; lia).
        exact X. }
    destruct C as [(s2 & ev2 & -> & T & P2 & ->)|(_ & -> & ->)].
    + destruct (pass_answered PrintDeactivating POST _ _ _ _ _
                              ltac:(reflexivity) (deactivate_outcome _) P2)
        as (A2 & C2).
      simpl in C1. rewrite C1 in A2, C2. split.
      * apply Head. eapply calls_answered_seq; eauto.
      * rewrite C2. cbn [app]. rewrite !calls_other by reflexivity.
        rewrite calls_app. lia.
    + split; [now apply Head|].
      rewrite C1. cbn [app]. now rewrite !calls_other by reflexivity.
  - rewrite (iteration_idle _ _ E) in A.
    destruct (loop (cp s) || truthy (loop_arg args));
      inversion A; subst; (split; [|unfold calls; simpl; lia]);
      apply no_calls_answered.
    + intros e [<-|[<-|[]]]; reflexivity.
    + intros e [<-|[]]. reflexivity.
Qed.

Lemma run_answered fuel args s ev r :
  run fuel args s = (ev, r) ->
  calls_answered (rpc_calls s) ev r
  /\ rpc_calls (state_of r) = (rpc_calls s + calls ev)%nat.
Proof.
  revert s ev r. induction fuel as [|fuel IH]; intros s ev r A.
  - inversion A; subst. split; [|unfold calls; simpl; lia].
    apply no_calls_answered. intros e [].
  - apply run_succ in A as (ev1 & r1 & It & A).
    destruct (iteration_answered _ _ _ _ It) as (A1 & C1).
    destruct A as [(s1 & ev2 & -> & A & ->)|(_ & -> & ->)]; [|auto].
    destruct (IH _ _ _ A) as (A2 & C2).
    simpl in C1. rewrite C1 in A2, C2. split.
    + eapply calls_answered_seq; eauto.
    + rewrite C2, calls_app. lia.
Qed.

(** C5, as the code has it: a controller call that raises is not caught.
    In any run, of any length and from any state, a call the controller
    fails is the last event of the trace: nothing is logged after it,
    the contact it was made for is not assigned its new state, no other
    contact is attempted, control leaves the loop with the [RpcError],
    and more iterations are never made.  A call that returns is followed
    by the assignment of the new state whatever its result flag.  The
    plan is not rolled back: however the run ends, every contact is in
    the state that the assignments made before have led it to.  And a
    run that has died of [RpcError] has died of the call that is the
    last event of its trace. *)
Theorem failed_controller_call_ends_the_loop
        (args : Args) (fuel : nat) (s : Sched) (ev : list Event)
        (r : Control) :
  uniq (contacts (cp s)) ->
  run fuel args s = (ev, r) ->
  (forall ev0 sess l rest,
      ev = ev0 ++ EditLink sess l :: rest ->
      match edit_link (rpc_calls s + calls ev0) sess l with
      | Failed =>
          rest = []
          /\ (exists s', r = Crash RpcError s')
          /\ forall more, run (fuel + more) args s = (ev, r)
      | Replied _ => exists c st rest', rest = Assign c st :: rest'
      end)
  /\ (forall c st,
         In (c, st) (contacts (cp s)) ->
         exists st', replay c st ev = Some st'
                     /\ In (c, st') (contacts (cp (state_of r))))
  /\ (forall s',
         r = Crash RpcError s' ->
         exists ev0 sess l,
           ev = ev0 ++ [EditLink sess l]
           /\ edit_link (rpc_calls s + calls ev0) sess l = Failed).
Proof.
  intros U A. destruct (run_answered _ _ _ _ _ A) as (Ans & Cnt).
  split; [|split].
  - intros ev0 sess l rest E. specialize (Ans ev0 sess l rest E).
    destruct (edit_link _ sess l); [exact Ans|].
    destruct Ans as (-> & s' & ->).
    split; [reflexivity|]. split; [eauto|].
    intros more. apply run_over; [exact A|discriminate].
  - intros c st I.
    destruct (run_replay _ _ _ _ _ U A) as (K & R).
    pose proof (dict_get_in _ _ _ U I) as G.
    rewrite (R _ _ G).
    assert (Kc : In c (keys (contacts (cp (state_of r))))).
    { rewrite K. apply in_keys. eauto. }
    destruct (dict_get c (contacts (cp (state_of r)))) as [st'|] eqn:G';
      [|now apply key_present in Kc].
    exists st'. split; [reflexivity|].
    apply in_of_get; auto. eapply uniq_keys; eauto.
  - intros s' ->.
    destruct (run_crash _ _ _ _ _ _ A)
      as [(_ & ev0 & sess & l & -> & F)|[([=] & _)|([=] & _)]].
    exists ev0, sess, l. split; [reflexivity|].
    simpl in Cnt. rewrite Cnt in F. rewrite calls_app in F.
    replace (pred (rpc_calls s + (calls ev0 + calls [EditLink sess l])))
      with (rpc_calls s + calls ev0)%nat in F by (unfold calls; simpl; lia).
    exact F.
Qed.

End Failures.


(** ** What a tick attempts *)

Section Attempts.
Context `{PyBuiltins} `{!CoreGrpcClient}.

(** A pass that runs to its end has dealt with each of its items. *)
Lemma pass_attempts note new
      (body : Sched -> CoreContact * ContactState -> list Event * Control)
      items s ev s' it :
  (forall s item ev r,
      body s item = (ev, r) -> body_outcome note new s (fst item) ev r) ->
  for_each body items s = (ev, Go s') ->
  In it items ->
  exists before after,
    if has_link (links s) (fst it)
    then exists sess l,
        ev = before
               ++ [note (cur_time s) (fst it); EditLink sess l;
                   Assign (fst it) new]
               ++ after
    else ev = before
                ++ [note (cur_time s) (fst it);
                    PrintWarning (fst (nodes (fst it)))
                                 (snd (nodes (fst it)))]
                ++ after.
Proof.
  intros Hb. revert s ev.
  induction items as [|x items IH]; intros s ev A J; [destruct J|].
  simpl in A. destruct (body s x) as [ev1 r1] eqn:Bx. apply Hb in Bx.
  assert (Later : forall s1 ev2,
             r1 = Go s1 -> cur_time s1 = cur_time s ->
             node_ids (links s1) = node_ids (links s) ->
             for_each body items s1 = (ev2, Go s') ->
             In it items ->
             exists before after,
               if has_link (links s) (fst it)
               then exists sess l,
                   ev1 ++ ev2
                   = before
                       ++ [note (cur_time s) (fst it); EditLink sess l;
                           Assign (fst it) new]
                       ++ after
               else ev1 ++ ev2
                    = before
                        ++ [note (cur_time s) (fst it);
                            PrintWarning (fst (nodes (fst it)))
                                         (snd (nodes (fst it)))]
                        ++ after).
  { intros s1 ev2 _ T N R J'.
    destruct (IH _ _ R J') as (before & after & X).
    rewrite T, (has_link_node_ids _ _ (fst it) N) in X.
    exists (ev1 ++ before), after.
    destruct (has_link (links s) (fst it)).
    - destruct X as (sess & l & ->). exists sess, l.
      now rewrite app_assoc.
    - rewrite X. now rewrite app_assoc. }
  destruct Bx as [(_ & -> & ->)
                 |(_ & [(N & -> & ->)
                       |(sess & l & s1 & L1 & _ & _ & _ & Et & En & _ & O)])].
  - discriminate.
  - destruct (for_each body items s) as [ev2 r2] eqn:R.
    inversion A; subst. destruct J as [->|J].
    + exists [], ev2. rewrite N. reflexivity.
    + now apply (Later s ev2).
  - destruct O as [(_ & -> & ->)|(_ & -> & ->)]; [discriminate|].
    destruct (for_each body items _) as [ev2 r2] eqn:R.
    inversion A; subst. destruct J as [->|J].
    + exists [], ev2. rewrite L1. exists sess, l. reflexivity.
    + eapply Later; [reflexivity| | |exact R|exact J]; simpl; assumption.
Qed.

Lemma calls_follow_adjacent sess prev before x y rest :
  calls_follow sess prev (before ++ x :: y :: rest) ->
  call_follows sess (Some x) y.
Proof.
  revert prev. induction before as [|e before IH]; intros prev; simpl.
  - intros (_ & C & _). exact C.
  - intros (_ & C). eapply IH. exact C.
Qed.

Lemma pass_follows sess
      (body : Z -> Sched -> CoreContact * ContactState -> list Event * Control)
      items s ev r :
  (forall s x ev r, body sess s x = (ev, r) -> calls_follow sess None ev) ->
  for_each (body sess) items s = (ev, r) ->
  calls_follow sess None ev.
Proof.
  intros Hc P.
  refine (proj1 (for_each_keeps (body sess) (fun _ => True)
                                (calls_follow sess None) (fun _ => True)
                                I (calls_follow_app _) _
                                items s ev r I _ P)).
  - intros s0 x ev0 r0 _ _ B. split; [eapply Hc; eauto|exact I].
  - apply Forall_forall. auto.
Qed.

(** The activation pass and a contact it was given. *)
Lemma activation_attempted sess items s ev s' c st :
  for_each (activate sess) items s = (ev, Go s') ->
  In (c, st) items ->
  attempted sess (PrintActivating (cur_time s) c) c LIVE
            (has_link (links s) c) (fun l => options l = options_of c) ev.
Proof.
  intros P J.
  destruct (pass_attempts PrintActivating LIVE _ _ _ _ _ (c, st)
                          (activate_outcome _) P J) as (before & after & X).
  simpl in X. exists before, after.
  destruct (has_link (links s) c); [|exact X].
  destruct X as (sess' & l & ->).
  pose proof (pass_follows sess activate _ _ _ _
                           (fun s x ev r => activate_calls sess s x ev r) P)
    as F.
  apply calls_follow_adjacent in F. simpl in F.
  destruct F as (-> & M & O). exists l. auto.
Qed.

(** The deactivation pass and a contact it was given. *)
Lemma deactivation_attempted sess items s ev s' c st :
  for_each (deactivate sess) items s = (ev, Go s') ->
  In (c, st) items ->
  attempted sess (PrintDeactivating (cur_time s) c) c POST
            (has_link (links s) c)
            (fun l => opt_loss (options l) = PyInt 100) ev.
Proof.
  intros P J.
  destruct (pass_attempts PrintDeactivating POST _ _ _ _ _ (c, st)
                          (deactivate_outcome _) P J)
    as (before & after & X).
  simpl in X. exists before, after.
  destruct (has_link (links s) c); [|exact X].
  destruct X as (sess' & l & ->).
  pose proof (pass_follows sess deactivate _ _ _ _
                           (fun s x ev r => deactivate_calls sess s x ev r) P)
    as F.
  apply calls_follow_adjacent in F. simpl in F.
  destruct F as (-> & M & O). exists l. auto.
Qed.

(** C6: in an iteration with an event at time [t], the trace is the
    announcement and the sleep, then the events of the activation pass,
    then those of the deactivation pass, so every activation comes
    before every deactivation of that time (an iteration that dies in
    [time.sleep] has no pass at all).  If the iteration runs to its end,
    the clock stands at [t] and every transition due has been attempted.
    Each contact due for activation has been announced in the activation
    pass and then, if it has a link, the controller has been called with
    the session id for a link between its nodes that carries the
    contact's four values, and [LIVE] has been assigned; if it has no
    link, the warning has been logged and the contact is still [PRE].
    Each contact due for deactivation, be it [LIVE] from before with its
    end reached or just activated with its end at [t], has been
    announced in the deactivation pass and then, if it has a link, the
    controller has been called for a link between its nodes with loss
    100, and the contact is [POST]; if it has no link, the warning has
    been logged and the contact is still [LIVE].  The plan is arbitrary,
    so this holds for every order of its contacts. *)
Theorem activations_precede_deactivations_and_all_due_fire
        (args : Args) (s : Sched) (t : Z) (ev : list Event) (r : Control) :
  uniq (contacts (cp s)) ->
  next_event s = Some t ->
  iteration args s = (ev, r) ->
  exists head acts deacts,
    ev = head ++ acts ++ deacts
    /\ (head = [PrintNextEvent (cur_time s) t; Sleep (t - cur_time s)]
        \/ (head = [PrintNextEvent (cur_time s) t]
            /\ acts = [] /\ deacts = []
            /\ r = Crash OverflowError_sleep s))
    /\ Forall (fun e => activation_event e = true) acts
    /\ Forall (fun e => deactivation_event e = true) deacts
    /\ forall s',
        r = Go s' ->
        cur_time s' = t
        /\ (forall c st,
               In (c, st) (need_activation (cp s) t) ->
               attempted (session args) (PrintActivating t c) c LIVE
                         (has_link (links s) c)
                         (fun l => options l = options_of c) acts
               /\ (has_link (links s) c = false ->
                   In (c, PRE) (contacts (cp s')))
               /\ (has_link (links s) c = true ->
                   t < snd (timespan c) ->
                   In (c, LIVE) (contacts (cp s')))
               /\ (has_link (links s) c = true ->
                   snd (timespan c) <= t ->
                   attempted (session args) (PrintDeactivating t c) c POST
                             true
                             (fun l => opt_loss (options l) = PyInt 100)
                             deacts
                   /\ In (c, POST) (contacts (cp s'))))
        /\ (forall c,
               In (c, LIVE) (contacts (cp s)) -> snd (timespan c) <= t ->
               attempted (session args) (PrintDeactivating t c) c POST
                         (has_link (links s) c)
                         (fun l => opt_loss (options l) = PyInt 100) deacts
               /\ In (c, if has_link (links s) c then POST else LIVE)
                     (contacts (cp s'))).
Proof.
  intros U E A.
  sleep_cases E A Fit.
  2:{ exists [PrintNextEvent (cur_time s) t], [], [].
      split; [reflexivity|]. split; [right; auto|].
      split; [constructor|]. split; [constructor|]. discriminate. }
  destruct (tick_summary _ _ _ _ _ U E A) as (T & _ & _ & K & _).
  specialize (T Fit).
  destruct (iteration_tick _ _ _ _ _ E Fit A) as (ev1 & r1 & P1 & C).
  pose proof (pass_phase PrintActivating LIVE _ (activate_outcome _)
                activation_event
                ltac:(reflexivity) ltac:(reflexivity) ltac:(reflexivity)
                ltac:(reflexivity) _ _ _ _ P1) as Ph1.
  exists [PrintNextEvent (cur_time s) t; Sleep (t - cur_time s)], ev1.
  destruct C as [(s2 & ev2 & -> & T2 & P2 & ->)|(C & <- & ->)].
  2:{ exists []. rewrite app_nil_r.
      split; [reflexivity|]. split; [now left|]. split; [assumption|].
      split; [constructor|]. intros s' ->. exfalso. eapply C. reflexivity. }
  pose proof (pass_phase PrintDeactivating POST _ (deactivate_outcome _)
                deactivation_event
                ltac:(reflexivity) ltac:(reflexivity) ltac:(reflexivity)
                ltac:(reflexivity) _ _ _ _ P2) as Ph2.
  exists ev2.
  split; [reflexivity|]. split; [now left|].
  split; [assumption|]. split; [assumption|].
  intros s' ->. simpl in T, K.
  pose proof (pass_frame PrintActivating LIVE _ (activate_outcome _)
                         _ _ _ _ (need_activation_present _ _) P1)
    as (_ & _ & N1 & K1).
  pose proof (pass_frame PrintDeactivating POST _ (deactivate_outcome _)
                         _ _ _ _ (need_deactivation_present _ _) P2)
    as (_ & _ & N2 & K2).
  simpl in N1, K1, N2, K2.
  assert (U2 : uniq (contacts (cp s2))) by (eapply uniq_keys; eauto).
  assert (U' : uniq (contacts (cp s'))) by (eapply uniq_keys; eauto).
  assert (Lk2 : forall c, has_link (links s2) c = has_link (links s) c).
  { intros c. now apply has_link_node_ids. }
  (* a contact that is LIVE after the first pass and has ended *)
  assert (Off : forall c, In c (keys (contacts (cp s))) ->
                          dict_get c (contacts (cp s2)) = Some LIVE ->
                          end_of c <= t ->
                          attempted (session args) (PrintDeactivating t c)
                                    c POST (has_link (links s) c)
                                    (fun l => opt_loss (options l)
                                              = PyInt 100) ev2
                          /\ In (c, if has_link (links s) c
                                    then POST else LIVE)
                                (contacts (cp s'))).
  { intros c Kc G W.
    assert (I2 : In (c, LIVE) (contacts (cp s2))).
    { apply in_of_get; auto. now rewrite K1. }
    assert (Due : In (c, LIVE) (need_deactivation (cp s2) t))
      by (apply need_deactivation_in; auto).
    pose proof (deactivation_attempted _ _ _ _ _ _ _ P2 Due) as At.
    rewrite T2, Lk2 in At. split; [exact At|].
    apply in_of_get; auto; [now rewrite K|].
    destruct (has_link (links s) c) eqn:L.
    - apply (pass_done PrintDeactivating POST _ (deactivate_outcome _)
                       _ _ _ _ (c, LIVE) P2 Due).
      simpl. now rewrite Lk2.
    - apply (linkless_untouched
               PrintDeactivating POST (deactivate (session args))
               (need_deactivation (cp s2) t) s2 ev2 (Go s') c LIVE
               (deactivate_outcome _) U2 (need_deactivation_sub _ _) I2);
        [|exact P2].
      now rewrite Lk2. }
  split; [assumption|]. split.
  - intros c st Due.
    pose proof (activation_attempted _ _ _ _ _ _ _ P1 Due) as At.
    simpl in At.
    pose proof Due as Due'.
    apply need_activation_in in Due' as (I & W & ->).
    assert (Kc : In c (keys (contacts (cp s)))) by (apply in_keys; eauto).
    split; [exact At|]. split; [|split].
    + intros L.
      exact (tick_linkless_frame _ _ _ _ _ _ _ U E A I L).
    + intros L Lt.
      pose proof (pass_done PrintActivating LIVE _ (activate_outcome _)
                            _ _ _ _ (c, PRE) P1 Due L) as D.
      simpl in D.
      apply in_of_get; auto; [now rewrite K|].
      destruct (pass_state PrintDeactivating POST _ (deactivate_outcome _)
                           _ _ _ _ c P2)
        as [X|(_ & [c' st'] & J & Sm & _)];
        [simpl in X; congruence|].
      exfalso. simpl in Sm. apply same_obj_oid in Sm.
      apply need_deactivation_in in J as (J & W' & _).
      assert (I2 : In (c, LIVE) (contacts (cp s2))).
      { apply in_of_get; auto. now rewrite K1. }
      destruct (uniq_same_key _ _ _ _ _ U2 J I2 Sm) as [-> _].
      unfold end_of in W'. lia.
    + intros L Le.
      pose proof (pass_done PrintActivating LIVE _ (activate_outcome _)
                            _ _ _ _ (c, PRE) P1 Due L) as D.
      simpl in D.
      destruct (Off c Kc D Le) as (At2 & I').
      rewrite L in At2, I'. auto.
  - intros c I W. apply Off; [apply in_keys; eauto| |exact W].
    pose proof (dict_get_in _ _ _ U I) as G.
    destruct (pass_state PrintActivating LIVE _ (activate_outcome _)
                         _ _ _ _ c P1) as [X|[X _]];
      simpl in X; congruence.
Qed.

End Attempts.


(* ================================================================== *)
(** * Part III: the properties on concrete plans                       *)
(* ================================================================== *)

(** Runs the program on the left of an equation. *)
Ltac run_lhs :=
  match goal with
  | |- ?l = _ => let v := eval vm_compute in l in change l with v
  end.

Section Scenarios.
Import Examples.

Lemma uniq_plan_1_2 : uniq (contacts plan_1_2).
Proof. unfold uniq. simpl. repeat constructor. simpl. tauto. Defined.

Lemma uniq_plan_pair : uniq (contacts plan_pair).
Proof.
  unfold uniq. simpl. repeat constructor; simpl; intuition discriminate.
Defined.

(** C1, refuted as stated: one contact between nodes 1 and 2, a session
    without links.  At time 10 the contact is due, its link is not found,
    the iteration runs to its end, and the contact is [PRE], not
    [LIVE]. *)
Lemma missing_link_leaves_contact_PRE_not_LIVE :
  exists ev s',
    @iteration _ serving no_args (boot plan_1_2 []) = (ev, Go s')
    /\ In (c_1_2, PRE) (need_activation plan_1_2 10)
    /\ find_link [] 1 2 = None
    /\ ev = [PrintNextEvent 0 10; Sleep 10; PrintActivating 10 c_1_2;
             PrintWarning 1 2]
    /\ dict_get c_1_2 (contacts (cp s')) = Some PRE
    /\ dict_get c_1_2 (contacts (cp s')) <> Some LIVE.
Proof.
  eexists _, _. split; [reflexivity|]. simpl.
  repeat split; auto. discriminate.
Qed.

Lemma missing_link_witness :
  (forall sess l,
      In (EditLink sess l) (fst tick_without_link) ->
      link_matches l (fst (nodes c_1_2)) (snd (nodes c_1_2)) = false)
  /\ In (c_1_2, PRE) (contacts (cp (state_of (snd tick_without_link))))
  /\ (forall s',
         snd tick_without_link = Go s' ->
         In (PrintActivating 10 c_1_2) (fst tick_without_link)
         /\ In (PrintWarning (fst (nodes c_1_2)) (snd (nodes c_1_2)))
               (fst tick_without_link)).
Proof.
  apply (@missing_link_skips_call_and_keeps_contact_PRE
           _ serving no_args (boot plan_1_2 []) 10 (fst tick_without_link) (snd tick_without_link)
           c_1_2 PRE).
  - exact uniq_plan_1_2.
  - reflexivity.
  - simpl. auto.
  - reflexivity.
  - reflexivity.
Defined.

(** C2, refuted as stated: the same directive written twice loads as
    two entries; their field values are all equal, yet a state stored
    under one is not found under the other. *)
Lemma equal_contacts_are_two_keys :
  exists a b,
    load twice_text = Ok (mkPlan false [(a, PRE); (b, PRE)])
    /\ (timespan a, nodes a, bw a, loss a, delay a, jitter a)
       = (timespan b, nodes b, bw b, loss b, delay b, jitter b)
    /\ dict_get b (dict_set a LIVE []) = None
    /\ dict_get b (dict_set a LIVE [(a, PRE); (b, PRE)]) = Some PRE.
Proof. exists c_1_2, c_1_2_again. repeat split. Qed.

Lemma identity_keys_witness :
  (forall (a : CoreContact) v (d : Dict),
      dict_get a (dict_set a v d) = Some v)
  /\ (forall (a b : CoreContact) v (d : Dict),
         oid a <> oid b -> dict_get b (dict_set a v d) = dict_get b d)
  /\ uniq (contacts (mkPlan false [(c_1_2, PRE); (c_1_2_again, PRE)]))
  /\ List.length
       (contacts (mkPlan false [(c_1_2, PRE); (c_1_2_again, PRE)]))
     = List.length (filter is_contact_directive twice_text)
  /\ (forall c s,
         In (c, s)
            (contacts (mkPlan false [(c_1_2, PRE); (c_1_2_again, PRE)])) ->
         s = PRE
         /\ dict_get c
              (contacts (mkPlan false [(c_1_2, PRE); (c_1_2_again, PRE)]))
            = Some PRE).
Proof.
  apply (contacts_are_keyed_by_object_identity twice_text).
  reflexivity.
Defined.



(** A well-formed directive whose delay no [float] holds, followed by
    the spec's malformed line: loading dies of the [print] of the first
    contact, before the malformed line is read. *)
Example unprintable_contact_is_met_first :
  py_int huge_delay = Some (10 ^ 309)
  /\ fits_float (10 ^ 309) = false
  /\ load unprintable_text = Raise OverflowError_float.
Proof. split; [|split]; reflexivity. Qed.

(** The spec's malformed line is rejected, and the message is the text
    after the keyword. *)
Example five_fields_raise :
  load ["a contact 10 20 1 2 1000000"]
  = Raise (ValueError_line "10 20 1 2 1000000").
Proof. reflexivity. Qed.

(** C4, at the failing input: the plan file says [s loop 1] and the
    command line gives [-l] the empty text, the one text argparse turns
    into [False].  When the timeline is exhausted the script prints
    [Looping], resets the plan and starts again at time 0.  (The text
    [False] itself is turned into [True].) *)
Theorem loop_override_false_does_not_stop_looping :
  loop_arg (parse_args None (Some "")) = Some false
  /\ loop_arg (parse_args None (Some "False")) = Some true
  /\ exists plan s,
      load looping_text = Ok plan
      /\ loop plan = true
      /\ skipn 10 (fst (@run _ serving 3 (parse_args None (Some ""))
                             (boot plan [link_1_2])))
         = [PrintLooping; CallReset]
      /\ snd (@run _ serving 3 (parse_args None (Some ""))
                    (boot plan [link_1_2])) = Go s
      /\ cur_time s = 0
      /\ contacts (cp s) = [(c_1_2, PRE)].
Proof.
  split; [reflexivity|]. split; [reflexivity|].
  eexists _, _. split; [run_lhs; reflexivity|]. split; [reflexivity|].
  split; [run_lhs; reflexivity|]. split; [run_lhs; reflexivity|].
  split; reflexivity.
Qed.

(** C5, refuted as stated: two contacts are due at time 10 and the
    controller is unavailable for the first call only.  The run dies of
    [RpcError] at that call: the failure is not logged, the second
    contact is never attempted, and no later iteration takes place. *)
Lemma one_failed_call_kills_the_loop :
  exists s',
    dying_run
    = ([PrintNextEvent 0 10; Sleep 10; PrintActivating 10 c_1_2;
        EditLink 1 (mkLink 1 2 (contact_options c_1_2 no_options))],
       Crash RpcError s')
    /\ ~ In (PrintActivating 10 c_3_4) (fst dying_run)
    /\ contacts (cp s') = [(c_1_2, PRE); (c_3_4, PRE)].
Proof.
  eexists. split; [reflexivity|]. split; [|reflexivity].
  simpl. intuition discriminate.
Qed.

Lemma failed_call_witness :
  (exists s', snd dying_run = Crash RpcError s')
  /\ (forall more,
         @run _ (down_at 0) (5 + more) no_args (boot plan_pair both_links)
         = (fst dying_run, snd dying_run))
  /\ (forall c st,
         In (c, st) (contacts plan_pair) ->
         exists st',
           replay c st (fst dying_run) = Some st'
           /\ In (c, st') (contacts (cp (state_of (snd dying_run))))).
Proof.
  destruct (@failed_controller_call_ends_the_loop
              _ (down_at 0) no_args 5 (boot plan_pair both_links)
              (fst dying_run) (snd dying_run)
              uniq_plan_pair eq_refl)
    as (Ans & Keep & _).
  pose proof (Ans [PrintNextEvent 0 10; Sleep 10; PrintActivating 10 c_1_2]
                  1 (mkLink 1 2 (contact_options c_1_2 no_options)) []
                  eq_refl) as (_ & Dead & Over).
  split; [exact Dead|]. split; [exact Over|exact Keep].
Defined.

Lemma ordering_witness :
  exists acts deacts,
    fst tick_handover = [PrintNextEvent 10 20; Sleep 10] ++ acts ++ deacts
    /\ Forall (fun e => activation_event e = true) acts
    /\ Forall (fun e => deactivation_event e = true) deacts
    /\ attempted 1 (PrintActivating 20 c_relay) c_relay LIVE true
                 (fun l => options l = options_of c_relay) acts
    /\ attempted 1 (PrintDeactivating 20 c_1_2) c_1_2 POST true
                 (fun l => opt_loss (options l) = PyInt 100) deacts
    /\ In (c_relay, LIVE) (contacts (cp (state_of (snd tick_handover))))
    /\ In (c_1_2, POST) (contacts (cp (state_of (snd tick_handover)))).
Proof.
  destruct (@activations_precede_deactivations_and_all_due_fire
              _ serving no_args at_handover 20
              (fst tick_handover) (snd tick_handover)
              uniq_plan_pair eq_refl eq_refl)
    as (head & acts & deacts & E & Hd & F1 & F2 & G).
  destruct Hd as [->|(_ & _ & _ & X)]; [|discriminate X].
  destruct (G _ eq_refl) as (_ & A & D).
  destruct (A c_relay PRE) as (At & _ & Lv & _); [simpl; auto|].
  destruct (D c_1_2) as (Dt & Po);
    [simpl; auto|vm_compute; discriminate|].
  exists acts, deacts. split; [exact E|]. split; [exact F1|].
  split; [exact F2|]. split; [exact At|]. split; [exact Dt|].
  split; [|exact Po]. apply Lv; [reflexivity|reflexivity].
Defined.

(** The scenario of the spec: two contacts that start at 10, in either
    order of the file, are both [LIVE] when the first iteration ends,
    with the clock at 10. *)
Example both_contacts_activate_in_either_order :
  (exists plan s a b,
      load pair_text = Ok plan
      /\ @iteration _ serving no_args (boot plan both_links)
         = (fst (@iteration _ serving no_args (boot plan both_links)), Go s)
      /\ cur_time s = 10
      /\ contacts (cp s) = [(a, LIVE); (b, LIVE)])
  /\ (exists plan s a b,
         load pair_text_swapped = Ok plan
         /\ @iteration _ serving no_args (boot plan both_links)
            = (fst (@iteration _ serving no_args (boot plan both_links)),
               Go s)
         /\ cur_time s = 10
         /\ contacts (cp s) = [(a, LIVE); (b, LIVE)]).
Proof.
  split; eexists _, _, _, _; (split; [run_lhs; reflexivity|]);
    (split; [run_lhs; f_equal; run_lhs; reflexivity|]); split; reflexivity.
Qed.

Lemma lifecycle_witness :
  exists st',
    replay c_1_2 PRE (fst full_run) = Some st'
    /\ In (c_1_2, st') (contacts (cp (state_of (snd full_run)))).
Proof.
  apply (@lifecycle_is_PRE_LIVE_POST
           _ serving no_args 3 (boot plan_1_2 [link_1_2])
           (fst full_run) (snd full_run) uniq_plan_1_2 eq_refl c_1_2 PRE).
  simpl. auto.
Defined.

(** The run of the witness: activated at 10, deactivated at 20. *)
Example full_run_ends_POST :
  replay c_1_2 PRE (fst full_run) = Some POST
  /\ contacts (cp (state_of (snd full_run))) = [(c_1_2, POST)].
Proof. split; reflexivity. Qed.

Lemma offered_once_witness :
  occurrences c_1_2 (need_deactivation plan_live 25) = 1%nat
  /\ forall t',
      occurrences c_1_2
        (need_deactivation
           (mkPlan (loop plan_live)
                   (dict_set c_1_2 POST (contacts plan_live))) t')
      = 0%nat.
Proof.
  apply (proj2 (need_deactivation_offers_live_ended_contacts_once
                  plan_live 25) c_1_2).
  - exact uniq_plan_1_2.
  - simpl. auto.
  - vm_compute. discriminate.
Defined.


(** C10, refuted as stated: a plan may hold a contact that starts before
    time 0.  Here the first event time is 3; the contact from -5 to 10
    is due for activation at 3 and has no link.  After the tick it is
    still [PRE], yet [next_activation(3)] is [None], not 3: the clock
    moves on to 4 and the loop ends there, the contact left [PRE]. *)
Lemma negative_start_is_passed_over :
  exists ev1 s1 ev s,
    @iteration _ serving no_args (boot plan_early [link_3_4]) = (ev1, Go s1)
    /\ cur_time s1 = 3
    /\ In (c_early, PRE) (need_activation plan_early 3)
    /\ find_link [link_3_4] 1 2 = None
    /\ In (c_early, PRE) (contacts (cp s1))
    /\ next_activation (cp s1) 3 = None
    /\ @run _ serving 3 no_args (boot plan_early [link_3_4]) = (ev, Stop s)
    /\ cur_time s = 4
    /\ contacts (cp s) = [(c_early, PRE); (c_brief, POST)].
Proof.
  eexists _, _, _, _. split; [reflexivity|]. split; [reflexivity|].
  split; [simpl; auto|]. split; [reflexivity|]. split; [simpl; auto|].
  split; [reflexivity|]. split; [reflexivity|]. split; reflexivity.
Qed.

(** ** The further properties on concrete plans *)

Lemma nonneg_plan_1_2 : nonneg_starts plan_1_2.
Proof. intros c st [E|[]]. inversion E. vm_compute. discriminate. Defined.

Lemma all_PRE_plan_1_2 : all_PRE plan_1_2.
Proof. intros c st [E|[]]. now inversion E. Defined.




Lemma reset_witness :
  contacts (reset plan_mixed)
  = map (fun cs => (fst cs, PRE)) (contacts plan_mixed)
  /\ keys (contacts (reset plan_mixed)) = keys (contacts plan_mixed)
  /\ loop (reset plan_mixed) = loop plan_mixed
  /\ (forall c st, In (c, st) (contacts (reset plan_mixed)) -> st = PRE)
  /\ reset (reset plan_mixed) = reset plan_mixed.
Proof.
  apply (reset_restores_every_contact_to_PRE plan_mixed).
  exact uniq_plan_pair.
Defined.

Lemma last_loop_witness : loop plan_1_2 = last_loop false relooped_text.
Proof.
  apply (loaded_loop_flag_is_last_loop_directive relooped_text plan_1_2).
  reflexivity.
Defined.

Lemma comment_line_witness :
  load (["s loop 1"] ++ "# two nodes" :: ["a contact 10 20 1 2 1000000 0.0 5 1"])
  = load (["s loop 1"] ++ ["a contact 10 20 1 2 1000000 0.0 5 1"]).
Proof.
  apply (unrecognised_lines_are_ignored
           ["s loop 1"] ["a contact 10 20 1 2 1000000 0.0 5 1"]
           "# two nodes").
  split; reflexivity.
Defined.




(** A contact that starts after more seconds than [time.sleep] converts:
    the script announces the event and dies in the sleep. *)
Example far_contact_dies_in_sleep :
  @run _ serving 3 no_args (boot plan_far [link_1_2])
  = ([PrintNextEvent 0 10000000000],
     Crash OverflowError_sleep (boot plan_far [link_1_2])).
Proof. reflexivity. Qed.

Lemma looping_witness :
  ~ In PrintNoMoreEvents (fst looping_run)
  /\ forall s', snd looping_run <> Stop s'.
Proof.
  apply (@a_looping_run_never_ends_normally
           _ serving loop_args 4 (boot plan_1_2 [link_1_2])
           (fst looping_run) (snd looping_run));
    reflexivity.
Defined.

Lemma clock_witness :
  ~ In PrintLooping (fst full_run) /\ ~ In CallReset (fst full_run)
  /\ cur_time (boot plan_1_2 [link_1_2])
     <= cur_time (state_of (snd full_run)).
Proof.
  apply (@without_looping_the_clock_never_goes_back
           _ serving no_args 3 (boot plan_1_2 [link_1_2])
           (fst full_run) (snd full_run));
    reflexivity.
Defined.

Lemma frame_witness :
  node_ids (links (state_of (snd looping_run)))
  = node_ids (links (boot plan_1_2 [link_1_2]))
  /\ List.length (links (state_of (snd looping_run)))
     = List.length (links (boot plan_1_2 [link_1_2]))
  /\ keys (contacts (cp (state_of (snd looping_run))))
     = keys (contacts (cp (boot plan_1_2 [link_1_2])))
  /\ loop (cp (state_of (snd looping_run)))
     = loop (cp (boot plan_1_2 [link_1_2])).
Proof.
  apply (@a_run_keeps_the_links_and_the_contacts
           _ serving loop_args 4 (boot plan_1_2 [link_1_2])
           (fst looping_run) (snd looping_run)).
  reflexivity.
Defined.

Lemma punctual_witness :
  (forall t c, In (PrintActivating t c) (fst looping_run) ->
               t = fst (timespan c))
  /\ (forall t c, In (PrintDeactivating t c) (fst looping_run) ->
                  t = snd (timespan c)).
Proof.
  apply (@contacts_fire_exactly_at_their_start_and_end
           _ serving loop_args plan_1_2 [link_1_2] 4
           (fst looping_run) (snd looping_run)
           uniq_plan_1_2 nonneg_plan_1_2 all_PRE_plan_1_2).
  reflexivity.
Defined.

Lemma normal_end_witness :
  all_POST (cp (state_of (snd full_run)))
  /\ looping no_args plan_1_2 = false.
Proof.
  apply (@the_loop_ends_normally_only_when_all_contacts_are_POST
           _ serving no_args plan_1_2 [link_1_2] 3
           (fst full_run) (state_of (snd full_run))
           uniq_plan_1_2 nonneg_plan_1_2 all_PRE_plan_1_2).
  reflexivity.
Defined.



Lemma calls_witness : calls_follow (session no_args) None (fst full_run).
Proof.
  apply (@every_controller_call_is_for_the_announced_contact
           _ serving no_args 3 (boot plan_1_2 [link_1_2])
           (fst full_run) (snd full_run)).
  reflexivity.
Defined.

Lemma options_witness :
  Forall2 (tuned (cp (boot plan_1_2 [link_1_2])))
          (links (boot plan_1_2 [link_1_2]))
          (links (state_of (snd full_run))).
Proof.
  apply (@link_options_come_from_contacts_and_are_never_restored
           _ serving no_args 3 (boot plan_1_2 [link_1_2])
           (fst full_run) (snd full_run)).
  reflexivity.
Defined.

(** The run of these witnesses leaves the link with the contact's
    bandwidth, delay and jitter and loss 100, not with the options it
    had. *)
Example full_run_leaves_the_link_blocked :
  links (state_of (snd full_run))
  = [mkLink 1 2 (blocked_options (options_of c_1_2))]
  /\ options link_1_2 = mkOptions 0 0 (PyInt 0) 0.
Proof. split; reflexivity. Qed.

Lemma instant_witness :
  exists acts deacts,
    fst tick_instant
    = [PrintNextEvent (cur_time (boot plan_instant [link_1_2])) 10;
       Sleep (10 - cur_time (boot plan_instant [link_1_2]))]
        ++ acts ++ deacts
    /\ In (PrintActivating 10 c_instant) acts
    /\ In (PrintDeactivating 10 c_instant) deacts
    /\ In (c_instant, POST) (contacts (cp (state_of (snd tick_instant)))).
Proof.
  apply (@a_contact_that_ends_when_it_starts_is_live_for_no_time
           _ serving no_args (boot plan_instant [link_1_2])
           (state_of (snd tick_instant)) 10 (fst tick_instant) c_instant).
  - exact uniq_plan_1_2.
  - reflexivity.
  - reflexivity.
  - simpl. auto.
  - reflexivity.
  - reflexivity.
  - reflexivity.
Defined.

(** The plan whose contact ends before it starts: the script sleeps until
    the start and then spins there, sleeping 0 each time. *)
Example backwards_contact_spins :
  fst backwards_run
  = [PrintNextEvent 0 20; Sleep 20; PrintNextEvent 20 20; Sleep 0;
     PrintNextEvent 20 20; Sleep 0].
Proof. reflexivity. Qed.


End Scenarios.
